(** * dWillManagement: the will contract, its event projection and query API

    A shallow embedding of
    - [DecentralizedWillManager] (Solidity ^0.8, checked arithmetic),
    - the indexer's SQLite replica ([db.js]) and its event dispatch
      ([indexer.js]),
    - the read-only HTTP facade ([api.js]),
    followed by the properties stated about them. *)

From Stdlib Require Import ZArith Lia Bool String Ascii.
From stdpp Require Import gmap strings list fin_maps sorting.

Local Open Scope Z_scope.

(** ** Results of a transaction *)

(** A call either returns, or reverts with a [require] message, or panics
    (Solidity 0.8: [0x11] arithmetic overflow/underflow, [0x32] index out of
    range).  A failed call leaves storage as it was. *)
Inductive Failure :=
| Revert (reason : string)
| Panic (code : Z).

Inductive Result (A : Type) :=
| Ok (a : A)
| Fail (f : Failure).
Arguments Ok {A} a.
Arguments Fail {A} f.

#[global] Instance Result_ret : MRet Result := fun A a => Ok a.
#[global] Instance Result_bind : MBind Result := fun A B k m =>
  match m with
  | Ok a => k a
  | Fail f => Fail f
  end.

Definition require (c : bool) (reason : string) : Result unit :=
  if c then Ok tt else Fail (Revert reason).

Definition isOk {A} (r : Result A) : bool :=
  match r with Ok _ => true | Fail _ => false end.

(** ** uint256 arithmetic as Solidity 0.8 checks it *)

Definition MAX_UINT256 : Z := 2 ^ 256 - 1.

Definition checked_add (a b : Z) : Result Z :=
  if a + b <=? MAX_UINT256 then Ok (a + b) else Fail (Panic 17).

Definition checked_sub (a b : Z) : Result Z :=
  if b <=? a then Ok (a - b) else Fail (Panic 17).

Definition checked_mul (a b : Z) : Result Z :=
  if a * b <=? MAX_UINT256 then Ok (a * b) else Fail (Panic 17).

Module Contract.

(** *** Storage *)

Record Beneficiary := {
  wallet : Z;          (* address; 0 is address(0) *)
  share : Z;
  isGuardian : bool
}.

Record Will := {
  testator : Z;
  beneficiaries : list Beneficiary;
  lockedVault : Z;
  flexibleVault : Z;
  lastCheckIn : Z;
  checkInPeriod : Z;
  disputePeriod : Z;
  executed : bool
}.

#[global] Instance Beneficiary_eq_dec : EqDecision Beneficiary.
Proof. solve_decision. Defined.
#[global] Instance Will_eq_dec : EqDecision Will.
Proof. solve_decision. Defined.

(** A slot of [mapping(address => Will)] that was never written reads as
    the all-zero struct. *)
Definition emptyWill : Will :=
  {| testator := 0; beneficiaries := []; lockedVault := 0; flexibleVault := 0;
     lastCheckIn := 0; checkInPeriod := 0; disputePeriod := 0;
     executed := false |}.

Abbreviation State := (gmap Z Will).

Definition getWill (s : State) (a : Z) : Will := default emptyWill (s !! a).

(** *** Events and receipts *)

Inductive Event :=
| WillCreated (t : Z) (checkInPeriod disputePeriod : Z)
| BeneficiaryAdded (t b : Z) (share : Z) (isGuardian : bool)
| BeneficiaryUpdated (t b : Z) (newShare : Z) (isGuardian : bool)
| BeneficiaryRemoved (t b : Z)
| DepositLocked (t : Z) (amount : Z)
| DepositFlexible (t : Z) (amount : Z)
| WithdrawFlexible (t : Z) (amount : Z)
| CheckIn (t : Z) (timestamp : Z)
| WillExecuted (t : Z) (totalDistributed : Z).

(** What a successful call leaves behind: the new storage, the value sent
    out by [call{value: _}("")], and the event it emitted. *)
Record Receipt := {
  post : gmap Z Will;
  transfers : list (Z * Z);
  logs : list Event
}.

(** The transaction context.  [accepts w v] is the outcome of
    [w.call{value: v}("")] when the callee does not call back into the
    contract and the contract holds at least [v]; [Reentrancy] below runs
    the same functions with wallets that do call back. *)
Record Env := {
  sender : Z;
  timestamp : Z;
  accepts : Z -> Z -> bool
}.

(** *** Modifiers *)

Definition onlyTestator (e : Env) (t : Z) : Result unit :=
  require (sender e =? t) "Only testator can call this function".

Definition willExists (s : State) (t : Z) : Result unit :=
  require (negb (testator (getWill s t) =? 0)) "Will does not exist".

Definition willNotExecuted (s : State) (t : Z) : Result unit :=
  require (negb (executed (getWill s t))) "Will already executed".

Definition validShare (sh : Z) : Result unit :=
  require ((0 <? sh) && (sh <=? 100)) "Share must be between 1-100".

(** *** Internal helpers: the linear scans over [will.beneficiaries] *)

Fixpoint isBeneficiaryIn (user : Z) (bs : list Beneficiary) : bool :=
  match bs with
  | [] => false
  | b :: rest => if wallet b =? user then true else isBeneficiaryIn user rest
  end.

Fixpoint isGuardianIn (user : Z) (bs : list Beneficiary) : bool :=
  match bs with
  | [] => false
  | b :: rest =>
      if (wallet b =? user) && isGuardian b then true
      else isGuardianIn user rest
  end.

Fixpoint hasGuardianIn (bs : list Beneficiary) : bool :=
  match bs with
  | [] => false
  | b :: rest => if isGuardian b then true else hasGuardianIn rest
  end.

Fixpoint totalSharesFrom (total : Z) (bs : list Beneficiary) : Result Z :=
  match bs with
  | [] => Ok total
  | b :: rest => total' ← checked_add total (share b); totalSharesFrom total' rest
  end.

Fixpoint beneficiaryIndexFrom (i : nat) (user : Z) (bs : list Beneficiary)
  : Result nat :=
  match bs with
  | [] => Fail (Revert "Beneficiary not found")
  | b :: rest =>
      if wallet b =? user then Ok i else beneficiaryIndexFrom (S i) user rest
  end.

Definition _isBeneficiaryOfWill (s : State) (user t : Z) : bool :=
  isBeneficiaryIn user (beneficiaries (getWill s t)).

Definition _isGuardianOfWill (s : State) (user t : Z) : bool :=
  isGuardianIn user (beneficiaries (getWill s t)).

Definition _hasGuardian (s : State) (t : Z) : bool :=
  hasGuardianIn (beneficiaries (getWill s t)).

Definition _getTotalShares (s : State) (t : Z) : Result Z :=
  totalSharesFrom 0 (beneficiaries (getWill s t)).

Definition _getBeneficiaryIndex (s : State) (user t : Z) : Result nat :=
  beneficiaryIndexFrom 0 user (beneficiaries (getWill s t)).

(** *** Record updates on a will in storage *)

Definition setBeneficiaries (w : Will) (bs : list Beneficiary) : Will :=
  {| testator := testator w; beneficiaries := bs;
     lockedVault := lockedVault w; flexibleVault := flexibleVault w;
     lastCheckIn := lastCheckIn w; checkInPeriod := checkInPeriod w;
     disputePeriod := disputePeriod w; executed := executed w |}.

Definition setLocked (w : Will) (v : Z) : Will :=
  {| testator := testator w; beneficiaries := beneficiaries w;
     lockedVault := v; flexibleVault := flexibleVault w;
     lastCheckIn := lastCheckIn w; checkInPeriod := checkInPeriod w;
     disputePeriod := disputePeriod w; executed := executed w |}.

Definition setFlexible (w : Will) (v : Z) : Will :=
  {| testator := testator w; beneficiaries := beneficiaries w;
     lockedVault := lockedVault w; flexibleVault := v;
     lastCheckIn := lastCheckIn w; checkInPeriod := checkInPeriod w;
     disputePeriod := disputePeriod w; executed := executed w |}.

Definition setLastCheckIn (w : Will) (v : Z) : Will :=
  {| testator := testator w; beneficiaries := beneficiaries w;
     lockedVault := lockedVault w; flexibleVault := flexibleVault w;
     lastCheckIn := v; checkInPeriod := checkInPeriod w;
     disputePeriod := disputePeriod w; executed := executed w |}.

(** *** Will lifecycle *)

Definition createWill (s : State) (e : Env) (cip dp : Z) : Result Receipt :=
  require (testator (getWill s (sender e)) =? 0) "Will already exists";;
  require (0 <? cip) "Check-in period must be positive";;
  require (0 <? dp) "Dispute period must be positive";;
  let w := getWill s (sender e) in
  let newWill :=
    {| testator := sender e; beneficiaries := beneficiaries w;
       lockedVault := lockedVault w; flexibleVault := flexibleVault w;
       lastCheckIn := timestamp e; checkInPeriod := cip;
       disputePeriod := dp; executed := false |} in
  Ok {| post := <[sender e := newWill]> s; transfers := [];
        logs := [WillCreated (sender e) cip dp] |}.

(** The payout loop of [executeWill] among wallets that do not call back:
    one [call] per beneficiary whose amount is positive; a failed call
    reverts the whole execution. *)
Fixpoint distribute (e : Env) (totalFunds : Z) (bs : list Beneficiary)
  : Result (list (Z * Z)) :=
  match bs with
  | [] => Ok []
  | b :: rest =>
      p ← checked_mul totalFunds (share b);
      let amount := p / 100 in
      if 0 <? amount then
        require (accepts e (wallet b) amount) "Transfer failed";;
        paid ← distribute e totalFunds rest;
        Ok ((wallet b, amount) :: paid)
      else distribute e totalFunds rest
  end.

Definition executeWill (s : State) (e : Env) (t : Z) : Result Receipt :=
  willExists s t;;
  willNotExecuted s t;;
  let will := getWill s t in
  let currentTime := timestamp e in
  deadlineTime ← checked_add (lastCheckIn will) (checkInPeriod will);
  disputeEndTime ← checked_add deadlineTime (disputePeriod will);
  require (deadlineTime <? currentTime) "Check-in period has not expired";;
  (if currentTime <=? disputeEndTime
   then require (_isGuardianOfWill s (sender e) t)
          "Only guardian can execute during dispute period"
   else require (_isBeneficiaryOfWill s (sender e) t)
          "Only beneficiaries can execute will");;
  totalFunds ← checked_add (lockedVault will) (flexibleVault will);
  require (0 <? totalFunds) "No funds to distribute";;
  total ← _getTotalShares s t;
  require (total =? 100) "Total beneficiary shares must equal 100%";;
  paid ← distribute e totalFunds (beneficiaries will);
  let will' :=
    {| testator := testator will; beneficiaries := beneficiaries will;
       lockedVault := 0; flexibleVault := 0;
       lastCheckIn := lastCheckIn will; checkInPeriod := checkInPeriod will;
       disputePeriod := disputePeriod will; executed := true |} in
  Ok {| post := <[t := will']> s; transfers := paid;
        logs := [WillExecuted t totalFunds] |}.

(** *** Beneficiary management *)

Definition addBeneficiary (s : State) (e : Env) (b sh : Z) (g : bool)
  : Result Receipt :=
  willExists s (sender e);;
  willNotExecuted s (sender e);;
  validShare sh;;
  require (negb (b =? 0)) "Invalid beneficiary address";;
  require (negb (b =? sender e)) "Cannot add self as beneficiary";;
  require (negb (_isBeneficiaryOfWill s b (sender e)))
    "Beneficiary already exists";;
  (if g then require (negb (_hasGuardian s (sender e))) "Guardian already exists"
   else Ok tt);;
  currentTotal ← _getTotalShares s (sender e);
  newTotal ← checked_add currentTotal sh;
  require (newTotal <=? 100) "Total shares cannot exceed 100%";;
  let w := getWill s (sender e) in
  let entry := {| wallet := b; share := sh; isGuardian := g |} in
  Ok {| post := <[sender e := setBeneficiaries w (beneficiaries w ++ [entry])]> s;
        transfers := [];
        logs := [BeneficiaryAdded (sender e) b sh g] |}.

Definition updateBeneficiary (s : State) (e : Env) (b newShare : Z) (g : bool)
  : Result Receipt :=
  willExists s (sender e);;
  willNotExecuted s (sender e);;
  validShare newShare;;
  require (_isBeneficiaryOfWill s b (sender e)) "Beneficiary not found";;
  let will := getWill s (sender e) in
  beneficiaryIndex ← _getBeneficiaryIndex s b (sender e);
  match beneficiaries will !! beneficiaryIndex with
  | None => Fail (Panic 50)
  | Some targetBeneficiary =>
      (if g && negb (isGuardian targetBeneficiary)
       then require (negb (_hasGuardian s (sender e))) "Guardian already exists"
       else Ok tt);;
      currentTotal ← _getTotalShares s (sender e);
      d ← checked_sub currentTotal (share targetBeneficiary);
      adjustedTotal ← checked_add d newShare;
      require (adjustedTotal <=? 100) "Total shares cannot exceed 100%";;
      let entry := {| wallet := wallet targetBeneficiary; share := newShare;
                      isGuardian := g |} in
      Ok {| post := <[sender e :=
                       setBeneficiaries will
                         (<[beneficiaryIndex := entry]> (beneficiaries will))]> s;
            transfers := [];
            logs := [BeneficiaryUpdated (sender e) b newShare g] |}
  end.

(** Swap-and-pop: the last entry is copied over the removed one, then the
    array shrinks by one. *)
Definition removeBeneficiary (s : State) (e : Env) (b : Z) : Result Receipt :=
  willExists s (sender e);;
  willNotExecuted s (sender e);;
  require (_isBeneficiaryOfWill s b (sender e)) "Beneficiary not found";;
  let will := getWill s (sender e) in
  beneficiaryIndex ← _getBeneficiaryIndex s b (sender e);
  lastIndex ← checked_sub (Z.of_nat (length (beneficiaries will))) 1;
  match beneficiaries will !! Z.to_nat lastIndex with
  | None => Fail (Panic 50)
  | Some lastEntry =>
      if decide (beneficiaryIndex < length (beneficiaries will))%nat then
        let bs := <[beneficiaryIndex := lastEntry]> (beneficiaries will) in
        Ok {| post := <[sender e :=
                         setBeneficiaries will (take (Z.to_nat lastIndex) bs)]> s;
              transfers := [];
              logs := [BeneficiaryRemoved (sender e) b] |}
      else Fail (Panic 50)
  end.

(** *** Vault management ([value] is [msg.value] of the payable call) *)

Definition depositLocked (s : State) (e : Env) (value : Z) : Result Receipt :=
  willExists s (sender e);;
  willNotExecuted s (sender e);;
  require (0 <? value) "Must deposit positive amount";;
  let w := getWill s (sender e) in
  v ← checked_add (lockedVault w) value;
  Ok {| post := <[sender e := setLocked w v]> s; transfers := [];
        logs := [DepositLocked (sender e) value] |}.

Definition depositFlexible (s : State) (e : Env) (value : Z) : Result Receipt :=
  willExists s (sender e);;
  willNotExecuted s (sender e);;
  require (0 <? value) "Must deposit positive amount";;
  let w := getWill s (sender e) in
  v ← checked_add (flexibleVault w) value;
  Ok {| post := <[sender e := setFlexible w v]> s; transfers := [];
        logs := [DepositFlexible (sender e) value] |}.

Definition withdrawFlexible (s : State) (e : Env) (amount : Z) : Result Receipt :=
  willExists s (sender e);;
  willNotExecuted s (sender e);;
  require (0 <? amount) "Must withdraw positive amount";;
  let w := getWill s (sender e) in
  require (amount <=? flexibleVault w) "Insufficient flexible vault balance";;
  v ← checked_sub (flexibleVault w) amount;
  require (accepts e (sender e) amount) "Withdrawal failed";;
  Ok {| post := <[sender e := setFlexible w v]> s;
        transfers := [(sender e, amount)];
        logs := [WithdrawFlexible (sender e) amount] |}.

(** *** Dead man's switch *)

Definition checkIn (s : State) (e : Env) : Result Receipt :=
  willExists s (sender e);;
  willNotExecuted s (sender e);;
  let w := getWill s (sender e) in
  Ok {| post := <[sender e := setLastCheckIn w (timestamp e)]> s;
        transfers := [];
        logs := [CheckIn (sender e) (timestamp e)] |}.

(** *** The external surface as one transition function *)

Inductive Call :=
| CreateWill (checkInPeriod disputePeriod : Z)
| ExecuteWill (t : Z)
| AddBeneficiary (b : Z) (share : Z) (isGuardian : bool)
| UpdateBeneficiary (b : Z) (newShare : Z) (isGuardian : bool)
| RemoveBeneficiary (b : Z)
| DoDepositLocked (value : Z)
| DoDepositFlexible (value : Z)
| DoWithdrawFlexible (amount : Z)
| DoCheckIn.

Definition exec (s : State) (e : Env) (c : Call) : Result Receipt :=
  match c with
  | CreateWill cip dp => createWill s e cip dp
  | ExecuteWill t => executeWill s e t
  | AddBeneficiary b sh g => addBeneficiary s e b sh g
  | UpdateBeneficiary b sh g => updateBeneficiary s e b sh g
  | RemoveBeneficiary b => removeBeneficiary s e b
  | DoDepositLocked v => depositLocked s e v
  | DoDepositFlexible v => depositFlexible s e v
  | DoWithdrawFlexible a => withdrawFlexible s e a
  | DoCheckIn => checkIn s e
  end.

(** Storage after a transaction: a revert or panic rolls everything back. *)
Definition after (s : State) (r : Result Receipt) : gmap Z Will :=
  match r with
  | Ok rc => post rc
  | Fail _ => s
  end.

(** One transaction by any caller, in any block, against any wallets. *)
Definition step (s s' : gmap Z Will) : Prop :=
  exists e c, s' = after s (exec s e c).

(** States the contract can be in: from empty storage, by transactions. *)
Inductive reachable : gmap Z Will -> Prop :=
| reachable_init : reachable ∅
| reachable_step s s' : reachable s -> step s s' -> reachable s'.

(** The states that follow a given one. *)
Inductive successor (s : gmap Z Will) : gmap Z Will -> Prop :=
| successor_refl : successor s s
| successor_step s1 s2 : successor s s1 -> step s1 s2 -> successor s s2.

(** *** The spec's error names, as the [require] messages that carry them *)

Definition WillExecutedError : Failure := Revert "Will already executed".
Definition PhaseNotElapsed : Failure := Revert "Check-in period has not expired".
Definition UnauthorizedInDispute : Failure :=
  Revert "Only guardian can execute during dispute period".
Definition UnauthorizedWhenOpen : Failure :=
  Revert "Only beneficiaries can execute will".
Definition ShareOverflow : Failure := Revert "Total shares cannot exceed 100%".
Definition GuardianConflict : Failure := Revert "Guardian already exists".
Definition InsufficientBalance : Failure :=
  Revert "Insufficient flexible vault balance".

(** *** Measures over a beneficiary list *)

Fixpoint weigh (f : Beneficiary -> Z) (bs : list Beneficiary) : Z :=
  match bs with
  | [] => 0
  | b :: rest => f b + weigh f rest
  end.

Definition sumShares (bs : list Beneficiary) : Z := weigh share bs.

Definition guardianFlag (b : Beneficiary) : Z := if isGuardian b then 1 else 0.

Definition guardianCount (bs : list Beneficiary) : Z := weigh guardianFlag bs.

(** What [executeWill] pays: [floor(totalFunds * share / 100)] to each
    beneficiary in list order, zero amounts producing no call. *)
Definition payouts (totalFunds : Z) (bs : list Beneficiary) : list (Z * Z) :=
  filter (fun p => 0 < p.2)
    (map (fun b => (wallet b, totalFunds * share b / 100)) bs).

(** The edits the three beneficiary operations make to the array. *)
Inductive edit (bs : list Beneficiary) : list Beneficiary -> Prop :=
| edit_push b sh g tot :
    0 < sh <= 100 ->
    (g = true -> hasGuardianIn bs = false) ->
    totalSharesFrom 0 bs = Ok tot -> tot + sh <= 100 ->
    edit bs (bs ++ [{| wallet := b; share := sh; isGuardian := g |}])
| edit_set i target sh g tot :
    bs !! i = Some target ->
    0 < sh <= 100 ->
    (g = true -> isGuardian target = false -> hasGuardianIn bs = false) ->
    totalSharesFrom 0 bs = Ok tot -> tot - share target + sh <= 100 ->
    edit bs (<[i := {| wallet := wallet target; share := sh; isGuardian := g |}]> bs)
| edit_swap_pop i lastEntry :
    (i < length bs)%nat ->
    bs !! (length bs - 1)%nat = Some lastEntry ->
    edit bs (take (length bs - 1) (<[i := lastEntry]> bs)).

(** The preconditions of [executeWill] other than time and caller: there
    are funds, they can be multiplied by a share without overflow, the
    shares are positive and sum to exactly 100, and every wallet accepts
    its payment. *)
Definition payable (s : State) (e : Env) (t : Z) : Prop :=
  let w := getWill s t in
  let total := lockedVault w + flexibleVault w in
  0 < total /\ total * 100 <= MAX_UINT256 /\
  Forall (fun b => 0 < share b) (beneficiaries w) /\
  sumShares (beneficiaries w) = 100 /\
  Forall (fun b => accepts e (wallet b) (total * share b / 100) = true)
    (beneficiaries w).

(** The will as [executeWill] leaves it. *)
Definition settled (w : Will) : Will :=
  {| testator := testator w; beneficiaries := beneficiaries w;
     lockedVault := 0; flexibleVault := 0;
     lastCheckIn := lastCheckIn w; checkInPeriod := checkInPeriod w;
     disputePeriod := disputePeriod w; executed := true |}.

(** Shares are positive and sum to at most 100. *)
Definition sharesBounded (bs : list Beneficiary) : Prop :=
  Forall (fun b => 0 < share b) bs /\ sumShares bs <= 100.

(** *** The end-to-end scenario of the specification

    Testator [alice] creates a will (30-day check-in, 7-day dispute), names
    [bob] with 60% and guardian [gina] with 40%, and deposits 10 locked and
    5 flexible units. *)

Definition alice : Z := 1001.
Definition bob : Z := 1002.
Definition gina : Z := 1003.
Definition mallory : Z := 1004.

Definition envOf (who now : Z) : Env :=
  {| sender := who; timestamp := now; accepts := fun _ _ => true |}.

Definition transact (s : State) (e : Env) (c : Call) : gmap Z Will :=
  after s (exec s e c).

Definition created : gmap Z Will :=
  transact ∅ (envOf alice 1000) (CreateWill 2592000 604800).
Definition withBob : gmap Z Will :=
  transact created (envOf alice 1010) (AddBeneficiary bob 60 false).
Definition withGuardian : gmap Z Will :=
  transact withBob (envOf alice 1020) (AddBeneficiary gina 40 true).
Definition lockedIn : gmap Z Will :=
  transact withGuardian (envOf alice 1030) (DoDepositLocked 10).
Definition funded : gmap Z Will :=
  transact lockedIn (envOf alice 1040) (DoDepositFlexible 5).

(** [deadline = 1000 + 2592000], [disputeEnd = deadline + 604800]. *)
Definition scenarioDeadline : Z := 1000 + 2592000.
Definition scenarioDisputeEnd : Z := scenarioDeadline + 604800.

(** bob executes one second after the dispute period; later mallory opens
    a will of her own. *)
Definition distributed : gmap Z Will :=
  transact funded (envOf bob (scenarioDisputeEnd + 1)) (ExecuteWill alice).
Definition afterwards : gmap Z Will :=
  transact distributed (envOf mallory 4000000) (CreateWill 86400 3600).

(** *** What one successful call writes

    [writes e c k w w']: call [c] in context [e] replaces the will [w]
    stored under [k] by [w'], the checks named having passed. *)
Inductive writes (e : Env) : Call -> Z -> Will -> Will -> Prop :=
| writes_create cip dp w :
    testator w = 0 -> 0 < cip -> 0 < dp ->
    writes e (CreateWill cip dp) (sender e) w
      {| testator := sender e; beneficiaries := beneficiaries w;
         lockedVault := lockedVault w; flexibleVault := flexibleVault w;
         lastCheckIn := timestamp e; checkInPeriod := cip;
         disputePeriod := dp; executed := false |}
| writes_execute t w :
    testator w <> 0 -> executed w = false ->
    lastCheckIn w + checkInPeriod w < timestamp e ->
    0 < lockedVault w + flexibleVault w <= MAX_UINT256 ->
    sumShares (beneficiaries w) = 100 ->
    distribute e (lockedVault w + flexibleVault w) (beneficiaries w)
      = Ok (payouts (lockedVault w + flexibleVault w) (beneficiaries w)) ->
    writes e (ExecuteWill t) t w (settled w)
| writes_add b sh g w :
    testator w <> 0 -> executed w = false -> 0 < sh <= 100 ->
    b <> 0 -> b <> sender e -> isBeneficiaryIn b (beneficiaries w) = false ->
    (g = true -> hasGuardianIn (beneficiaries w) = false) ->
    sumShares (beneficiaries w) + sh <= 100 ->
    writes e (AddBeneficiary b sh g) (sender e) w
      (setBeneficiaries w
         (beneficiaries w ++ [{| wallet := b; share := sh; isGuardian := g |}]))
| writes_update b sh g i target w :
    testator w <> 0 -> executed w = false -> 0 < sh <= 100 ->
    beneficiaryIndexFrom 0 b (beneficiaries w) = Ok i ->
    beneficiaries w !! i = Some target ->
    (g = true -> isGuardian target = false ->
     hasGuardianIn (beneficiaries w) = false) ->
    sumShares (beneficiaries w) - share target + sh <= 100 ->
    writes e (UpdateBeneficiary b sh g) (sender e) w
      (setBeneficiaries w
         (<[i := {| wallet := wallet target; share := sh; isGuardian := g |}]>
            (beneficiaries w)))
| writes_remove b i lastEntry w :
    testator w <> 0 -> executed w = false ->
    beneficiaryIndexFrom 0 b (beneficiaries w) = Ok i ->
    beneficiaries w !! (length (beneficiaries w) - 1)%nat = Some lastEntry ->
    writes e (RemoveBeneficiary b) (sender e) w
      (setBeneficiaries w
         (take (length (beneficiaries w) - 1)
            (<[i := lastEntry]> (beneficiaries w))))
| writes_depositLocked v w :
    testator w <> 0 -> executed w = false -> 0 < v ->
    lockedVault w + v <= MAX_UINT256 ->
    writes e (DoDepositLocked v) (sender e) w (setLocked w (lockedVault w + v))
| writes_depositFlexible v w :
    testator w <> 0 -> executed w = false -> 0 < v ->
    flexibleVault w + v <= MAX_UINT256 ->
    writes e (DoDepositFlexible v) (sender e) w
      (setFlexible w (flexibleVault w + v))
| writes_withdraw a w :
    testator w <> 0 -> executed w = false -> 0 < a <= flexibleVault w ->
    accepts e (sender e) a = true ->
    writes e (DoWithdrawFlexible a) (sender e) w
      (setFlexible w (flexibleVault w - a))
| writes_checkIn w :
    testator w <> 0 -> executed w = false ->
    writes e DoCheckIn (sender e) w (setLastCheckIn w (timestamp e)).

(** The sum a list of transfers moves. *)
Definition totalPaid (ts : list (Z * Z)) : Z := foldr (fun p acc => p.2 + acc) 0 ts.

(** The shape of a will in storage: identity, blank slots, wallets,
    balances. *)
Definition ownKey (a : Z) (w : Will) : Prop :=
  (testator w = 0 \/ testator w = a) /\
  (testator w = 0 ->
   beneficiaries w = [] /\ lockedVault w = 0 /\ flexibleVault w = 0
   /\ executed w = false) /\
  (testator w <> 0 -> 0 < checkInPeriod w /\ 0 < disputePeriod w).

Definition walletsDistinct (a : Z) (w : Will) : Prop :=
  NoDup (wallet <$> beneficiaries w) /\
  Forall (fun b => wallet b <> 0 /\ wallet b <> a) (beneficiaries w).

Definition vaultsSound (w : Will) : Prop :=
  0 <= lockedVault w <= MAX_UINT256 /\
  0 <= flexibleVault w <= MAX_UINT256 /\
  (executed w = true -> lockedVault w = 0 /\ flexibleVault w = 0).

End Contract.

(** * The contract among wallets that run code

    [Contract] reads [w.call{value: v}] as a yes/no answer.  A wallet
    that is itself a contract runs its [receive] function during the call
    and may call the will manager again before it returns.  This module
    runs the same functions with such wallets and with the ether the
    contract holds. *)

Module Reentrancy.
Import Contract.

(** What a wallet's code does when it receives value: the calls it makes
    back into the will manager (with itself as [msg.sender]; a call that
    fails is caught by the wallet) and whether it then returns success. *)
Record Reaction := {
  callbacks : list Call;
  accepted : bool
}.

(** The code of all wallets: [react gas w v] is the reaction of wallet [w]
    to receiving [v] with [gas] left.  A wallet without code makes no call
    and accepts. *)
Definition Wallets : Type := nat -> Z -> Z -> Reaction.

(** The contract's account: the [wills] mapping and its ether balance. *)
Record Chain := {
  wills : gmap Z Will;
  balance : Z
}.

(** What a successful frame leaves behind: the account, the value sent out
    and the events emitted, both in order and with those of nested frames
    in their place. *)
Record Trace := {
  final : Chain;
  sent : list (Z * Z);
  emitted : list Event
}.

Definition idle (c : Chain) : Trace :=
  {| final := c; sent := []; emitted := [] |}.

(** A frame that runs out of gas fails like any other. *)
Definition OutOfGas : Failure := Revert "out of gas".

(** [msg.value] of a call: the two deposit functions are the payable
    ones. *)
Definition msgValue (c : Call) : Z :=
  match c with
  | DoDepositLocked v | DoDepositFlexible v => v
  | _ => 0
  end.

Section Frame.

(** A call into the contract one frame deeper, the reactions of the
    wallets at this depth, and [block.timestamp]. *)
Variable nested : Chain -> Z -> Call -> Result Trace.
Variable reaction : Z -> Z -> Reaction.
Variable now : Z.

(** The calls a wallet makes while it holds control; a failed one is
    rolled back and the wallet goes on. *)
Fixpoint recall (who : Z) (calls : list Call) (c : Chain) : Trace :=
  match calls with
  | [] => idle c
  | call :: rest =>
      match nested c who call with
      | Ok tr =>
          let tr' := recall who rest (final tr) in
          {| final := final tr'; sent := sent tr ++ sent tr';
             emitted := emitted tr ++ emitted tr' |}
      | Fail _ => recall who rest c
      end
  end.

(** [w.call{value: v}]: fails when the contract holds less than [v] or
    the wallet does not accept; otherwise the value leaves and the wallet
    runs. *)
Definition send (w v : Z) (c : Chain) : option Trace :=
  if v <=? balance c then
    let r := reaction w v in
    if accepted r then
      let tr := recall w (callbacks r)
                  {| wills := wills c; balance := balance c - v |} in
      Some {| final := final tr; sent := (w, v) :: sent tr;
              emitted := emitted tr |}
    else None
  else None.

(** The payout loop of [executeWill] from index [i].  [will] is a storage
    reference: the array is read again at every turn. *)
Fixpoint payLoop (t totalFunds : Z) (gas : nat) (i : nat) (c : Chain)
  : Result Trace :=
  match gas with
  | O => Fail OutOfGas
  | S gas' =>
      match beneficiaries (getWill (wills c) t) !! i with
      | None => Ok (idle c)
      | Some beneficiary =>
          p ← checked_mul totalFunds (share beneficiary);
          let amount := p / 100 in
          if 0 <? amount then
            match send (wallet beneficiary) amount c with
            | Some tr =>
                tr' ← payLoop t totalFunds gas' (S i) (final tr);
                Ok {| final := final tr'; sent := sent tr ++ sent tr';
                      emitted := emitted tr ++ emitted tr' |}
            | None => Fail (Revert "Transfer failed")
            end
          else payLoop t totalFunds gas' (S i) c
      end
  end.

(** [executed] and the vaults are written after the loop, on the will as
    storage then holds it. *)
Definition executeWill (gas : nat) (c : Chain) (who t : Z) : Result Trace :=
  let s := wills c in
  willExists s t;;
  willNotExecuted s t;;
  let will := getWill s t in
  let currentTime := now in
  deadlineTime ← checked_add (lastCheckIn will) (checkInPeriod will);
  disputeEndTime ← checked_add deadlineTime (disputePeriod will);
  require (deadlineTime <? currentTime) "Check-in period has not expired";;
  (if currentTime <=? disputeEndTime
   then require (_isGuardianOfWill s who t)
          "Only guardian can execute during dispute period"
   else require (_isBeneficiaryOfWill s who t)
          "Only beneficiaries can execute will");;
  totalFunds ← checked_add (lockedVault will) (flexibleVault will);
  require (0 <? totalFunds) "No funds to distribute";;
  total ← _getTotalShares s t;
  require (total =? 100) "Total beneficiary shares must equal 100%";;
  tr ← payLoop t totalFunds gas 0 c;
  let s' := wills (final tr) in
  Ok {| final := {| wills := <[t := settled (getWill s' t)]> s';
                    balance := balance (final tr) |};
        sent := sent tr;
        emitted := emitted tr ++ [WillExecuted t totalFunds] |}.

(** The vault is lowered before the value is sent. *)
Definition withdrawFlexible (c : Chain) (who amount : Z) : Result Trace :=
  let s := wills c in
  willExists s who;;
  willNotExecuted s who;;
  require (0 <? amount) "Must withdraw positive amount";;
  let w := getWill s who in
  require (amount <=? flexibleVault w) "Insufficient flexible vault balance";;
  v ← checked_sub (flexibleVault w) amount;
  match send who amount
          {| wills := <[who := setFlexible w v]> s; balance := balance c |} with
  | Some tr =>
      Ok {| final := final tr; sent := sent tr;
            emitted := emitted tr ++ [WithdrawFlexible who amount] |}
  | None => Fail (Revert "Withdrawal failed")
  end.

End Frame.

(** One call into the contract by [who].  The functions that send no value
    run as in [Contract]; the two that do hand control to the wallets. *)
Fixpoint enter (react : Wallets) (now : Z) (gas : nat) (c : Chain) (who : Z)
    (call : Call) : Result Trace :=
  match gas with
  | O => Fail OutOfGas
  | S gas' =>
      match call with
      | ExecuteWill t =>
          executeWill (enter react now gas') (react gas') now gas' c who t
      | DoWithdrawFlexible amount =>
          withdrawFlexible (enter react now gas') (react gas') c who amount
      | _ =>
          rc ← exec (wills c) (envOf who now) call;
          Ok {| final := {| wills := post rc;
                            balance := balance c + msgValue call |};
                sent := transfers rc; emitted := logs rc |}
      end
  end.

(** The account after a transaction: a failed one changes nothing. *)
Definition settle (c : Chain) (r : Result Trace) : Chain :=
  match r with
  | Ok tr => final tr
  | Fail _ => c
  end.

(** Wallets without code. *)
Definition plain : Wallets :=
  fun _ _ _ => {| callbacks := []; accepted := true |}.

(** Wallets that never call back. *)
Definition quiet (react : Wallets) : Prop :=
  forall gas w v, callbacks (react gas w v) = [].

(** *** The scenario with a second testator and a wallet that calls back

    After the scenario's five transactions [mallory] opens a will of her
    own and locks 20 units, so the contract holds 35.  [bob]'s wallet is a
    contract: on receiving value with [9] units of gas left it calls
    [executeWill(alice)] once more. *)

Definition history : list (Z * Z * Call) :=
  [ (alice, 1000, CreateWill 2592000 604800);
    (alice, 1010, AddBeneficiary bob 60 false);
    (alice, 1020, AddBeneficiary gina 40 true);
    (alice, 1030, DoDepositLocked 10);
    (alice, 1040, DoDepositFlexible 5);
    (mallory, 2000, CreateWill 86400 3600);
    (mallory, 2010, DoDepositLocked 20) ].

Definition pooled : Chain :=
  fold_left
    (fun c tx => settle c (enter plain tx.1.2 10 c tx.1.1 tx.2))
    history {| wills := ∅; balance := 0 |}.

Definition greedy : Wallets :=
  fun gas w v =>
    if (w =? bob) && (gas =? 9)%nat
    then {| callbacks := [ExecuteWill alice]; accepted := true |}
    else {| callbacks := []; accepted := true |}.

End Reentrancy.

(** * The indexer: SQLite replica and event dispatch *)

Module Projection.

(** ** Strings *)

(** [String.prototype.toLowerCase] on ASCII text, which is what address
    strings are. *)
Definition lowerAscii (c : ascii) : ascii :=
  let n := nat_of_ascii c in
  if (65 <=? n)%nat && (n <=? 90)%nat then ascii_of_nat (n + 32) else c.

Fixpoint toLowerCase (s : string) : string :=
  match s with
  | EmptyString => EmptyString
  | String c rest => String (lowerAscii c) (toLowerCase rest)
  end.

(** ** Tables

    Each table is a finite map from its PRIMARY KEY or UNIQUE columns to
    the remaining columns.  [balance] is TEXT holding the decimal of a
    BigInt and is kept as the integer it denotes; INTEGER columns written
    through [Number(...)] are kept as integers (exact below 2^53). *)

Record WillRow := {
  testator : string;
  guardian : option string;        (* NULL until a guardian is recorded *)
  checkInPeriod : Z;
  disputePeriod : Z;
  lastCheckIn : Z;
  executed : Z;                    (* INTEGER DEFAULT 0 *)
  createdAt : Z;
  updatedAt : Z
}.

Record BeneficiaryRow := {
  beneficiaryId : Z;               (* id INTEGER PRIMARY KEY AUTOINCREMENT *)
  share : Z
}.

Inductive VaultType := locked | flexible.

Record DocumentRow := {
  documentId : Z;                  (* id INTEGER PRIMARY KEY AUTOINCREMENT *)
  fileName : string;
  documentType : string;
  uploadedAt : Z
}.

#[global] Instance VaultType_eq_dec : EqDecision VaultType.
Proof. solve_decision. Defined.

#[global] Instance VaultType_countable : Countable VaultType.
Proof.
  refine (inj_countable' (fun v => match v with locked => true | flexible => false end)
            (fun b : bool => if b then locked else flexible) _).
  intros []; reflexivity.
Defined.

#[global] Instance WillRow_eq_dec : EqDecision WillRow.
Proof. solve_decision. Defined.
#[global] Instance BeneficiaryRow_eq_dec : EqDecision BeneficiaryRow.
Proof. solve_decision. Defined.
#[global] Instance DocumentRow_eq_dec : EqDecision DocumentRow.
Proof. solve_decision. Defined.

Record DB := {
  Wills : gmap string WillRow;                         (* key: willId *)
  Beneficiaries : gmap (string * string) BeneficiaryRow; (* (willId, beneficiary) *)
  beneficiarySeq : Z;                                  (* largest id handed out *)
  Vaults : gmap (string * VaultType) Z;                (* (willId, vaultType) *)
  Documents : gmap (string * string) DocumentRow;      (* (willId, ipfsHash) *)
  documentSeq : Z
}.

(** The replica after [createTables] on a new file. *)
Definition fresh : DB :=
  {| Wills := ∅; Beneficiaries := ∅; beneficiarySeq := 0; Vaults := ∅;
     Documents := ∅; documentSeq := 0 |}.

Definition setWills (db : DB) (w : gmap string WillRow) : DB :=
  {| Wills := w; Beneficiaries := Beneficiaries db;
     beneficiarySeq := beneficiarySeq db; Vaults := Vaults db;
     Documents := Documents db; documentSeq := documentSeq db |}.

Definition setVaults (db : DB) (v : gmap (string * VaultType) Z) : DB :=
  {| Wills := Wills db; Beneficiaries := Beneficiaries db;
     beneficiarySeq := beneficiarySeq db; Vaults := v;
     Documents := Documents db; documentSeq := documentSeq db |}.

Definition setBeneficiaries (db : DB) (b : gmap (string * string) BeneficiaryRow)
    (seq : Z) : DB :=
  {| Wills := Wills db; Beneficiaries := b; beneficiarySeq := seq;
     Vaults := Vaults db; Documents := Documents db;
     documentSeq := documentSeq db |}.

Definition setDocuments (db : DB) (d : gmap (string * string) DocumentRow)
    (seq : Z) : DB :=
  {| Wills := Wills db; Beneficiaries := Beneficiaries db;
     beneficiarySeq := beneficiarySeq db; Vaults := Vaults db;
     Documents := d; documentSeq := seq |}.

(** Row updates of the UPDATE statements. *)
Definition withCheckIn (ts now : Z) (r : WillRow) : WillRow :=
  {| testator := testator r; guardian := guardian r;
     checkInPeriod := checkInPeriod r; disputePeriod := disputePeriod r;
     lastCheckIn := ts; executed := executed r;
     createdAt := createdAt r; updatedAt := now |}.

Definition withExecuted (now : Z) (r : WillRow) : WillRow :=
  {| testator := testator r; guardian := guardian r;
     checkInPeriod := checkInPeriod r; disputePeriod := disputePeriod r;
     lastCheckIn := lastCheckIn r; executed := 1;
     createdAt := createdAt r; updatedAt := now |}.

Definition withGuardian (g : option string) (now : Z) (r : WillRow) : WillRow :=
  {| testator := testator r; guardian := g;
     checkInPeriod := checkInPeriod r; disputePeriod := disputePeriod r;
     lastCheckIn := lastCheckIn r; executed := executed r;
     createdAt := createdAt r; updatedAt := now |}.

Definition withShare (sh : Z) (r : BeneficiaryRow) : BeneficiaryRow :=
  {| beneficiaryId := beneficiaryId r; share := sh |}.

(** ** Numbers

    [Number(x)] for a BigInt [x], which is how the indexer passes periods,
    timestamps and shares to db.js: the nearest IEEE 754 double, ties to
    the even significand.  Below 2^53 it is [x]; a uint256 is far below
    the overflow threshold of doubles. *)
Definition Number (x : Z) : Z :=
  let a := Z.abs x in
  if a <? 2 ^ 53 then x
  else
    let e := Z.log2 a - 52 in
    let q := a / 2 ^ e in
    let r := a mod 2 ^ e in
    let half := 2 ^ (e - 1) in
    let q' := if r <? half then q
              else if half <? r then q + 1
              else if Z.even q then q else q + 1 in
    Z.sgn x * (q' * 2 ^ e).

(** ** db.js

    [now] is [Math.floor(Date.now() / 1000)] as read by the call.  With
    [foreign_keys = ON], an INSERT into a child table whose [willId] is not
    in [Wills] throws; [None] is that exception, raised before anything was
    written. *)

(** [INSERT OR IGNORE INTO Vaults] for both vault types. *)
Definition insertVaultOrIgnore (willId : string) (vt : VaultType)
    (v : gmap (string * VaultType) Z) : gmap (string * VaultType) Z :=
  match v !! (willId, vt) with
  | Some _ => v
  | None => <[(willId, vt) := 0]> v
  end.

Definition initializeVaults (willId : string) (db : DB) : DB :=
  setVaults db
    (insertVaultOrIgnore willId flexible
       (insertVaultOrIgnore willId locked (Vaults db))).

(** [INSERT OR REPLACE INTO Wills]: the row is replaced as a whole, so
    [guardian] returns to NULL and [executed] to its default 0. *)
Definition createWill (now : Z) (t : string) (cip dp : Z) (db : DB) : option DB :=
  let willId := toLowerCase t in
  let row := {| testator := toLowerCase t; guardian := None;
                checkInPeriod := cip; disputePeriod := dp; lastCheckIn := now;
                executed := 0; createdAt := now; updatedAt := now |} in
  Some (initializeVaults willId (setWills db (<[willId := row]> (Wills db)))).

(** [UPDATE Wills SET lastCheckIn = ?, updatedAt = ? WHERE testator = ?] *)
Definition updateLastCheckIn (now : Z) (t : string) (ts : Z) (db : DB) : option DB :=
  Some (setWills db
          ((fun r => if decide (testator r = toLowerCase t)
                     then withCheckIn ts now r else r) <$> Wills db)).

(** [UPDATE Wills SET executed = 1, updatedAt = ? WHERE testator = ?] *)
Definition executeWill (now : Z) (t : string) (db : DB) : option DB :=
  Some (setWills db
          ((fun r => if decide (testator r = toLowerCase t)
                     then withExecuted now r else r) <$> Wills db)).

(** [UPDATE Wills SET guardian = ?, updatedAt = ? WHERE willId = ?] *)
Definition updateGuardian (now : Z) (willId g : string) (db : DB) : DB :=
  setWills db (alter (withGuardian (Some (toLowerCase g)) now) willId (Wills db)).

(** [INSERT OR REPLACE INTO Beneficiaries]: a row with the same
    [(willId, beneficiary)] is deleted and the new one takes the next id. *)
Definition addBeneficiary (now : Z) (t b : string) (sh : Z) (isGuardian : bool)
    (db : DB) : option DB :=
  let willId := toLowerCase t in
  match Wills db !! willId with
  | None => None
  | Some _ =>
      let id := beneficiarySeq db + 1 in
      let db1 :=
        setBeneficiaries db
          (<[(willId, toLowerCase b) := {| beneficiaryId := id; share := sh |}]>
             (Beneficiaries db)) id in
      Some (if isGuardian then updateGuardian now willId b db1 else db1)
  end.

(** [DELETE FROM Beneficiaries], then
    [UPDATE Wills SET guardian = NULL, updatedAt = ? WHERE willId = ? AND guardian = ?] *)
Definition removeBeneficiary (now : Z) (t b : string) (db : DB) : option DB :=
  let willId := toLowerCase t in
  let db1 :=
    setBeneficiaries db (delete (willId, toLowerCase b) (Beneficiaries db))
      (beneficiarySeq db) in
  Some (setWills db1
          (alter (fun r => if decide (guardian r = Some (toLowerCase b))
                           then withGuardian None now r else r)
             willId (Wills db1))).

(** [UPDATE Beneficiaries SET share = ? WHERE willId = ? AND beneficiary = ?] *)
Definition updateBeneficiary (now : Z) (t b : string) (newShare : Z)
    (isGuardian : bool) (db : DB) : option DB :=
  let willId := toLowerCase t in
  let db1 :=
    setBeneficiaries db
      (alter (withShare newShare) (willId, toLowerCase b) (Beneficiaries db))
      (beneficiarySeq db) in
  Some (if isGuardian then updateGuardian now willId b db1 else db1).

(** Read the balance (absent reads as 0), add or subtract, clamp at 0,
    [INSERT OR REPLACE INTO Vaults]. *)
Definition updateVaultBalance (t : string) (vt : VaultType) (amount : Z)
    (isDeposit : bool) (db : DB) : option DB :=
  let willId := toLowerCase t in
  let currentBalance := default 0 (Vaults db !! (willId, vt)) in
  let changeAmount := amount in
  let newBalance :=
    if isDeposit then currentBalance + changeAmount
    else currentBalance - changeAmount in
  let finalBalance := if newBalance <? 0 then 0 else newBalance in
  match Wills db !! willId with
  | None => None
  | Some _ => Some (setVaults db (<[(willId, vt) := finalBalance]> (Vaults db)))
  end.

(** [INSERT OR REPLACE INTO Documents] *)
Definition addDocument (t ipfsHash name type : string) (uploaded : Z) (db : DB)
  : option DB :=
  let willId := toLowerCase t in
  match Wills db !! willId with
  | None => None
  | Some _ =>
      let id := documentSeq db + 1 in
      Some (setDocuments db
              (<[(willId, ipfsHash) :=
                   {| documentId := id; fileName := name; documentType := type;
                      uploadedAt := uploaded |}]> (Documents db)) id)
  end.

(** [DELETE FROM Documents WHERE willId = ? AND ipfsHash = ?] *)
Definition removeDocument (t ipfsHash : string) (db : DB) : option DB :=
  Some (setDocuments db (delete (toLowerCase t, ipfsHash) (Documents db))
          (documentSeq db)).

(** ** indexer.js *)

(** An event as ethers hands it to the indexer.  [blockTimestamp] of
    [DocumentAdded] is the outcome of the block lookup ([None]: the lookup
    failed). *)
Inductive Event :=
| WillCreated (t : string) (checkInPeriod disputePeriod : Z)
| CheckIn (t : string) (timestamp : Z)
| WillExecuted (t : string) (totalDistributed : Z)
| BeneficiaryAdded (t b : string) (share : Z) (isGuardian : bool)
| BeneficiaryRemoved (t b : string)
| BeneficiaryUpdated (t b : string) (newShare : Z) (isGuardian : bool)
| DepositLocked (t : string) (amount : Z)
| DepositFlexible (t : string) (amount : Z)
| WithdrawFlexible (t : string) (amount : Z)
| DisputeStarted (t : string) (disputeDeadline : Z)
| DocumentAdded (t ipfsHash fileName documentType : string)
    (blockTimestamp : option Z)
| DocumentRemoved (t ipfsHash : string)
| Unknown (name : string).

(** [try { ... } catch (error) { console.error(...) }]: a throwing handler
    leaves the replica as it found it. *)
Definition caught (db : DB) (r : option DB) : DB := default db r.

(** The [contract.on(...)] listeners, as far as they run when the event
    is emitted to them.  The [DocumentAdded] listener only starts the
    block lookup; what it stores is stored by [onBlock], later. *)
Definition onEvent (now : Z) (ev : Event) (db : DB) : DB :=
  match ev with
  | WillCreated t cip dp => caught db (createWill now t (Number cip) (Number dp) db)
  | CheckIn t ts => caught db (updateLastCheckIn now t (Number ts) db)
  | WillExecuted t _ => caught db (executeWill now t db)
  | BeneficiaryAdded t b sh g =>
      caught db (addBeneficiary now t b (Number sh) g db)
  | BeneficiaryRemoved t b => caught db (removeBeneficiary now t b db)
  | BeneficiaryUpdated t b sh g =>
      caught db (updateBeneficiary now t b (Number sh) g db)
  | DepositLocked t amount => caught db (updateVaultBalance t locked amount true db)
  | DepositFlexible t amount =>
      caught db (updateVaultBalance t flexible amount true db)
  | WithdrawFlexible t amount =>
      caught db (updateVaultBalance t flexible amount false db)
  | DisputeStarted _ _ => db
  | DocumentAdded _ _ _ _ _ => db
  | DocumentRemoved t h => caught db (removeDocument t h db)
  | Unknown _ => db
  end.

(** The indexer process after a turn of its event loop: still running on
    the database, or ended by an unhandled promise rejection, the
    database file left as it was. *)
Inductive Outcome :=
| Running (db : DB)
| Exited (db : DB).

Definition written (o : Outcome) : DB :=
  match o with Running db | Exited db => db end.

Definition exited (o : Outcome) : bool :=
  match o with Running _ => false | Exited _ => true end.

(** The promise chain the [DocumentAdded] listener leaves behind,
    [event.getBlock().then(...).catch(...)], run when the lookup settles.
    [.then] stores the document under the block time; when the lookup
    failed or that insert threw, [.catch] stores it under the clock
    instead.  Nothing catches what the insert inside [.catch] throws: the
    rejection is unhandled and ends the process. *)
Definition onBlock (now : Z) (ev : Event) (db : DB) : Outcome :=
  match ev with
  | DocumentAdded t h name type blockTs =>
      let fallback :=
        match addDocument t h name type now db with
        | Some db' => Running db'
        | None => Exited db
        end in
      match blockTs with
      | Some ts =>
          match addDocument t h name type ts db with
          | Some db' => Running db'
          | None => fallback
          end
      | None => fallback
      end
  | _ => Running db
  end.

(** [processHistoricalEvent], the backfill path of [syncHistoricalEvents]:
    the block lookup is awaited inside the [try], so a failed lookup or a
    throwing insert is caught and the event stores nothing. *)
Definition processHistoricalEvent (now : Z) (ev : Event) (db : DB) : DB :=
  match ev with
  | WillCreated t cip dp => caught db (createWill now t (Number cip) (Number dp) db)
  | CheckIn t ts => caught db (updateLastCheckIn now t (Number ts) db)
  | WillExecuted t _ => caught db (executeWill now t db)
  | BeneficiaryAdded t b sh g =>
      caught db (addBeneficiary now t b (Number sh) g db)
  | BeneficiaryRemoved t b => caught db (removeBeneficiary now t b db)
  | BeneficiaryUpdated t b sh g =>
      caught db (updateBeneficiary now t b (Number sh) g db)
  | DepositLocked t amount => caught db (updateVaultBalance t locked amount true db)
  | DepositFlexible t amount =>
      caught db (updateVaultBalance t flexible amount true db)
  | WithdrawFlexible t amount =>
      caught db (updateVaultBalance t flexible amount false db)
  | DisputeStarted _ _ => db
  | DocumentAdded t h name type (Some blockTs) =>
      caught db (addDocument t h name type blockTs db)
  | DocumentAdded _ _ _ _ None => db
  | DocumentRemoved t h => caught db (removeDocument t h db)
  | Unknown _ => db
  end.

(** What the event loop of the indexer handles, one turn at a time: an
    event emitted to its listener, the settling of the block lookup that
    the [DocumentAdded] listener started for an event, or an event of the
    backfill.  Lookups settle when they settle: other turns may come
    between a [DocumentAdded] and its [Settled]. *)
Inductive Turn :=
| Emitted (ev : Event)
| Settled (ev : Event)
| Backfilled (ev : Event).

Definition onTurn (now : Z) (turn : Turn) (db : DB) : Outcome :=
  match turn with
  | Emitted ev => Running (onEvent now ev db)
  | Settled ev => onBlock now ev db
  | Backfilled ev => Running (processHistoricalEvent now ev db)
  end.

(** A run of the process over the turns that reach it, each with the
    clock reading at which it is handled.  After the process has ended
    nothing is handled. *)
Fixpoint run (turns : list (Z * Turn)) (db : DB) : Outcome :=
  match turns with
  | [] => Running db
  | d :: rest =>
      match onTurn d.1 d.2 db with
      | Running db' => run rest db'
      | Exited db' => Exited db'
      end
  end.

(** A delivery is something handled together with the clock reading at
    which its handler runs; a handler that cannot end the process is
    replayed as a fold. *)
Definition replay {A} (handler : Z -> A -> DB -> DB) (deliveries : list (Z * A))
    (db : DB) : DB :=
  fold_left (fun acc d => handler d.1 d.2 acc) deliveries db.

(** The live path with every block lookup settling at once, before the
    next event is handled; and the backfill path. *)
Definition promptly (deliveries : list (Z * Event)) : list (Z * Turn) :=
  flat_map (fun d => [(d.1, Emitted d.2); (d.1, Settled d.2)]) deliveries.

Definition backfilled (deliveries : list (Z * Event)) : list (Z * Turn) :=
  map (fun d => (d.1, Backfilled d.2)) deliveries.

(** ** Reading the replica *)

(** The balance as [updateVaultBalance] and the API read it. *)
Definition vaultBalance (db : DB) (willId : string) (vt : VaultType) : Z :=
  default 0 (Vaults db !! (willId, vt)).

(** A will row without the columns stamped from the indexer's clock. *)
Definition unstamped (r : WillRow) : WillRow :=
  {| testator := testator r; guardian := guardian r;
     checkInPeriod := checkInPeriod r; disputePeriod := disputePeriod r;
     lastCheckIn := 0; executed := executed r; createdAt := 0; updatedAt := 0 |}.

(** The replica without [lastCheckIn], [createdAt] and [updatedAt]. *)
Definition timeless (db : DB) : DB := setWills db (unstamped <$> Wills db).

Definition documentMeta (r : DocumentRow) : string * string * Z :=
  (fileName r, documentType r, uploadedAt r).

(** What the replica says about wills, shares and documents, without
    clock stamps and surrogate row ids. *)
Record Ledger := {
  ledgerWills : gmap string WillRow;
  ledgerShares : gmap (string * string) Z;
  ledgerDocuments : gmap (string * string) (string * string * Z)
}.

Definition ledger (db : DB) : Ledger :=
  {| ledgerWills := unstamped <$> Wills db;
     ledgerShares := share <$> Beneficiaries db;
     ledgerDocuments := documentMeta <$> Documents db |}.

(** The will an event is addressed to. *)
Definition willOf (ev : Event) : option string :=
  match ev with
  | WillCreated t _ _ | CheckIn t _ | WillExecuted t _
  | BeneficiaryAdded t _ _ _ | BeneficiaryRemoved t _
  | BeneficiaryUpdated t _ _ _ | DepositLocked t _ | DepositFlexible t _
  | WithdrawFlexible t _ | DocumentAdded t _ _ _ _ | DocumentRemoved t _ =>
      Some (toLowerCase t)
  | DisputeStarted _ _ | Unknown _ => None
  end.

Definition isWillCreated (ev : Event) : bool :=
  match ev with WillCreated _ _ _ => true | _ => false end.

(** Events arrive in emission order when every event addressed to a will
    comes after that will's [WillCreated]. *)
Fixpoint inEmissionOrder (created : gset string) (evs : list Event) : Prop :=
  match evs with
  | [] => True
  | ev :: rest =>
      match willOf ev with
      | Some w =>
          (isWillCreated ev = true \/ w ∈ created) /\
          inEmissionOrder (if isWillCreated ev then {[w]} ∪ created else created)
            rest
      | None => inEmissionOrder created rest
      end
  end.

(** The block lookup of every [DocumentAdded] succeeded. *)
Definition blockKnown (ev : Event) : Prop :=
  match ev with
  | DocumentAdded _ _ _ _ None => False
  | _ => True
  end.

(** Every row of a child table refers to a will (what the FOREIGN KEY
    clauses maintain). *)
Definition foreignKeysHold (db : DB) : Prop :=
  (forall w b r, Beneficiaries db !! (w, b) = Some r -> is_Some (Wills db !! w)) /\
  (forall w vt v, Vaults db !! (w, vt) = Some v -> is_Some (Wills db !! w)) /\
  (forall w h r, Documents db !! (w, h) = Some r -> is_Some (Wills db !! w)).

(** ** The replica table by table

    What an event, handled to the end, does to each table, given that
    table and whether the will the event is addressed to has a row
    ([known]). *)

Definition known (db : DB) (ev : Event) : bool :=
  match willOf ev with
  | Some w => bool_decide (is_Some (Wills db !! w))
  | None => false
  end.

Definition clampBalance (newBalance : Z) : Z :=
  if newBalance <? 0 then 0 else newBalance.

Definition willsAfter (now : Z) (ev : Event) (W : gmap string WillRow)
  : gmap string WillRow :=
  match ev with
  | WillCreated t cip dp =>
      <[toLowerCase t :=
          {| testator := toLowerCase t; guardian := None;
             checkInPeriod := Number cip; disputePeriod := Number dp;
             lastCheckIn := now;
             executed := 0; createdAt := now; updatedAt := now |}]> W
  | CheckIn t ts =>
      (fun r => if decide (testator r = toLowerCase t)
                then withCheckIn (Number ts) now r else r) <$> W
  | WillExecuted t _ =>
      (fun r => if decide (testator r = toLowerCase t)
                then withExecuted now r else r) <$> W
  | BeneficiaryAdded t b _ true | BeneficiaryUpdated t b _ true =>
      alter (withGuardian (Some (toLowerCase b)) now) (toLowerCase t) W
  | BeneficiaryRemoved t b =>
      alter (fun r => if decide (guardian r = Some (toLowerCase b))
                      then withGuardian None now r else r)
        (toLowerCase t) W
  | _ => W
  end.

Definition beneficiariesAfter (ev : Event) (k : bool)
    (B : gmap (string * string) BeneficiaryRow) (seq : Z)
  : gmap (string * string) BeneficiaryRow * Z :=
  match ev with
  | BeneficiaryAdded t b sh _ =>
      if k
      then (<[(toLowerCase t, toLowerCase b) :=
                {| beneficiaryId := seq + 1; share := Number sh |}]> B, seq + 1)
      else (B, seq)
  | BeneficiaryRemoved t b => (delete (toLowerCase t, toLowerCase b) B, seq)
  | BeneficiaryUpdated t b sh _ =>
      (alter (withShare (Number sh)) (toLowerCase t, toLowerCase b) B, seq)
  | _ => (B, seq)
  end.

Definition vaultsAfter (ev : Event) (k : bool) (V : gmap (string * VaultType) Z)
  : gmap (string * VaultType) Z :=
  match ev with
  | WillCreated t _ _ =>
      insertVaultOrIgnore (toLowerCase t) flexible
        (insertVaultOrIgnore (toLowerCase t) locked V)
  | DepositLocked t a =>
      if k
      then <[(toLowerCase t, locked) :=
               clampBalance (default 0 (V !! (toLowerCase t, locked)) + a)]> V
      else V
  | DepositFlexible t a =>
      if k
      then <[(toLowerCase t, flexible) :=
               clampBalance (default 0 (V !! (toLowerCase t, flexible)) + a)]> V
      else V
  | WithdrawFlexible t a =>
      if k
      then <[(toLowerCase t, flexible) :=
               clampBalance (default 0 (V !! (toLowerCase t, flexible)) - a)]> V
      else V
  | _ => V
  end.

Definition documentsAfter (now : Z) (ev : Event) (k : bool)
    (D : gmap (string * string) DocumentRow) (seq : Z)
  : gmap (string * string) DocumentRow * Z :=
  match ev with
  | DocumentAdded t h name type ts =>
      if k
      then (<[(toLowerCase t, h) :=
                {| documentId := seq + 1; fileName := name;
                   documentType := type; uploadedAt := default now ts |}]> D,
            seq + 1)
      else (D, seq)
  | DocumentRemoved t h => (delete (toLowerCase t, h) D, seq)
  | _ => (D, seq)
  end.

(** The update of an event handled to the end, all tables together. *)
Definition applied (now : Z) (ev : Event) (db : DB) : DB :=
  {| Wills := willsAfter now ev (Wills db);
     Beneficiaries :=
       (beneficiariesAfter ev (known db ev) (Beneficiaries db)
          (beneficiarySeq db)).1;
     beneficiarySeq :=
       (beneficiariesAfter ev (known db ev) (Beneficiaries db)
          (beneficiarySeq db)).2;
     Vaults := vaultsAfter ev (known db ev) (Vaults db);
     Documents :=
       (documentsAfter now ev (known db ev) (Documents db) (documentSeq db)).1;
     documentSeq :=
       (documentsAfter now ev (known db ev) (Documents db) (documentSeq db)).2 |}.

Definition isDocumentAdded (ev : Event) : bool :=
  match ev with DocumentAdded _ _ _ _ _ => true | _ => false end.

(** The event whose update a turn applies, when the turn does not end the
    process: a listener applies its event, except that [DocumentAdded] is
    applied when its lookup settles; the backfill applies its event,
    except a [DocumentAdded] whose lookup failed.  The other turns store
    nothing. *)
Definition effect (turn : Turn) : option Event :=
  match turn with
  | Emitted ev => if isDocumentAdded ev then None else Some ev
  | Settled ev => if isDocumentAdded ev then Some ev else None
  | Backfilled ev =>
      match ev with
      | DocumentAdded _ _ _ _ None => None
      | _ => Some ev
      end
  end.

(** The updates a sequence of turns applies, in order, each with the
    clock reading of its turn. *)
Definition work (turns : list (Z * Turn)) : list (Z * Event) :=
  omap (fun d => (fun ev => (d.1, ev)) <$> effect d.2) turns.

(** The will row an event leaves under one key, clock stamps included. *)
Definition rowAfter (now : Z) (ev : Event) (w : string) (x : option WillRow)
  : option WillRow :=
  match ev with
  | WillCreated t cip dp =>
      if decide (toLowerCase t = w)
      then Some {| testator := toLowerCase t; guardian := None;
                   checkInPeriod := Number cip; disputePeriod := Number dp;
                   lastCheckIn := now;
                   executed := 0; createdAt := now; updatedAt := now |}
      else x
  | CheckIn t ts =>
      (fun r => if decide (testator r = toLowerCase t)
                then withCheckIn (Number ts) now r else r) <$> x
  | WillExecuted t _ =>
      (fun r => if decide (testator r = toLowerCase t)
                then withExecuted now r else r) <$> x
  | BeneficiaryAdded t b _ true | BeneficiaryUpdated t b _ true =>
      if decide (toLowerCase t = w)
      then withGuardian (Some (toLowerCase b)) now <$> x else x
  | BeneficiaryRemoved t b =>
      if decide (toLowerCase t = w)
      then (fun r => if decide (guardian r = Some (toLowerCase b))
                     then withGuardian None now r else r) <$> x
      else x
  | _ => x
  end.

(** The turn that ends the process: the settling of a [DocumentAdded]
    whose will has no row. *)
Definition exits (turn : Turn) (db : DB) : bool :=
  match turn with
  | Settled ev => isDocumentAdded ev && negb (known db ev)
  | _ => false
  end.

(** The timestamp of the last [CheckIn] of a will that no later
    [WillCreated] of that will overrides, as the replica stores it. *)
Definition settlesCheckIn (w : string) (acc : option Z) (ev : Event) : option Z :=
  match ev with
  | WillCreated t _ _ => if decide (toLowerCase t = w) then None else acc
  | CheckIn t ts => if decide (toLowerCase t = w) then Some (Number ts) else acc
  | _ => acc
  end.

Definition checkedInAt (w : string) (evs : list Event) : option Z :=
  fold_left (settlesCheckIn w) evs None.

(** Two rows agree on [lastCheckIn], unless each still holds the clock
    reading of its own creation. *)
Definition sameCheckIn (r1 r2 : WillRow) : Prop :=
  lastCheckIn r1 = lastCheckIn r2 \/
  (lastCheckIn r1 = createdAt r1 /\ lastCheckIn r2 = createdAt r2).

(** The events that move the balance of one vault. *)
Definition movesVault (k : string * VaultType) (ev : Event) : bool :=
  match ev with
  | DepositLocked t _ => bool_decide ((toLowerCase t, locked) = k)
  | DepositFlexible t _ | WithdrawFlexible t _ =>
      bool_decide ((toLowerCase t, flexible) = k)
  | _ => false
  end.

(** One cell of the ledger. *)
Definition willCore (db : DB) (w : string) : option WillRow :=
  unstamped <$> Wills db !! w.

Definition shareOf (db : DB) (k : string * string) : option Z :=
  share <$> Beneficiaries db !! k.

Definition documentOf (db : DB) (k : string * string)
  : option (string * string * Z) :=
  documentMeta <$> Documents db !! k.

(** What an event does to one cell of the ledger. *)
Definition coreAfter (ev : Event) (w : string) (x : option WillRow)
  : option WillRow :=
  match ev with
  | WillCreated t cip dp =>
      if decide (toLowerCase t = w)
      then Some {| testator := toLowerCase t; guardian := None;
                   checkInPeriod := Number cip; disputePeriod := Number dp;
                   lastCheckIn := 0;
                   executed := 0; createdAt := 0; updatedAt := 0 |}
      else x
  | WillExecuted t _ =>
      (fun r => if decide (testator r = toLowerCase t)
                then withExecuted 0 r else r) <$> x
  | BeneficiaryAdded t b _ true | BeneficiaryUpdated t b _ true =>
      if decide (toLowerCase t = w)
      then withGuardian (Some (toLowerCase b)) 0 <$> x else x
  | BeneficiaryRemoved t b =>
      if decide (toLowerCase t = w)
      then (fun r => if decide (guardian r = Some (toLowerCase b))
                     then withGuardian None 0 r else r) <$> x
      else x
  | _ => x
  end.

Definition shareAfter (ev : Event) (k : bool) (key : string * string)
    (x : option Z) : option Z :=
  match ev with
  | BeneficiaryAdded t b sh _ =>
      if k then (if decide ((toLowerCase t, toLowerCase b) = key)
                 then Some (Number sh) else x)
      else x
  | BeneficiaryRemoved t b =>
      if decide ((toLowerCase t, toLowerCase b) = key) then None else x
  | BeneficiaryUpdated t b sh _ =>
      if decide ((toLowerCase t, toLowerCase b) = key)
      then (fun _ => Number sh) <$> x else x
  | _ => x
  end.

Definition documentAfter (now : Z) (ev : Event) (k : bool)
    (key : string * string) (x : option (string * string * Z))
  : option (string * string * Z) :=
  match ev with
  | DocumentAdded t h name type ts =>
      if k then (if decide ((toLowerCase t, h) = key)
                 then Some (name, type, default now ts) else x)
      else x
  | DocumentRemoved t h =>
      if decide ((toLowerCase t, h) = key) then None else x
  | _ => x
  end.

(** The events that fix a cell whatever it held before. *)
Definition createsWill (w : string) (ev : Event) : bool :=
  match ev with
  | WillCreated t _ _ => bool_decide (toLowerCase t = w)
  | _ => false
  end.

Definition fixesShare (k : string * string) (ev : Event) : bool :=
  match ev with
  | BeneficiaryAdded t b _ _ | BeneficiaryRemoved t b =>
      bool_decide ((toLowerCase t, toLowerCase b) = k)
  | _ => false
  end.

Definition fixesDocument (k : string * string) (ev : Event) : bool :=
  match ev with
  | DocumentAdded t h _ _ _ | DocumentRemoved t h =>
      bool_decide ((toLowerCase t, h) = k)
  | _ => false
  end.

(** *** Sample deliveries *)

Definition addrA : string := "0xAbCdEf0123456789aBcDeF0123456789abcdef01".
Definition addrB : string := "0x1111111111111111111111111111111111111111".

Definition sampleEvents : list Event :=
  [WillCreated addrA 2592000 604800; DepositLocked addrA 5].

Definition deliveredAt (now : Z) (evs : list Event) : list (Z * Event) :=
  map (fun ev => (now, ev)) evs.

Definition flexibleEvents : list Event :=
  [WillCreated addrA 2592000 604800; DepositFlexible addrA 5].

Definition flexibleReplica : DB :=
  replay onEvent (deliveredAt 1000 flexibleEvents) fresh.

(** A will with a guardian, a check-in, a document and an execution. *)
Definition fullEvents : list Event :=
  [WillCreated addrA 2592000 604800;
   BeneficiaryAdded addrA addrB 60 true;
   DepositLocked addrA 5;
   CheckIn addrA 1500;
   DocumentAdded addrA "QmYwAPJzv5CZsnA625s3Xf2nemtYgPpHdWEz79ojWnPbdG"
     "will.pdf" "testament" (Some 1600);
   BeneficiaryUpdated addrA addrB 100 false;
   WillExecuted addrA 5].

(** *** Shape of a replica filled by the handlers *)

(** Every row of [Wills] carries its key in [testator]: [createWill]
    writes the same lower-cased address to both columns. *)
Definition keyed (db : DB) : Prop :=
  forall k r, Wills db !! k = Some r -> testator r = k.

(** Both vault rows exist for every will, and no stored balance is
    negative. *)
Definition vaultsInitialised (db : DB) : Prop :=
  (forall w, is_Some (Wills db !! w) ->
     is_Some (Vaults db !! (w, locked)) /\ is_Some (Vaults db !! (w, flexible)))
  /\ (forall k v, Vaults db !! k = Some v -> 0 <= v).

(** The event with its addresses lower-cased, as a node that reports
    addresses without checksum capitals would deliver it. *)
Definition lowered (ev : Event) : Event :=
  match ev with
  | WillCreated t cip dp => WillCreated (toLowerCase t) cip dp
  | CheckIn t ts => CheckIn (toLowerCase t) ts
  | WillExecuted t total => WillExecuted (toLowerCase t) total
  | BeneficiaryAdded t b sh g =>
      BeneficiaryAdded (toLowerCase t) (toLowerCase b) sh g
  | BeneficiaryRemoved t b => BeneficiaryRemoved (toLowerCase t) (toLowerCase b)
  | BeneficiaryUpdated t b sh g =>
      BeneficiaryUpdated (toLowerCase t) (toLowerCase b) sh g
  | DepositLocked t a => DepositLocked (toLowerCase t) a
  | DepositFlexible t a => DepositFlexible (toLowerCase t) a
  | WithdrawFlexible t a => WithdrawFlexible (toLowerCase t) a
  | DisputeStarted t d => DisputeStarted (toLowerCase t) d
  | DocumentAdded t h name type ts => DocumentAdded (toLowerCase t) h name type ts
  | DocumentRemoved t h => DocumentRemoved (toLowerCase t) h
  | Unknown name => Unknown name
  end.

End Projection.

(** * The query API over the replica *)

Module Api.
Import Projection.

(** ** Validation helpers *)

Definition inRange (lo hi : nat) (c : ascii) : bool :=
  let n := nat_of_ascii c in (lo <=? n)%nat && (n <=? hi)%nat.

(** [[a-fA-F0-9]] *)
Definition isHexDigit (c : ascii) : bool :=
  inRange 97 102 c || inRange 65 70 c || inRange 48 57 c.

(** [/^0x[a-fA-F0-9]{40}$/.test(address)] *)
Definition isValidAddress (address : string) : bool :=
  match address with
  | String "0" (String "x" digits) =>
      (String.length digits =? 40)%nat
      && forallb isHexDigit (list_ascii_of_string digits)
  | _ => false
  end.

(** [[1-9A-HJ-NP-Za-km-z]] *)
Definition isBase58 (c : ascii) : bool :=
  inRange 49 57 c || inRange 65 72 c || inRange 74 78 c || inRange 80 90 c
  || inRange 97 107 c || inRange 109 122 c.

(** [[a-z2-7]] *)
Definition isBase32 (c : ascii) : bool := inRange 97 122 c || inRange 50 55 c.

(** [/^(Qm[1-9A-HJ-NP-Za-km-z]{44}|bafyb[a-z2-7]{50,})$/.test(hash)] *)
Definition isValidIpfsHash (hash : string) : bool :=
  match hash with
  | String "Q" (String "m" rest) =>
      (String.length rest =? 44)%nat
      && forallb isBase58 (list_ascii_of_string rest)
  | String "b" (String "a" (String "f" (String "y" (String "b" rest)))) =>
      (50 <=? String.length rest)%nat
      && forallb isBase32 (list_ascii_of_string rest)
  | _ => false
  end.

(** ** The store behind the routes

    A query against a store that is [Down] throws the driver's error. *)
Inductive Store :=
| Up (db : DB)
| Down (message : string).

Inductive Query (A : Type) :=
| Returned (a : A)
| Thrown (message : string).
Arguments Returned {A} a.
Arguments Thrown {A} message.

Definition query {A} (store : Store) (q : DB -> A) : Query A :=
  match store with
  | Up db => Returned (q db)
  | Down m => Thrown m
  end.

(** ** The query functions of db.js *)

Record WillDetails := {
  detailsWill : WillRow;
  detailsBeneficiaries : list (string * Z);
  detailsVaults : list (VaultType * Z);
  detailsDocuments : list (string * DocumentRow)
}.

Definition getWillsByTestator (t : string) (db : DB) : list (string * WillRow) :=
  filter (fun kr => testator kr.2 = toLowerCase t) (map_to_list (Wills db)).

(** [Wills w JOIN Beneficiaries b ON w.willId = b.willId WHERE b.beneficiary = ?] *)
Definition getWillsByBeneficiary (b : string) (db : DB)
  : list (string * WillRow * Z) :=
  omap (fun kr : string * string * BeneficiaryRow =>
          if decide (kr.1.2 = toLowerCase b)
          then (fun w => (kr.1.1, w, share kr.2)) <$> Wills db !! kr.1.1
          else None)
       (map_to_list (Beneficiaries db)).

Definition beneficiariesOf (willId : string) (db : DB) : list (string * Z) :=
  omap (fun kr : string * string * BeneficiaryRow =>
          if decide (kr.1.1 = willId) then Some (kr.1.2, share kr.2) else None)
       (map_to_list (Beneficiaries db)).

Definition getVaults (willId : string) (db : DB) : list (VaultType * Z) :=
  omap (fun kv : string * VaultType * Z =>
          if decide (kv.1.1 = toLowerCase willId) then Some (kv.1.2, kv.2)
          else None)
       (map_to_list (Vaults db)).

(** [ORDER BY uploadedAt DESC] *)
Definition newerFirst (a b : string * DocumentRow) : Prop :=
  uploadedAt b.2 <= uploadedAt a.2.

#[global] Instance newerFirst_dec : RelDecision newerFirst.
Proof. intros a b. unfold newerFirst. apply _. Defined.

Definition getDocuments (willId : string) (db : DB) : list (string * DocumentRow) :=
  merge_sort newerFirst
    (omap (fun kr : string * string * DocumentRow =>
             if decide (kr.1.1 = toLowerCase willId) then Some (kr.1.2, kr.2)
             else None)
          (map_to_list (Documents db))).

Definition getDocumentByHash (willId ipfsHash : string) (db : DB)
  : option DocumentRow :=
  Documents db !! (toLowerCase willId, ipfsHash).

Definition getWillDetails (willId : string) (db : DB) : option WillDetails :=
  match Wills db !! toLowerCase willId with
  | None => None
  | Some will =>
      Some {| detailsWill := will;
              detailsBeneficiaries := beneficiariesOf (toLowerCase willId) db;
              detailsVaults := getVaults willId db;
              detailsDocuments := getDocuments willId db |}
  end.

(** [SELECT w.willId, w.testator, w.executed, b.share ...] *)
Definition getBeneficiaryWills (b : string) (db : DB)
  : list (string * string * Z * Z) :=
  map (fun r : string * WillRow * Z => (r.1.1, testator r.1.2, executed r.1.2, r.2))
    (getWillsByBeneficiary b db).

(** ** Responses *)

Inductive Payload :=
| WillList (rows : list (string * WillRow)) (count : nat)
| WillShareList (rows : list (string * WillRow * Z)) (count : nat)
| WillDetail (details : WillDetails)
| BeneficiaryWillList (rows : list (string * string * Z * Z)) (count : nat)
| VaultBalances (willId : string) (rawData : list (VaultType * Z))
| DocumentList (willId : string) (documents : list (string * DocumentRow))
    (count : nat)
| DocumentDetail (document : DocumentRow).

Inductive Body :=
| Data (data : Payload)                              (* success: true *)
| Error (error : string) (details : option string).  (* success: false *)

Record Response := { status : Z; body : Body }.

Definition ok (p : Payload) : Response := {| status := 200; body := Data p |}.

Definition clientError (code : Z) (message : string) : Response :=
  {| status := code; body := Error message None |}.

(** [handleError]: [details] carries [error.message] only when
    [NODE_ENV === 'development']. *)
Definition handleError (development : bool) (errorMessage message : string)
  : Response :=
  {| status := 500;
     body := Error message (if development then Some errorMessage else None) |}.

(** ** Routes taking an identity parameter *)

Definition getWills (development : bool) (store : Store) (t : string) : Response :=
  if negb (isValidAddress t) then clientError 400 "Invalid testator address format"
  else match query store (getWillsByTestator t) with
       | Returned wills => ok (WillList wills (length wills))
       | Thrown m => handleError development m "Failed to fetch wills by testator"
       end.

Definition getWillsOfBeneficiary (development : bool) (store : Store) (b : string)
  : Response :=
  if negb (isValidAddress b)
  then clientError 400 "Invalid beneficiary address format"
  else match query store (getWillsByBeneficiary b) with
       | Returned wills => ok (WillShareList wills (length wills))
       | Thrown m => handleError development m "Failed to fetch wills by beneficiary"
       end.

Definition getWill (development : bool) (store : Store) (id : string) : Response :=
  if negb (isValidAddress id)
  then clientError 400 "Invalid will ID format (should be testator address)"
  else match query store (getWillDetails id) with
       | Returned None => clientError 404 "Will not found"
       | Returned (Some willDetails) => ok (WillDetail willDetails)
       | Thrown m => handleError development m "Failed to fetch will details"
       end.

Definition getBeneficiaries (development : bool) (store : Store) (b : string)
  : Response :=
  if negb (isValidAddress b)
  then clientError 400 "Invalid beneficiary address format"
  else match query store (getBeneficiaryWills b) with
       | Returned wills => ok (BeneficiaryWillList wills (length wills))
       | Thrown m => handleError development m "Failed to fetch beneficiary wills"
       end.

Definition getVaultsRoute (development : bool) (store : Store) (willId : string)
  : Response :=
  if negb (isValidAddress willId)
  then clientError 400 "Invalid will ID format (should be testator address)"
  else match query store (getVaults willId) with
       | Returned vaults => ok (VaultBalances willId vaults)
       | Thrown m => handleError development m "Failed to fetch vault balances"
       end.

Definition getDocumentsRoute (development : bool) (store : Store) (willId : string)
  : Response :=
  if negb (isValidAddress willId)
  then clientError 400 "Invalid will ID format (should be testator address)"
  else match query store (getDocuments willId) with
       | Returned documents =>
           ok (DocumentList willId documents (length documents))
       | Thrown m => handleError development m "Failed to fetch documents"
       end.

Definition getDocumentRoute (development : bool) (store : Store)
    (willId ipfsHash : string) : Response :=
  if negb (isValidAddress willId)
  then clientError 400 "Invalid will ID format (should be testator address)"
  else if negb (isValidIpfsHash ipfsHash)
  then clientError 400 "Invalid IPFS hash format"
  else match query store (getDocumentByHash willId ipfsHash) with
       | Returned None => clientError 404 "Document not found"
       | Returned (Some document) => ok (DocumentDetail document)
       | Thrown m => handleError development m "Failed to fetch document"
       end.

(** The seven routes as one dispatcher. *)
Inductive Request :=
| GetWills (t : string)
| GetWillsOfBeneficiary (b : string)
| GetWill (id : string)
| GetBeneficiaries (b : string)
| GetVaults (willId : string)
| GetDocuments (willId : string)
| GetDocument (willId ipfsHash : string).

Definition serve (development : bool) (store : Store) (req : Request) : Response :=
  match req with
  | GetWills t => getWills development store t
  | GetWillsOfBeneficiary b => getWillsOfBeneficiary development store b
  | GetWill id => getWill development store id
  | GetBeneficiaries b => getBeneficiaries development store b
  | GetVaults willId => getVaultsRoute development store willId
  | GetDocuments willId => getDocumentsRoute development store willId
  | GetDocument willId h => getDocumentRoute development store willId h
  end.

(** The address-shaped parameter of a request. *)
Definition identity (req : Request) : string :=
  match req with
  | GetWills t => t
  | GetWillsOfBeneficiary b => b
  | GetWill id => id
  | GetBeneficiaries b => b
  | GetVaults willId => willId
  | GetDocuments willId => willId
  | GetDocument willId _ => willId
  end.

(** The routes that answer 404 for a missing resource. *)
Definition singleResource (req : Request) : bool :=
  match req with
  | GetWill _ | GetDocument _ _ => true
  | _ => false
  end.

(** No row of any table mentions the identity. *)
Definition unknownTo (db : DB) (address : string) : Prop :=
  Wills db !! toLowerCase address = None /\
  (forall k r, Wills db !! k = Some r -> testator r <> toLowerCase address) /\
  (forall w b r, Beneficiaries db !! (w, b) = Some r ->
     w <> toLowerCase address /\ b <> toLowerCase address) /\
  (forall w vt v, Vaults db !! (w, vt) = Some v -> w <> toLowerCase address) /\
  (forall w h r, Documents db !! (w, h) = Some r -> w <> toLowerCase address).

(** Every parameter of the request passes its shape validation. *)
Definition wellFormed (req : Request) : bool :=
  isValidAddress (identity req)
  && match req with
     | GetDocument _ h => isValidIpfsHash h
     | _ => true
     end.

(** A success payload that lists nothing. *)
Definition emptyPayload (p : Payload) : Prop :=
  match p with
  | WillList rows n => rows = [] /\ n = 0%nat
  | WillShareList rows n => rows = [] /\ n = 0%nat
  | BeneficiaryWillList rows n => rows = [] /\ n = 0%nat
  | VaultBalances _ raw => raw = []
  | DocumentList _ docs n => docs = [] /\ n = 0%nat
  | WillDetail _ | DocumentDetail _ => False
  end.

(** The fixed text each route passes to [handleError]. *)
Definition failureMessage (req : Request) : string :=
  match req with
  | GetWills _ => "Failed to fetch wills by testator"
  | GetWillsOfBeneficiary _ => "Failed to fetch wills by beneficiary"
  | GetWill _ => "Failed to fetch will details"
  | GetBeneficiaries _ => "Failed to fetch beneficiary wills"
  | GetVaults _ => "Failed to fetch vault balances"
  | GetDocuments _ => "Failed to fetch documents"
  | GetDocument _ _ => "Failed to fetch document"
  end.

(** The row a single-resource route looks up is not there: no will under
    the id, or no document under the will id and hash. *)
Definition missing (db : DB) (req : Request) : bool :=
  match req with
  | GetWill id =>
      match Wills db !! toLowerCase id with
      | None => true
      | Some _ => false
      end
  | GetDocument willId ipfsHash =>
      match Documents db !! (toLowerCase willId, ipfsHash) with
      | None => true
      | Some _ => false
      end
  | _ => false
  end.

Definition notFoundMessage (req : Request) : string :=
  match req with
  | GetDocument _ _ => "Document not found"
  | _ => "Will not found"
  end.

End Api.

(** * The beneficiary panel of the web client *)

Module Frontend.
Import Projection Api.

(** [canExecuteWill] of BeneficiarySection.js and utils/helpers.js.
    [executed] is the [executed] column of the listed will (truthy when
    not 0), [details] what [/will/{id}] returned for it, if loaded, and
    [now] is [Math.floor(Date.now() / 1000)].  [details.lastCheckIn || 0]
    is [details.lastCheckIn], the column being a number. *)
Definition canExecuteWill (executed : Z) (details : option WillDetails) (now : Z)
  : bool :=
  if negb (executed =? 0) then false
  else match details with
       | None => false
       | Some d =>
           let timeSinceLastCheckin := now - lastCheckIn (detailsWill d) in
           checkInPeriod (detailsWill d) <? timeSinceLastCheckin
       end.

Inductive ExecutionStatus :=
| statusExecuted
| statusLoading
| statusExecutable
| statusWaiting (timeUntilExecution : Z).

(** [getExecutionStatus] of BeneficiarySection.js, the badge next to the
    button. *)
Definition getExecutionStatus (executed : Z) (details : option WillDetails)
    (now : Z) : ExecutionStatus :=
  if negb (executed =? 0) then statusExecuted
  else match details with
       | None => statusLoading
       | Some d =>
           let timeSinceLastCheckin := now - lastCheckIn (detailsWill d) in
           let timeUntilExecution :=
             checkInPeriod (detailsWill d) - timeSinceLastCheckin in
           if timeUntilExecution <=? 0 then statusExecutable
           else statusWaiting timeUntilExecution
       end.


End Frontend.

(** * Proofs *)

(** ** Reading a successful run of the [Result] monad backwards *)

Lemma bind_Ok {A B} (m : Result A) (k : A -> Result B) (r : B) :
  m ≫= k = Ok r -> exists a, m = Ok a /\ k a = Ok r.
Proof. destruct m as [a|f]; cbn; [eauto | discriminate]. Qed.

Lemma bind_Ok_l {A B} (a : A) (k : A -> Result B) : Ok a ≫= k = k a.
Proof. reflexivity. Qed.

Lemma require_Ok c reason u : require c reason = Ok u -> c = true.
Proof. destruct c; [reflexivity | discriminate]. Qed.

Lemma require_true c reason : c = true -> require c reason = Ok tt.
Proof. intros ->. reflexivity. Qed.

Lemma require_false c reason :
  c = false -> require c reason = Fail (Revert reason).
Proof. intros ->. reflexivity. Qed.

Lemma checked_add_Ok a b c :
  checked_add a b = Ok c -> c = a + b /\ a + b <= MAX_UINT256.
Proof.
  unfold checked_add. destruct (Z.leb_spec (a + b) MAX_UINT256); [|discriminate].
  intros [= <-]. auto.
Qed.

Lemma checked_add_fits a b :
  a + b <= MAX_UINT256 -> checked_add a b = Ok (a + b).
Proof.
  intros H. unfold checked_add.
  destruct (Z.leb_spec (a + b) MAX_UINT256); [reflexivity | lia].
Qed.

Lemma checked_sub_Ok a b c : checked_sub a b = Ok c -> c = a - b /\ b <= a.
Proof.
  unfold checked_sub. destruct (Z.leb_spec b a); [|discriminate].
  intros [= <-]. auto.
Qed.

Lemma checked_sub_fits a b : b <= a -> checked_sub a b = Ok (a - b).
Proof.
  intros H. unfold checked_sub. destruct (Z.leb_spec b a); [reflexivity | lia].
Qed.

Lemma checked_mul_Ok a b c :
  checked_mul a b = Ok c -> c = a * b /\ a * b <= MAX_UINT256.
Proof.
  unfold checked_mul. destruct (Z.leb_spec (a * b) MAX_UINT256); [|discriminate].
  intros [= <-]. auto.
Qed.

Lemma checked_mul_fits a b :
  a * b <= MAX_UINT256 -> checked_mul a b = Ok (a * b).
Proof.
  intros H. unfold checked_mul.
  destruct (Z.leb_spec (a * b) MAX_UINT256); [reflexivity | lia].
Qed.

Lemma MAX_UINT256_large : 1000 <= MAX_UINT256.
Proof. unfold MAX_UINT256. lia. Qed.

(** Peel a hypothesis [... = Ok r] into the checks that passed. *)
Ltac peel :=
  repeat match goal with
  | H : _ ≫= _ = Ok _ |- _ =>
      apply bind_Ok in H; let a := fresh "a" in destruct H as (a & ? & H)
  | H : require _ _ = Ok _ |- _ => apply require_Ok in H
  | H : checked_add _ _ = Ok _ |- _ =>
      apply checked_add_Ok in H; destruct H as [-> ?]
  | H : checked_sub _ _ = Ok _ |- _ =>
      apply checked_sub_Ok in H; destruct H as [-> ?]
  | H : checked_mul _ _ = Ok _ |- _ =>
      apply checked_mul_Ok in H; destruct H as [-> ?]
  | H : Ok _ = Ok _ |- _ => injection H as H; try subst
  | H : Fail _ = Ok _ |- _ => discriminate H
  | H : Contract.willExists _ _ = Ok _ |- _ => unfold Contract.willExists in H
  | H : Contract.willNotExecuted _ _ = Ok _ |- _ =>
      unfold Contract.willNotExecuted in H
  | H : Contract.validShare _ = Ok _ |- _ => unfold Contract.validShare in H
  end.

Module ContractFacts.
Import Contract.

(** *** The scans *)

Lemma weigh_app f bs cs : weigh f (bs ++ cs) = weigh f bs + weigh f cs.
Proof. induction bs as [|b bs IH]; cbn; [reflexivity | rewrite IH; lia]. Qed.

Lemma weigh_insert f (bs : list Beneficiary) i old new :
  bs !! i = Some old ->
  weigh f (<[i := new]> bs) = weigh f bs - f old + f new.
Proof.
  revert i. induction bs as [|b bs IH]; intros [|i] H; try discriminate.
  - injection H as ->.
    change (<[0%nat := new]> (old :: bs)) with (new :: bs). cbn [weigh]. lia.
  - change (<[S i := new]> (b :: bs)) with (b :: <[i := new]> bs).
    cbn [weigh]. rewrite (IH i H). lia.
Qed.

Lemma weigh_nonneg f bs : (forall b, 0 <= f b) -> 0 <= weigh f bs.
Proof.
  intros Hf. induction bs as [|b bs IH]; cbn; [lia | specialize (Hf b); lia].
Qed.

Lemma weigh_lookup_le f (bs : list Beneficiary) i b :
  (forall x, 0 <= f x) -> bs !! i = Some b -> f b <= weigh f bs.
Proof.
  intros Hf. revert i. induction bs as [|c bs IH]; intros [|i] H; cbn in *;
    try discriminate.
  - injection H as ->. pose proof (weigh_nonneg f bs Hf). lia.
  - specialize (IH _ H). specialize (Hf c). lia.
Qed.

Lemma weigh_swap_pop_snoc f (front : list Beneficiary) lastEntry i old :
  (front ++ [lastEntry]) !! i = Some old ->
  weigh f (take (length front) (<[i := lastEntry]> (front ++ [lastEntry])))
  = weigh f (front ++ [lastEntry]) - f old.
Proof.
  intros Hi. rewrite weigh_app. cbn [weigh].
  destruct (decide (i < length front)%nat) as [Hlt|Hge].
  - rewrite lookup_app_l in Hi by exact Hlt.
    rewrite insert_app_l by exact Hlt.
    rewrite take_app_length' by (rewrite length_insert; reflexivity).
    rewrite (weigh_insert f front i old lastEntry Hi). lia.
  - assert (i = length front) as ->.
    { apply lookup_lt_Some in Hi. rewrite length_app in Hi. cbn in Hi. lia. }
    rewrite list_insert_id by (rewrite Hi; f_equal;
      rewrite lookup_app_r, Nat.sub_diag in Hi by lia; cbn in Hi; congruence).
    rewrite take_app_length.
    rewrite lookup_app_r, Nat.sub_diag in Hi by lia. cbn in Hi.
    injection Hi as ->. lia.
Qed.

Lemma snoc_of_last (bs : list Beneficiary) lastEntry :
  bs !! (length bs - 1)%nat = Some lastEntry ->
  bs = take (length bs - 1) bs ++ [lastEntry].
Proof.
  intros Hl. rewrite <- (take_drop (length bs - 1) bs) at 1. f_equal.
  apply list_eq. intros [|j].
  - rewrite lookup_drop, Nat.add_0_r. exact Hl.
  - rewrite lookup_drop. cbn. apply lookup_ge_None_2. lia.
Qed.

(** Swap-and-pop removes exactly the weight of the entry at [i]. *)
Lemma weigh_swap_pop f (bs : list Beneficiary) i old lastEntry :
  bs !! i = Some old ->
  bs !! (length bs - 1)%nat = Some lastEntry ->
  weigh f (take (length bs - 1) (<[i := lastEntry]> bs)) = weigh f bs - f old.
Proof.
  intros Hi Hl. pose proof (snoc_of_last bs lastEntry Hl) as Hs.
  generalize dependent (take (length bs - 1) bs). intros front ->.
  replace (length (front ++ [lastEntry]) - 1)%nat with (length front)
    by (rewrite length_app; cbn; lia).
  apply weigh_swap_pop_snoc. exact Hi.
Qed.

Lemma sumShares_lookup_le (bs : list Beneficiary) i b :
  Forall (fun x => 0 < share x) bs -> bs !! i = Some b -> share b <= sumShares bs.
Proof.
  unfold sumShares. intros Hpos. revert i.
  induction Hpos as [|c bs Hc Hbs IH]; intros [|i] H; cbn in *; try discriminate.
  - injection H as ->.
    assert (0 <= weigh share bs) by (clear -Hbs; induction Hbs; cbn; lia). lia.
  - specialize (IH _ H). lia.
Qed.

Lemma totalSharesFrom_Ok acc bs tot :
  totalSharesFrom acc bs = Ok tot -> tot = acc + sumShares bs.
Proof.
  unfold sumShares. revert acc. induction bs as [|b bs IH]; intros acc H; cbn in *.
  - injection H as ->. lia.
  - peel. apply IH in H. lia.
Qed.

Lemma totalSharesFrom_fits acc bs :
  acc + sumShares bs <= MAX_UINT256 ->
  Forall (fun b => 0 <= share b) bs ->
  totalSharesFrom acc bs = Ok (acc + sumShares bs).
Proof.
  unfold sumShares. intros Hmax Hpos. revert acc Hmax.
  induction Hpos as [|b bs Hb Hbs IH]; intros acc Hmax; cbn in *.
  - f_equal. lia.
  - pose proof (weigh_nonneg share bs) as Hn.
    assert (0 <= weigh share bs).
    { clear -Hbs. induction Hbs; cbn; lia. }
    rewrite checked_add_fits by lia. cbn.
    rewrite IH by lia. f_equal. lia.
Qed.

Lemma hasGuardianIn_count bs :
  hasGuardianIn bs = false <-> guardianCount bs = 0.
Proof.
  unfold guardianCount.
  assert (Hn : forall cs, 0 <= weigh guardianFlag cs).
  { intros cs. apply weigh_nonneg. intros b. unfold guardianFlag.
    destruct (isGuardian b); lia. }
  induction bs as [|b bs IH]; cbn; [tauto|].
  unfold guardianFlag at 1. specialize (Hn bs).
  destruct (isGuardian b); split; intros H; try discriminate; try lia.
  - apply IH in H. lia.
  - apply IH. lia.
Qed.

(** *** Storage reads after a write *)

Lemma getWill_insert (s : gmap Z Will) k w a :
  getWill (<[k := w]> s) a = if decide (k = a) then w else getWill s a.
Proof.
  unfold getWill. rewrite lookup_insert. destruct (decide (k = a)); reflexivity.
Qed.

Lemma getWill_insert_eq (s : gmap Z Will) k w : getWill (<[k := w]> s) k = w.
Proof. rewrite getWill_insert. destruct (decide (k = k)); congruence. Qed.

Lemma getWill_insert_ne (s : gmap Z Will) k w a :
  k <> a -> getWill (<[k := w]> s) a = getWill s a.
Proof. intros. rewrite getWill_insert. destruct (decide (k = a)); congruence. Qed.

Lemma getWill_empty a : getWill ∅ a = emptyWill.
Proof. unfold getWill. rewrite lookup_empty. reflexivity. Qed.

(** *** What each beneficiary operation does to the array *)

Lemma addBeneficiary_Ok s e b sh g rc :
  addBeneficiary s e b sh g = Ok rc ->
  let bs := beneficiaries (getWill s (sender e)) in
  post rc = <[sender e :=
               setBeneficiaries (getWill s (sender e))
                 (bs ++ [{| wallet := b; share := sh; isGuardian := g |}])]> s
  /\ sumShares bs + sh <= 100
  /\ (g = true -> hasGuardianIn bs = false)
  /\ edit bs (bs ++ [{| wallet := b; share := sh; isGuardian := g |}]).
Proof.
  unfold addBeneficiary. intros H. peel. cbn. split; [reflexivity|].
  assert (Hg : g = true ->
               hasGuardianIn (beneficiaries (getWill s (sender e))) = false).
  { intros ->.
    match goal with
    | Hg : require (negb (_hasGuardian _ _)) _ = Ok _ |- _ =>
        apply require_Ok, negb_true_iff in Hg; exact Hg
    end. }
  match goal with
  | Ht : _getTotalShares _ _ = Ok ?tot |- _ =>
      pose proof (totalSharesFrom_Ok _ _ _ Ht) as Hsum;
      split; [lia|]; split; [exact Hg|];
      apply (edit_push _ b sh g tot); [lia | exact Hg | exact Ht | lia]
  end.
Qed.

Lemma updateBeneficiary_Ok s e b sh g rc :
  updateBeneficiary s e b sh g = Ok rc ->
  let bs := beneficiaries (getWill s (sender e)) in
  exists i target,
    beneficiaryIndexFrom 0 b bs = Ok i /\
    bs !! i = Some target /\
    post rc = <[sender e :=
                 setBeneficiaries (getWill s (sender e))
                   (<[i := {| wallet := wallet target; share := sh;
                              isGuardian := g |}]> bs)]> s
    /\ sumShares bs - share target + sh <= 100
    /\ (g = true -> isGuardian target = false -> hasGuardianIn bs = false)
    /\ edit bs (<[i := {| wallet := wallet target; share := sh;
                          isGuardian := g |}]> bs).
Proof.
  unfold updateBeneficiary. intros H. peel.
  match goal with
  | Hi : _getBeneficiaryIndex _ _ _ = Ok ?i |- _ =>
      rename i into idx; rename Hi into Hidx
  end.
  destruct (beneficiaries (getWill s (sender e)) !! idx) as [target|] eqn:Ht;
    [|discriminate].
  peel. cbn. exists idx, target. split; [exact Hidx|].
  split; [exact Ht|]. split; [reflexivity|].
  assert (Hg : g = true -> isGuardian target = false ->
               hasGuardianIn (beneficiaries (getWill s (sender e))) = false).
  { intros -> Hng. rewrite Hng in *. cbn in *.
    match goal with
    | Hg : require (negb (_hasGuardian _ _)) _ = Ok _ |- _ =>
        apply require_Ok, negb_true_iff in Hg; exact Hg
    end. }
  match goal with
  | Hs : _getTotalShares _ _ = Ok ?tot |- _ =>
      pose proof (totalSharesFrom_Ok _ _ _ Hs) as Hsum;
      split; [lia|]; split; [exact Hg|];
      apply (edit_set _ idx target sh g tot);
        [exact Ht | lia | exact Hg | exact Hs | lia]
  end.
Qed.

Lemma removeBeneficiary_Ok s e b rc :
  removeBeneficiary s e b = Ok rc ->
  let bs := beneficiaries (getWill s (sender e)) in
  exists i lastEntry,
    (i < length bs)%nat /\
    bs !! (length bs - 1)%nat = Some lastEntry /\
    post rc = <[sender e :=
                 setBeneficiaries (getWill s (sender e))
                   (take (length bs - 1) (<[i := lastEntry]> bs))]> s
    /\ edit bs (take (length bs - 1) (<[i := lastEntry]> bs)).
Proof.
  unfold removeBeneficiary. intros H. peel.
  match goal with
  | Hi : _getBeneficiaryIndex _ _ _ = Ok ?i |- _ => rename i into idx
  end.
  replace (Z.to_nat (Z.of_nat (length (beneficiaries (getWill s (sender e)))) - 1))
    with (length (beneficiaries (getWill s (sender e))) - 1)%nat in H by lia.
  destruct (beneficiaries (getWill s (sender e)) !! _) as [lastEntry|] eqn:Hl;
    [|discriminate].
  destruct (decide _) as [Hlt|]; [|discriminate].
  peel. cbn. exists idx, lastEntry. repeat split; try assumption.
  apply edit_swap_pop; assumption.
Qed.

(** Every successful call leaves each will's array as it was, or edits it. *)
Lemma exec_edits s e c rc a :
  exec s e c = Ok rc ->
  beneficiaries (getWill (post rc) a) = beneficiaries (getWill s a)
  \/ edit (beneficiaries (getWill s a)) (beneficiaries (getWill (post rc) a)).
Proof.
  destruct c; cbn [exec]; intros H.
  - unfold createWill in H. peel. cbn. left.
    rewrite getWill_insert. destruct (decide _) as [<-|]; reflexivity.
  - unfold executeWill in H. peel. cbn. left.
    rewrite getWill_insert. destruct (decide _) as [<-|]; reflexivity.
  - apply addBeneficiary_Ok in H. destruct H as (-> & _ & _ & Hed).
    rewrite getWill_insert. destruct (decide _) as [<-|]; [right; exact Hed | by left].
  - apply updateBeneficiary_Ok in H.
    destruct H as (i & tg & _ & _ & -> & _ & _ & Hed).
    rewrite getWill_insert. destruct (decide _) as [<-|]; [right; exact Hed | by left].
  - apply removeBeneficiary_Ok in H. destruct H as (i & l & _ & _ & -> & Hed).
    rewrite getWill_insert. destruct (decide _) as [<-|]; [right; exact Hed | by left].
  - unfold depositLocked in H. peel. cbn. left.
    rewrite getWill_insert. destruct (decide _) as [<-|]; reflexivity.
  - unfold depositFlexible in H. peel. cbn. left.
    rewrite getWill_insert. destruct (decide _) as [<-|]; reflexivity.
  - unfold withdrawFlexible in H. peel. cbn. left.
    rewrite getWill_insert. destruct (decide _) as [<-|]; reflexivity.
  - unfold checkIn in H. peel. cbn. left.
    rewrite getWill_insert. destruct (decide _) as [<-|]; reflexivity.
Qed.

(** An invariant of the array that every edit keeps holds in every
    reachable state. *)
Lemma reachable_edit_invariant (P : list Beneficiary -> Prop) :
  P [] ->
  (forall bs bs', P bs -> edit bs bs' -> P bs') ->
  forall s, reachable s -> forall a, P (beneficiaries (getWill s a)).
Proof.
  intros Hnil Hedit s Hr. induction Hr as [|s s' Hr IH (e & c & ->)]; intros a.
  - rewrite getWill_empty. exact Hnil.
  - destruct (exec s e c) as [rc|f] eqn:Hx; cbn [after]; [|apply IH].
    destruct (exec_edits s e c rc a Hx) as [->|Hed]; [apply IH|].
    eapply Hedit; [apply IH | exact Hed].
Qed.

Lemma sharesBounded_edit bs bs' : sharesBounded bs -> edit bs bs' -> sharesBounded bs'.
Proof.
  intros [Hpos Hsum] Hed. destruct Hed as
    [b sh g tot Hsh _ Htot Hle | i target sh g tot Hi Hsh _ Htot Hle | i l Hi Hl].
  - apply totalSharesFrom_Ok in Htot. split.
    + apply Forall_app. split; [exact Hpos|]. constructor; [cbn; lia | constructor].
    + unfold sumShares in *. rewrite weigh_app. cbn. lia.
  - apply totalSharesFrom_Ok in Htot. split.
    + apply Forall_insert; [exact Hpos | cbn; lia].
    + unfold sumShares in *. rewrite (weigh_insert share bs i target) by exact Hi.
      cbn. lia.
  - destruct (lookup_lt_is_Some_2 bs i Hi) as [old Hold]. split.
    + apply Forall_take, Forall_insert; [exact Hpos|].
      eapply Forall_lookup_1 in Hpos; [exact Hpos | exact Hl].
    + unfold sumShares in *. rewrite (weigh_swap_pop share bs i old l Hold Hl).
      eapply Forall_lookup_1 in Hpos; [|exact Hold]. cbn in Hpos. lia.
Qed.

Lemma reachable_sharesBounded s a :
  reachable s -> sharesBounded (beneficiaries (getWill s a)).
Proof.
  intros Hr. revert a.
  apply (reachable_edit_invariant sharesBounded); [|exact sharesBounded_edit|exact Hr].
  split; [constructor | cbn; lia].
Qed.

Lemma guardianCount_edit bs bs' :
  guardianCount bs <= 1 -> edit bs bs' -> guardianCount bs' <= 1.
Proof.
  intros Hc Hed.
  assert (Hf : forall b, 0 <= guardianFlag b <= 1).
  { intros b. unfold guardianFlag. destruct (isGuardian b); lia. }
  assert (Hn : 0 <= guardianCount bs).
  { apply weigh_nonneg. intros b. apply Hf. }
  destruct Hed as
    [b sh g tot _ Hg _ _ | i target sh g tot Hi _ Hg _ _ | i l Hi Hl];
    unfold guardianCount in *.
  - rewrite weigh_app. cbn. unfold guardianFlag at 2. cbn.
    destruct g; [|lia]. specialize (Hg eq_refl).
    apply hasGuardianIn_count in Hg. unfold guardianCount in Hg. lia.
  - rewrite (weigh_insert guardianFlag bs i target) by exact Hi.
    pose proof (weigh_lookup_le guardianFlag bs i target
                  (fun x => proj1 (Hf x)) Hi) as Hle.
    unfold guardianFlag at 2 3. cbn.
    destruct g; [|destruct (isGuardian target); lia].
    destruct (isGuardian target) eqn:Ht; [lia|].
    specialize (Hg eq_refl eq_refl).
    apply hasGuardianIn_count in Hg. unfold guardianCount in Hg. lia.
  - destruct (lookup_lt_is_Some_2 bs i Hi) as [old Hold].
    rewrite (weigh_swap_pop guardianFlag bs i old l Hold Hl).
    specialize (Hf old). lia.
Qed.

Lemma reachable_guardianCount s a :
  reachable s -> guardianCount (beneficiaries (getWill s a)) <= 1.
Proof.
  intros Hr. revert a.
  apply (reachable_edit_invariant (fun bs => guardianCount bs <= 1));
    [cbn; lia | exact guardianCount_edit | exact Hr].
Qed.

(** With at most one flag set, two flagged entries are the same entry. *)
Lemma guardianCount_unique (bs : list Beneficiary) i j bi bj :
  guardianCount bs <= 1 ->
  bs !! i = Some bi -> bs !! j = Some bj ->
  isGuardian bi = true -> isGuardian bj = true -> i = j.
Proof.
  assert (Hf : forall b, 0 <= guardianFlag b).
  { intros b. unfold guardianFlag. destruct (isGuardian b); lia. }
  unfold guardianCount. revert i j.
  induction bs as [|b bs IH]; intros i j Hc Hi Hj Gi Gj; [discriminate|].
  cbn [weigh] in Hc. pose proof (weigh_nonneg guardianFlag bs Hf) as Hn.
  destruct i as [|i], j as [|j]; cbn in Hi, Hj.
  - reflexivity.
  - injection Hi as ->. exfalso.
    pose proof (weigh_lookup_le guardianFlag bs j bj Hf Hj) as Hle.
    unfold guardianFlag at 1 in Hc. unfold guardianFlag at 1 in Hle.
    rewrite Gi in Hc. rewrite Gj in Hle. lia.
  - injection Hj as ->. exfalso.
    pose proof (weigh_lookup_le guardianFlag bs i bi Hf Hi) as Hle.
    unfold guardianFlag at 1 in Hc. unfold guardianFlag at 1 in Hle.
    rewrite Gj in Hc. rewrite Gi in Hle. lia.
  - f_equal. apply IH; try assumption. specialize (Hf b). lia.
Qed.

Lemma beneficiaryIndexFrom_member k user bs i :
  beneficiaryIndexFrom k user bs = Ok i -> isBeneficiaryIn user bs = true.
Proof.
  revert k. induction bs as [|b bs IH]; intros k H; cbn in *; [discriminate|].
  destruct (wallet b =? user); [reflexivity | eauto].
Qed.

(** *** Running the checks forwards *)

Lemma willExists_pass s t : testator (getWill s t) <> 0 -> willExists s t = Ok tt.
Proof.
  intros H. apply require_true. apply negb_true_iff. apply Z.eqb_neq. exact H.
Qed.

Lemma willNotExecuted_pass s t :
  executed (getWill s t) = false -> willNotExecuted s t = Ok tt.
Proof. intros H. apply require_true. rewrite H. reflexivity. Qed.

Lemma willNotExecuted_stop s t :
  executed (getWill s t) = true -> willNotExecuted s t = Fail WillExecutedError.
Proof. intros H. apply require_false. rewrite H. reflexivity. Qed.

Lemma validShare_pass sh : 0 < sh <= 100 -> validShare sh = Ok tt.
Proof. intros H. apply require_true. lia. Qed.

(** [addBeneficiary] up to its guardian check. *)
Lemma addBeneficiary_to_guardian_check s e b sh g :
  let w := getWill s (sender e) in
  testator w <> 0 -> executed w = false -> 0 < sh <= 100 ->
  b <> 0 -> b <> sender e -> isBeneficiaryIn b (beneficiaries w) = false ->
  addBeneficiary s e b sh g =
    ((if g then require (negb (_hasGuardian s (sender e))) "Guardian already exists"
      else Ok tt);;
     currentTotal ← _getTotalShares s (sender e);
     newTotal ← checked_add currentTotal sh;
     require (newTotal <=? 100) "Total shares cannot exceed 100%";;
     Ok {| post := <[sender e :=
                      setBeneficiaries w
                        (beneficiaries w ++
                           [{| wallet := b; share := sh; isGuardian := g |}])]> s;
           transfers := [];
           logs := [BeneficiaryAdded (sender e) b sh g] |}).
Proof.
  intros w Ht Hx Hsh Hb0 Hbs Hnew. unfold addBeneficiary.
  rewrite willExists_pass by exact Ht. cbn [mbind Result_bind].
  rewrite willNotExecuted_pass by exact Hx. cbn [mbind Result_bind].
  rewrite validShare_pass by exact Hsh. cbn [mbind Result_bind].
  rewrite (require_true (negb (b =? 0))) by lia. cbn [mbind Result_bind].
  rewrite (require_true (negb (b =? sender e))) by lia. cbn [mbind Result_bind].
  unfold _isBeneficiaryOfWill. fold w. rewrite Hnew. reflexivity.
Qed.

(** [updateBeneficiary] up to its guardian check. *)
Lemma updateBeneficiary_to_guardian_check s e b sh g i target :
  let w := getWill s (sender e) in
  testator w <> 0 -> executed w = false -> 0 < sh <= 100 ->
  beneficiaryIndexFrom 0 b (beneficiaries w) = Ok i ->
  beneficiaries w !! i = Some target ->
  updateBeneficiary s e b sh g =
    ((if g && negb (isGuardian target)
      then require (negb (_hasGuardian s (sender e))) "Guardian already exists"
      else Ok tt);;
     currentTotal ← _getTotalShares s (sender e);
     d ← checked_sub currentTotal (share target);
     adjustedTotal ← checked_add d sh;
     require (adjustedTotal <=? 100) "Total shares cannot exceed 100%";;
     Ok {| post := <[sender e :=
                      setBeneficiaries w
                        (<[i := {| wallet := wallet target; share := sh;
                                   isGuardian := g |}]> (beneficiaries w))]> s;
           transfers := [];
           logs := [BeneficiaryUpdated (sender e) b sh g] |}).
Proof.
  intros w Ht Hx Hsh Hi Htg. unfold updateBeneficiary.
  rewrite willExists_pass by exact Ht. cbn [mbind Result_bind].
  rewrite willNotExecuted_pass by exact Hx. cbn [mbind Result_bind].
  rewrite validShare_pass by exact Hsh. cbn [mbind Result_bind].
  unfold _isBeneficiaryOfWill, _getBeneficiaryIndex. fold w.
  rewrite (beneficiaryIndexFrom_member _ _ _ _ Hi). cbn [require mbind Result_bind].
  rewrite Hi. cbn [mbind Result_bind]. rewrite Htg. reflexivity.
Qed.

Lemma getTotalShares_reachable s t :
  reachable s -> _getTotalShares s t = Ok (sumShares (beneficiaries (getWill s t))).
Proof.
  intros Hr. destruct (reachable_sharesBounded s t Hr) as [Hpos Hsum].
  unfold _getTotalShares.
  rewrite totalSharesFrom_fits.
  - f_equal.
  - pose proof MAX_UINT256_large. lia.
  - eapply Forall_impl; [exact Hpos|]. cbn. intros. lia.
Qed.

(** *** Share ledger *)

(** C6.  In every reachable state the shares of every will sum to at most
    100.  An [addBeneficiary] that would take the total above 100, and an
    [updateBeneficiary] whose adjusted total would exceed 100, fail and leave
    storage as it was; once the earlier checks of the function pass, the
    failure is "Total shares cannot exceed 100%" (ShareOverflow). *)
Theorem share_sum_invariant :
  (forall s t, reachable s -> sumShares (beneficiaries (getWill s t)) <= 100) /\
  (forall s e b sh g,
     let w := getWill s (sender e) in
     sumShares (beneficiaries w) + sh > 100 ->
     (exists f, addBeneficiary s e b sh g = Fail f) /\
     after s (addBeneficiary s e b sh g) = s /\
     (reachable s ->
      testator w <> 0 -> executed w = false -> 0 < sh <= 100 ->
      b <> 0 -> b <> sender e -> isBeneficiaryIn b (beneficiaries w) = false ->
      (g = true -> hasGuardianIn (beneficiaries w) = false) ->
      addBeneficiary s e b sh g = Fail ShareOverflow)) /\
  (forall s e b sh g i target,
     let w := getWill s (sender e) in
     beneficiaryIndexFrom 0 b (beneficiaries w) = Ok i ->
     beneficiaries w !! i = Some target ->
     sumShares (beneficiaries w) - share target + sh > 100 ->
     (exists f, updateBeneficiary s e b sh g = Fail f) /\
     after s (updateBeneficiary s e b sh g) = s /\
     (reachable s ->
      testator w <> 0 -> executed w = false -> 0 < sh <= 100 ->
      (g = true -> isGuardian target = false ->
       hasGuardianIn (beneficiaries w) = false) ->
      updateBeneficiary s e b sh g = Fail ShareOverflow)).
Proof.
  split; [|split].
  - intros s t Hr. apply (reachable_sharesBounded s t Hr).
  - intros s e b sh g w Hover.
    assert (Hfail : exists f, addBeneficiary s e b sh g = Fail f).
    { destruct (addBeneficiary s e b sh g) as [rc|f] eqn:Hx; [|eauto].
      apply addBeneficiary_Ok in Hx. fold w in Hx. cbn zeta in Hx. lia. }
    split; [exact Hfail|]. split.
    { destruct Hfail as [f ->]. reflexivity. }
    intros Hr Ht Hx Hsh Hb0 Hbs Hnew Hg.
    rewrite addBeneficiary_to_guardian_check by assumption. fold w.
    assert (Hgc : (if g then require (negb (_hasGuardian s (sender e)))
                               "Guardian already exists" else Ok tt) = Ok tt).
    { destruct g; [|reflexivity]. unfold _hasGuardian. fold w.
      rewrite Hg by reflexivity. reflexivity. }
    rewrite Hgc. cbn [mbind Result_bind].
    rewrite getTotalShares_reachable by exact Hr. cbn [mbind Result_bind]. fold w.
    destruct (reachable_sharesBounded s (sender e) Hr) as [_ Hsum]. fold w in Hsum.
    rewrite checked_add_fits by (pose proof MAX_UINT256_large; lia).
    cbn [mbind Result_bind].
    rewrite (require_false (_ <=? 100)) by lia. reflexivity.
  - intros s e b sh g i target w Hi Htg Hover.
    assert (Hfail : exists f, updateBeneficiary s e b sh g = Fail f).
    { destruct (updateBeneficiary s e b sh g) as [rc|f] eqn:Hx; [|eauto].
      apply updateBeneficiary_Ok in Hx. fold w in Hx. cbn zeta in Hx.
      destruct Hx as (i' & target' & Hi' & Htg' & _ & Hle & _ & _).
      rewrite Hi in Hi'. injection Hi' as <-.
      rewrite Htg in Htg'. injection Htg' as <-. lia. }
    split; [exact Hfail|]. split.
    { destruct Hfail as [f ->]. reflexivity. }
    intros Hr Ht Hx Hsh Hg.
    rewrite (updateBeneficiary_to_guardian_check s e b sh g i target)
      by assumption. fold w.
    assert (Hgc : (if g && negb (isGuardian target)
                   then require (negb (_hasGuardian s (sender e)))
                          "Guardian already exists" else Ok tt) = Ok tt).
    { destruct g, (isGuardian target); try reflexivity. unfold _hasGuardian.
      fold w. rewrite Hg by reflexivity. reflexivity. }
    rewrite Hgc. cbn [mbind Result_bind].
    rewrite getTotalShares_reachable by exact Hr. cbn [mbind Result_bind]. fold w.
    destruct (reachable_sharesBounded s (sender e) Hr) as [Hpos Hsum]. fold w in Hpos, Hsum.
    assert (Hts : 0 < share target <= sumShares (beneficiaries w)).
    { split.
      - eapply Forall_lookup_1 in Hpos; [exact Hpos | exact Htg].
      - apply (sumShares_lookup_le (beneficiaries w) i target Hpos Htg). }
    rewrite checked_sub_fits by lia. cbn [mbind Result_bind].
    rewrite checked_add_fits by (pose proof MAX_UINT256_large; lia).
    cbn [mbind Result_bind].
    rewrite (require_false (_ <=? 100)) by lia. reflexivity.
Qed.

Lemma reachable_transact s e c : reachable s -> reachable (transact s e c).
Proof. intros Hr. eapply reachable_step; [exact Hr|]. exists e, c. reflexivity. Qed.

Lemma reachable_withGuardian : reachable withGuardian.
Proof. repeat apply reachable_transact. apply reachable_init. Qed.

(** The will of the scenario is full (60 + 40): a further 1% for a new
    beneficiary, or raising bob from 60 to 61, is refused. *)
Lemma share_sum_invariant_witness :
  sumShares (beneficiaries (getWill withGuardian alice)) <= 100 /\
  addBeneficiary withGuardian (envOf alice 1050) mallory 1 false
    = Fail ShareOverflow /\
  updateBeneficiary withGuardian (envOf alice 1050) bob 61 false
    = Fail ShareOverflow.
Proof.
  destruct share_sum_invariant as (Hinv & Hadd & Hupd).
  split; [apply Hinv; exact reachable_withGuardian|]. split.
  - apply (Hadd withGuardian (envOf alice 1050) mallory 1 false).
    + vm_compute. reflexivity.
    + exact reachable_withGuardian.
    + vm_compute. discriminate.
    + vm_compute. reflexivity.
    + lia.
    + vm_compute. discriminate.
    + vm_compute. discriminate.
    + vm_compute. reflexivity.
    + discriminate.
  - apply (Hupd withGuardian (envOf alice 1050) bob 61 false 0%nat
             {| wallet := bob; share := 60; isGuardian := false |}).
    + vm_compute. reflexivity.
    + vm_compute. reflexivity.
    + vm_compute. reflexivity.
    + exact reachable_withGuardian.
    + vm_compute. discriminate.
    + vm_compute. reflexivity.
    + lia.
    + discriminate.
Defined.

(** *** Guardian designation *)

(** C8.  In every reachable state at most one entry of a will carries the
    guardian flag.  Adding a guardian while one exists fails, and so does
    promoting a non-guardian entry while another entry is guardian; once
    the earlier checks of the function pass, the failure is "Guardian
    already exists" (GuardianConflict). *)
Theorem guardian_unique :
  (forall s t,
     reachable s ->
     guardianCount (beneficiaries (getWill s t)) <= 1 /\
     forall i j bi bj,
       beneficiaries (getWill s t) !! i = Some bi ->
       beneficiaries (getWill s t) !! j = Some bj ->
       isGuardian bi = true -> isGuardian bj = true -> i = j) /\
  (forall s e b sh,
     let w := getWill s (sender e) in
     hasGuardianIn (beneficiaries w) = true ->
     (exists f, addBeneficiary s e b sh true = Fail f) /\
     (testator w <> 0 -> executed w = false -> 0 < sh <= 100 ->
      b <> 0 -> b <> sender e -> isBeneficiaryIn b (beneficiaries w) = false ->
      addBeneficiary s e b sh true = Fail GuardianConflict)) /\
  (forall s e b sh i target,
     let w := getWill s (sender e) in
     beneficiaryIndexFrom 0 b (beneficiaries w) = Ok i ->
     beneficiaries w !! i = Some target ->
     isGuardian target = false ->
     hasGuardianIn (beneficiaries w) = true ->
     (exists f, updateBeneficiary s e b sh true = Fail f) /\
     (testator w <> 0 -> executed w = false -> 0 < sh <= 100 ->
      updateBeneficiary s e b sh true = Fail GuardianConflict)).
Proof.
  split; [|split].
  - intros s t Hr. pose proof (reachable_guardianCount s t Hr) as Hc.
    split; [exact Hc|]. intros i j bi bj Hi Hj Gi Gj.
    eapply guardianCount_unique; eauto.
  - intros s e b sh w Hhas. split.
    + destruct (addBeneficiary s e b sh true) as [rc|f] eqn:Hx; [|eauto].
      apply addBeneficiary_Ok in Hx. fold w in Hx. cbn zeta in Hx.
      destruct Hx as (_ & _ & Hg & _). rewrite Hg in Hhas by reflexivity.
      discriminate.
    + intros Ht Hx Hsh Hb0 Hbs Hnew.
      rewrite addBeneficiary_to_guardian_check by assumption.
      unfold _hasGuardian. fold w. rewrite Hhas. reflexivity.
  - intros s e b sh i target w Hi Htg Hng Hhas. split.
    + destruct (updateBeneficiary s e b sh true) as [rc|f] eqn:Hx; [|eauto].
      apply updateBeneficiary_Ok in Hx. fold w in Hx. cbn zeta in Hx.
      destruct Hx as (i' & target' & Hi' & Htg' & _ & _ & Hg & _).
      rewrite Hi in Hi'. injection Hi' as <-.
      rewrite Htg in Htg'. injection Htg' as <-.
      rewrite Hg in Hhas by auto. discriminate.
    + intros Ht Hx Hsh.
      rewrite (updateBeneficiary_to_guardian_check s e b sh true i target)
        by assumption.
      rewrite Hng. unfold _hasGuardian. fold w. rewrite Hhas. reflexivity.
Qed.

(** In the scenario gina is the one guardian: a second guardian is
    refused, and so is promoting bob. *)
Lemma guardian_unique_witness :
  guardianCount (beneficiaries (getWill withGuardian alice)) <= 1 /\
  addBeneficiary withGuardian (envOf alice 1050) mallory 1 true
    = Fail GuardianConflict /\
  updateBeneficiary withGuardian (envOf alice 1050) bob 60 true
    = Fail GuardianConflict.
Proof.
  destruct guardian_unique as (Huniq & Hadd & Hupd).
  split; [|split].
  - apply (Huniq withGuardian alice reachable_withGuardian).
  - apply (Hadd withGuardian (envOf alice 1050) mallory 1).
    + vm_compute. reflexivity.
    + vm_compute. discriminate.
    + vm_compute. reflexivity.
    + lia.
    + vm_compute. discriminate.
    + vm_compute. discriminate.
    + vm_compute. reflexivity.
  - apply (Hupd withGuardian (envOf alice 1050) bob 60 0%nat
             {| wallet := bob; share := 60; isGuardian := false |}).
    + vm_compute. reflexivity.
    + vm_compute. reflexivity.
    + reflexivity.
    + vm_compute. reflexivity.
    + vm_compute. discriminate.
    + vm_compute. reflexivity.
    + lia.
Defined.

(** *** Execution *)

Lemma distribute_Ok e total bs paid :
  distribute e total bs = Ok paid -> paid = payouts total bs.
Proof.
  unfold payouts. revert paid.
  induction bs as [|b bs IH]; intros paid H; cbn [distribute map] in *.
  - injection H as <-. reflexivity.
  - peel. destruct (Z.ltb_spec 0 (total * share b / 100)) as [Hpos|Hle].
    + peel. rewrite filter_cons_True by (cbn; lia).
      f_equal. apply IH. assumption.
    + rewrite filter_cons_False by (cbn; lia). apply IH. assumption.
Qed.

Lemma distribute_pays e total bs :
  0 <= total -> total * 100 <= MAX_UINT256 ->
  Forall (fun b => 0 < share b <= 100) bs ->
  Forall (fun b => accepts e (wallet b) (total * share b / 100) = true) bs ->
  distribute e total bs = Ok (payouts total bs).
Proof.
  intros Ht Hmax Hsh Hacc. unfold payouts.
  induction bs as [|b bs IH]; cbn [distribute map]; [reflexivity|].
  apply Forall_cons in Hsh. destruct Hsh as [Hb Hsh].
  apply Forall_cons in Hacc. destruct Hacc as [Ha Hacc].
  rewrite checked_mul_fits by nia. cbn [mbind Result_bind].
  specialize (IH Hsh Hacc).
  destruct (Z.ltb_spec 0 (total * share b / 100)) as [Hpos|Hle].
  - rewrite Ha. cbn [require mbind Result_bind]. rewrite IH.
    cbn [mbind Result_bind]. rewrite filter_cons_True by (cbn; lia). reflexivity.
  - rewrite filter_cons_False by (cbn; lia). exact IH.
Qed.

Lemma positive_shares_bounded bs :
  Forall (fun b => 0 < share b) bs ->
  Forall (fun b => 0 < share b <= sumShares bs) bs.
Proof.
  intros Hpos. apply Forall_lookup. intros i b Hb. split.
  - eapply Forall_lookup_1 in Hpos; [exact Hpos | exact Hb].
  - eapply sumShares_lookup_le; eauto.
Qed.

(** [executeWill] up to its phase check. *)
Lemma executeWill_to_phase_check s e t :
  let w := getWill s t in
  let deadline := lastCheckIn w + checkInPeriod w in
  let disputeEnd := deadline + disputePeriod w in
  testator w <> 0 -> executed w = false ->
  0 <= disputePeriod w -> disputeEnd <= MAX_UINT256 ->
  executeWill s e t =
    (require (deadline <? timestamp e) "Check-in period has not expired";;
     (if timestamp e <=? disputeEnd
      then require (_isGuardianOfWill s (sender e) t)
             "Only guardian can execute during dispute period"
      else require (_isBeneficiaryOfWill s (sender e) t)
             "Only beneficiaries can execute will");;
     totalFunds ← checked_add (lockedVault w) (flexibleVault w);
     require (0 <? totalFunds) "No funds to distribute";;
     total ← _getTotalShares s t;
     require (total =? 100) "Total beneficiary shares must equal 100%";;
     paid ← distribute e totalFunds (beneficiaries w);
     Ok {| post := <[t := settled w]> s; transfers := paid;
           logs := [WillExecuted t totalFunds] |}).
Proof.
  intros w deadline disputeEnd Ht Hx Hdp Hmax. unfold executeWill.
  rewrite willExists_pass by exact Ht. cbn [mbind Result_bind].
  rewrite willNotExecuted_pass by exact Hx. cbn [mbind Result_bind].
  subst deadline disputeEnd. cbn zeta. fold w.
  rewrite (checked_add_fits (lastCheckIn w) (checkInPeriod w)) by lia.
  cbn [mbind Result_bind].
  rewrite (checked_add_fits (lastCheckIn w + checkInPeriod w) (disputePeriod w))
    by lia.
  reflexivity.
Qed.

(** The tail of [executeWill] once time and caller are accepted. *)
Lemma executeWill_pays s e t :
  let w := getWill s t in
  let total := lockedVault w + flexibleVault w in
  payable s e t ->
  (totalFunds ← checked_add (lockedVault w) (flexibleVault w);
   require (0 <? totalFunds) "No funds to distribute";;
   total ← _getTotalShares s t;
   require (total =? 100) "Total beneficiary shares must equal 100%";;
   paid ← distribute e totalFunds (beneficiaries w);
   Ok {| post := <[t := settled w]> s; transfers := paid;
         logs := [WillExecuted t totalFunds] |})
  = Ok {| post := <[t := settled w]> s;
          transfers := payouts total (beneficiaries w);
          logs := [WillExecuted t total] |}.
Proof.
  intros w total (Hfunds & Hmul & Hpos & Hsum & Hacc). fold w total in Hfunds, Hmul, Hacc.
  fold w in Hpos, Hsum.
  rewrite checked_add_fits by (fold total; lia). cbn [mbind Result_bind]. fold total.
  rewrite (require_true (0 <? total)) by lia. cbn [mbind Result_bind].
  unfold _getTotalShares. fold w.
  rewrite totalSharesFrom_fits;
    [| pose proof MAX_UINT256_large; lia
     | eapply Forall_impl; [exact Hpos|]; cbn; intros; lia ].
  cbn [mbind Result_bind]. rewrite Hsum. cbn [require Z.eqb Z.add Pos.eqb mbind Result_bind].
  rewrite distribute_pays; [reflexivity | lia | exact Hmul | | exact Hacc].
  rewrite <- Hsum. apply positive_shares_bounded. exact Hpos.
Qed.

(** C2.  Phased authorization.  For a live will whose deadline and dispute
    end fit in a uint256: up to the deadline [executeWill] fails with
    "Check-in period has not expired" for every caller; in the dispute
    window it fails with "Only guardian can execute during dispute period"
    for everyone but the guardian and succeeds for the guardian; after the
    window it fails with "Only beneficiaries can execute will" for
    non-beneficiaries and succeeds for any listed beneficiary (success
    given the funds, shares and transfers are in order). *)
Theorem executeWill_phased_authorization s e t :
  let w := getWill s t in
  let deadline := lastCheckIn w + checkInPeriod w in
  let disputeEnd := deadline + disputePeriod w in
  testator w <> 0 -> executed w = false ->
  0 <= disputePeriod w -> disputeEnd <= MAX_UINT256 ->
  (timestamp e <= deadline -> executeWill s e t = Fail PhaseNotElapsed) /\
  (deadline < timestamp e <= disputeEnd ->
     (_isGuardianOfWill s (sender e) t = false ->
      executeWill s e t = Fail UnauthorizedInDispute) /\
     (_isGuardianOfWill s (sender e) t = true -> payable s e t ->
      isOk (executeWill s e t) = true)) /\
  (disputeEnd < timestamp e ->
     (_isBeneficiaryOfWill s (sender e) t = false ->
      executeWill s e t = Fail UnauthorizedWhenOpen) /\
     (_isBeneficiaryOfWill s (sender e) t = true -> payable s e t ->
      isOk (executeWill s e t) = true)).
Proof.
  intros w deadline disputeEnd Ht Hx Hdp Hmax.
  rewrite (executeWill_to_phase_check s e t Ht Hx Hdp Hmax).
  fold w deadline disputeEnd. split; [|split].
  - intros Hearly. rewrite (require_false (deadline <? timestamp e)) by lia.
    reflexivity.
  - intros [Hlate Hwin].
    rewrite (require_true (deadline <? timestamp e)) by lia.
    rewrite bind_Ok_l; cbn beta.
    replace (timestamp e <=? disputeEnd) with true by lia. split.
    + intros ->. reflexivity.
    + intros -> Hpay. cbn [require]. rewrite bind_Ok_l; cbn beta.
      pose proof (executeWill_pays s e t Hpay) as Hp. cbn zeta in Hp.
      fold w in Hp. rewrite Hp. reflexivity.
  - intros Hopen.
    rewrite (require_true (deadline <? timestamp e)) by lia.
    rewrite bind_Ok_l; cbn beta.
    replace (timestamp e <=? disputeEnd) with false by lia. split.
    + intros ->. reflexivity.
    + intros -> Hpay. cbn [require]. rewrite bind_Ok_l; cbn beta.
      pose proof (executeWill_pays s e t Hpay) as Hp. cbn zeta in Hp.
      fold w in Hp. rewrite Hp. reflexivity.
Qed.

Lemma funded_alice :
  getWill funded alice =
    {| testator := alice;
       beneficiaries := [ {| wallet := bob; share := 60; isGuardian := false |};
                          {| wallet := gina; share := 40; isGuardian := true |} ];
       lockedVault := 10; flexibleVault := 5; lastCheckIn := 1000;
       checkInPeriod := 2592000; disputePeriod := 604800; executed := false |}.
Proof. vm_compute. reflexivity. Qed.

Lemma funded_payable who now : payable funded (envOf who now) alice.
Proof.
  unfold payable. rewrite funded_alice. cbn.
  repeat split; try (unfold MAX_UINT256; lia); repeat constructor; cbn; lia.
Qed.

(** The scenario at the deadline, inside the dispute window and after it. *)
Lemma executeWill_phased_authorization_witness :
  executeWill funded (envOf gina scenarioDeadline) alice = Fail PhaseNotElapsed /\
  executeWill funded (envOf bob (scenarioDeadline + 1)) alice
    = Fail UnauthorizedInDispute /\
  isOk (executeWill funded (envOf gina scenarioDisputeEnd) alice) = true /\
  executeWill funded (envOf mallory (scenarioDisputeEnd + 1)) alice
    = Fail UnauthorizedWhenOpen /\
  isOk (executeWill funded (envOf bob (scenarioDisputeEnd + 1)) alice) = true.
Proof.
  assert (Hlive : testator (getWill funded alice) <> 0
                  /\ executed (getWill funded alice) = false
                  /\ 0 <= disputePeriod (getWill funded alice)
                  /\ lastCheckIn (getWill funded alice)
                     + checkInPeriod (getWill funded alice)
                     + disputePeriod (getWill funded alice) <= MAX_UINT256).
  { rewrite funded_alice. cbn. unfold alice, MAX_UINT256. repeat split; lia. }
  destruct Hlive as (Ht & Hx & Hdp & Hmax).
  pose proof (fun who now =>
    executeWill_phased_authorization funded (envOf who now) alice
      Ht Hx Hdp Hmax) as Hphase.
  rewrite funded_alice in Hphase. cbn [lastCheckIn checkInPeriod disputePeriod
    timestamp sender envOf] in Hphase.
  unfold scenarioDisputeEnd, scenarioDeadline.
  split; [|split; [|split; [|split]]].
  - apply (proj1 (Hphase gina (1000 + 2592000))). lia.
  - apply (proj1 (proj2 (Hphase bob (1000 + 2592000 + 1)))); [lia|].
    vm_compute. reflexivity.
  - apply (proj1 (proj2 (Hphase gina (1000 + 2592000 + 604800)))); [lia| |].
    + vm_compute. reflexivity.
    + apply funded_payable.
  - apply (proj2 (proj2 (Hphase mallory (1000 + 2592000 + 604800 + 1)))); [lia|].
    vm_compute. reflexivity.
  - apply (proj2 (proj2 (Hphase bob (1000 + 2592000 + 604800 + 1)))); [lia| |].
    + vm_compute. reflexivity.
    + apply funded_payable.
Defined.

Lemma executeWill_Ok s e t rc :
  executeWill s e t = Ok rc ->
  let w := getWill s t in
  testator w <> 0 /\ executed w = false /\
  post rc = <[t := settled w]> s /\
  transfers rc = payouts (lockedVault w + flexibleVault w) (beneficiaries w) /\
  logs rc = [WillExecuted t (lockedVault w + flexibleVault w)].
Proof.
  unfold executeWill. intros H. peel. cbn.
  match goal with
  | Hd : distribute _ _ _ = Ok _ |- _ => apply distribute_Ok in Hd; subst
  end.
  repeat split; try reflexivity.
  - lia.
  - destruct (executed (getWill s t)); [discriminate | reflexivity].
Qed.

(** Among wallets that do not call back, a successful [executeWill] sends,
    in list order, to each beneficiary [floor(totalFunds * share / 100)]
    with [totalFunds = lockedVault + flexibleVault] (an amount of zero is
    not sent) and zeroes both vaults.  In the scenario (10 locked, 5
    flexible, bob 60%, guardian gina 40%) a call by bob or gina at any time
    after the dispute period sends 9 to bob and 6 to gina and leaves both
    vaults 0.  [ReentrancyFacts] has the call among wallets that do. *)
Theorem executeWill_distribution :
  (forall s e t rc,
     executeWill s e t = Ok rc ->
     let w := getWill s t in
     transfers rc = payouts (lockedVault w + flexibleVault w) (beneficiaries w) /\
     lockedVault (getWill (post rc) t) = 0 /\
     flexibleVault (getWill (post rc) t) = 0) /\
  (forall caller now,
     caller = bob \/ caller = gina -> scenarioDisputeEnd < now ->
     exists rc,
       executeWill funded (envOf caller now) alice = Ok rc /\
       transfers rc = [(bob, 9); (gina, 6)] /\
       lockedVault (getWill (post rc) alice) = 0 /\
       flexibleVault (getWill (post rc) alice) = 0).
Proof.
  split.
  - intros s e t rc H w. apply executeWill_Ok in H. fold w in H. cbn zeta in H.
    destruct H as (_ & _ & -> & -> & _).
    rewrite getWill_insert_eq. auto.
  - intros caller now Hc Hnow.
    assert (Hrun : executeWill funded (envOf caller now) alice =
                   Ok {| post := <[alice := settled (getWill funded alice)]> funded;
                         transfers := [(bob, 9); (gina, 6)];
                         logs := [WillExecuted alice 15] |}).
    { rewrite executeWill_to_phase_check;
        try (rewrite funded_alice; cbn; unfold alice, MAX_UINT256; lia).
      rewrite funded_alice. cbn [lastCheckIn checkInPeriod disputePeriod].
      unfold scenarioDisputeEnd, scenarioDeadline in Hnow.
      rewrite (require_true (_ <? _)) by (cbn; lia). rewrite bind_Ok_l; cbn beta.
      replace (timestamp (envOf caller now) <=? 1000 + 2592000 + 604800)
        with false by (cbn; lia).
      assert (Hb : _isBeneficiaryOfWill funded (sender (envOf caller now)) alice
                   = true).
      { unfold _isBeneficiaryOfWill. rewrite funded_alice.
        destruct Hc as [-> | ->]; vm_compute; reflexivity. }
      rewrite Hb. cbn [require]. rewrite bind_Ok_l; cbn beta.
      pose proof (executeWill_pays funded (envOf caller now) alice
                    (funded_payable caller now)) as Hp.
      rewrite funded_alice in Hp. rewrite Hp. reflexivity. }
    eexists. split; [exact Hrun|]. cbn [transfers post].
    rewrite getWill_insert_eq. auto.
Qed.

(** The scenario, executed by bob one second after the dispute period. *)
Lemma executeWill_distribution_witness :
  exists rc,
    executeWill funded (envOf bob (scenarioDisputeEnd + 1)) alice = Ok rc /\
    transfers rc = payouts 15 (beneficiaries (getWill funded alice)) /\
    transfers rc = [(bob, 9); (gina, 6)] /\
    lockedVault (getWill (post rc) alice) = 0 /\
    flexibleVault (getWill (post rc) alice) = 0.
Proof.
  destruct (proj2 executeWill_distribution bob (scenarioDisputeEnd + 1))
    as (rc & Hrun & Hpaid & Hl & Hf); [left; reflexivity | lia |].
  exists rc. split; [exact Hrun|].
  destruct (proj1 executeWill_distribution _ _ _ _ Hrun) as (Hgen & _ & _).
  split; [|auto].
  rewrite Hgen. rewrite funded_alice. reflexivity.
Defined.

(** *** Frames: what a transaction can touch *)

(** A successful call writes one will; that will was not executed (or, for
    [createWill], did not exist), and unless the call is [executeWill] its
    locked balance does not go down. *)
Lemma exec_frame s e c rc :
  exec s e c = Ok rc ->
  exists k w',
    post rc = <[k := w']> s /\
    (executed (getWill s k) = false \/ testator (getWill s k) = 0) /\
    (lockedVault (getWill s k) <= lockedVault w' \/ exists t, c = ExecuteWill t).
Proof.
  destruct c; cbn [exec]; intros H.
  - unfold createWill in H. peel. eexists _, _. split; [reflexivity|]. cbn.
    split; [right; lia | left; lia].
  - apply executeWill_Ok in H. destruct H as (_ & Hx & -> & _).
    eexists _, _. split; [reflexivity|]. split; [left; exact Hx | right; eauto].
  - pose proof H as H'. apply addBeneficiary_Ok in H'. destruct H' as (-> & _).
    unfold addBeneficiary in H. peel.
    eexists _, _. split; [reflexivity|]. cbn. split; [left | left; lia].
    destruct (executed (getWill s (sender e))); [discriminate | reflexivity].
  - pose proof H as H'. apply updateBeneficiary_Ok in H'.
    destruct H' as (i & tg & _ & _ & -> & _).
    unfold updateBeneficiary in H. peel.
    eexists _, _. split; [reflexivity|]. cbn. split; [left | left; lia].
    destruct (executed (getWill s (sender e))); [discriminate | reflexivity].
  - pose proof H as H'. apply removeBeneficiary_Ok in H'.
    destruct H' as (i & l & _ & _ & -> & _).
    unfold removeBeneficiary in H. peel.
    eexists _, _. split; [reflexivity|]. cbn. split; [left | left; lia].
    destruct (executed (getWill s (sender e))); [discriminate | reflexivity].
  - unfold depositLocked in H. peel.
    eexists _, _. split; [reflexivity|]. cbn. split; [left | left; lia].
    destruct (executed (getWill s (sender e))); [discriminate | reflexivity].
  - unfold depositFlexible in H. peel.
    eexists _, _. split; [reflexivity|]. cbn. split; [left | left; lia].
    destruct (executed (getWill s (sender e))); [discriminate | reflexivity].
  - unfold withdrawFlexible in H. peel.
    eexists _, _. split; [reflexivity|]. cbn. split; [left | left; lia].
    destruct (executed (getWill s (sender e))); [discriminate | reflexivity].
  - unfold checkIn in H. peel.
    eexists _, _. split; [reflexivity|]. cbn. split; [left | left; lia].
    destruct (executed (getWill s (sender e))); [discriminate | reflexivity].
Qed.

(** No transaction changes an executed will. *)
Lemma step_keeps_executed s s' t :
  testator (getWill s t) <> 0 -> executed (getWill s t) = true ->
  step s s' -> getWill s' t = getWill s t.
Proof.
  intros Ht Hx (e & c & ->).
  destruct (exec s e c) as [rc|f] eqn:Hrun; cbn [after]; [|reflexivity].
  destruct (exec_frame s e c rc Hrun) as (k & w' & -> & Hk & _).
  apply getWill_insert_ne. intros ->. destruct Hk; congruence.
Qed.

Lemma successor_keeps_executed s1 s2 t :
  testator (getWill s1 t) <> 0 -> executed (getWill s1 t) = true ->
  successor s1 s2 -> getWill s2 t = getWill s1 t.
Proof.
  intros Ht Hx Hs. induction Hs as [|sa sb Hs IH Hstep]; [reflexivity|].
  rewrite <- IH. apply step_keeps_executed; [rewrite IH | rewrite IH |]; assumption.
Qed.

(** Every operation but [createWill] stops at [willNotExecuted] when the
    will it addresses has been executed. *)
Lemma exec_on_executed s e c :
  match c with
  | CreateWill _ _ => True
  | ExecuteWill t =>
      testator (getWill s t) <> 0 -> executed (getWill s t) = true ->
      exec s e c = Fail WillExecutedError
  | _ =>
      testator (getWill s (sender e)) <> 0 ->
      executed (getWill s (sender e)) = true ->
      exec s e c = Fail WillExecutedError
  end.
Proof.
  destruct c; cbn [exec]; try exact I; intros Ht Hx;
    unfold executeWill, addBeneficiary, updateBeneficiary, removeBeneficiary,
      depositLocked, depositFlexible, withdrawFlexible, checkIn;
    rewrite willExists_pass by exact Ht; rewrite bind_Ok_l; cbn beta;
    rewrite willNotExecuted_stop by exact Hx; reflexivity.
Qed.

(** C5.  After a successful [executeWill] both vaults are 0 and [executed]
    is set.  In every state that follows, the will is exactly as execution
    left it, and every [depositLocked], [depositFlexible],
    [withdrawFlexible], [addBeneficiary], [updateBeneficiary],
    [removeBeneficiary] and [checkIn] by the testator, like every further
    [executeWill] of that will by anyone, fails with "Will already
    executed" and changes nothing. *)
Theorem executed_is_terminal s e t rc :
  executeWill s e t = Ok rc ->
  (lockedVault (getWill (post rc) t) = 0 /\
   flexibleVault (getWill (post rc) t) = 0 /\
   executed (getWill (post rc) t) = true) /\
  forall s2, successor (post rc) s2 ->
    getWill s2 t = getWill (post rc) t /\
    executed (getWill s2 t) = true /\
    (forall e2 v, sender e2 = t ->
       depositLocked s2 e2 v = Fail WillExecutedError /\
       depositFlexible s2 e2 v = Fail WillExecutedError /\
       withdrawFlexible s2 e2 v = Fail WillExecutedError) /\
    (forall e2 b sh g, sender e2 = t ->
       addBeneficiary s2 e2 b sh g = Fail WillExecutedError /\
       updateBeneficiary s2 e2 b sh g = Fail WillExecutedError /\
       removeBeneficiary s2 e2 b = Fail WillExecutedError) /\
    (forall e2, sender e2 = t -> checkIn s2 e2 = Fail WillExecutedError) /\
    (forall e2, executeWill s2 e2 t = Fail WillExecutedError) /\
    (forall e2 c, getWill (after s2 (exec s2 e2 c)) t = getWill s2 t).
Proof.
  intros Hrun. apply executeWill_Ok in Hrun. cbn zeta in Hrun.
  destruct Hrun as (Ht & _ & Hpost & _).
  assert (Hw : getWill (post rc) t = settled (getWill s t)).
  { rewrite Hpost. apply getWill_insert_eq. }
  split; [rewrite Hw; cbn; auto|].
  intros s2 Hs2.
  assert (Hsame : getWill s2 t = getWill (post rc) t).
  { apply successor_keeps_executed; [rewrite Hw; exact Ht | rewrite Hw; reflexivity
                                    | exact Hs2]. }
  assert (Ht2 : testator (getWill s2 t) <> 0) by (rewrite Hsame, Hw; exact Ht).
  assert (Hx2 : executed (getWill s2 t) = true) by (rewrite Hsame, Hw; reflexivity).
  split; [exact Hsame|]. split; [exact Hx2|].
  split; [|split; [|split; [|split]]].
  - intros e2 v <-. split; [|split].
    + apply (exec_on_executed s2 e2 (DoDepositLocked v)); assumption.
    + apply (exec_on_executed s2 e2 (DoDepositFlexible v)); assumption.
    + apply (exec_on_executed s2 e2 (DoWithdrawFlexible v)); assumption.
  - intros e2 b sh g <-. split; [|split].
    + apply (exec_on_executed s2 e2 (AddBeneficiary b sh g)); assumption.
    + apply (exec_on_executed s2 e2 (UpdateBeneficiary b sh g)); assumption.
    + apply (exec_on_executed s2 e2 (RemoveBeneficiary b)); assumption.
  - intros e2 <-. apply (exec_on_executed s2 e2 DoCheckIn); assumption.
  - intros e2. apply (exec_on_executed s2 e2 (ExecuteWill t)); assumption.
  - intros e2 c. apply step_keeps_executed; [assumption | assumption |].
    exists e2, c. reflexivity.
Qed.

(** The scenario after execution, and after an unrelated later transaction. *)
Lemma executed_is_terminal_witness :
  (lockedVault (getWill distributed alice) = 0 /\
   flexibleVault (getWill distributed alice) = 0 /\
   executed (getWill distributed alice) = true) /\
  getWill afterwards alice = getWill distributed alice /\
  depositLocked afterwards (envOf alice 4000001) 7 = Fail WillExecutedError /\
  withdrawFlexible afterwards (envOf alice 4000001) 1 = Fail WillExecutedError /\
  addBeneficiary afterwards (envOf alice 4000001) mallory 1 false
    = Fail WillExecutedError /\
  checkIn afterwards (envOf alice 4000001) = Fail WillExecutedError.
Proof.
  assert (Hrun : exists rc,
             executeWill funded (envOf bob (scenarioDisputeEnd + 1)) alice = Ok rc
             /\ post rc = distributed).
  { eexists. split; [vm_compute; reflexivity|]. vm_compute. reflexivity. }
  destruct Hrun as (rc & Hrun & Hpost).
  destruct (executed_is_terminal _ _ _ _ Hrun) as (Hzero & Hlater).
  rewrite Hpost in Hzero, Hlater.
  assert (Hsucc : successor distributed afterwards).
  { eapply successor_step; [apply successor_refl|].
    exists (envOf mallory 4000000), (CreateWill 86400 3600). reflexivity. }
  destruct (Hlater afterwards Hsucc) as (Hsame & _ & Hvault & Hben & Hcheck & _).
  split; [exact Hzero|]. split; [exact Hsame|].
  destruct (Hvault (envOf alice 4000001) 7 eq_refl) as (Hd & _ & _).
  destruct (Hvault (envOf alice 4000001) 1 eq_refl) as (_ & _ & Hwd).
  destruct (Hben (envOf alice 4000001) mallory 1 false eq_refl) as (Hadd & _ & _).
  split; [exact Hd|]. split; [exact Hwd|]. split; [exact Hadd|].
  apply Hcheck. reflexivity.
Defined.

(** *** Vault custody *)

Lemma withdrawFlexible_Ok s e amount rc :
  withdrawFlexible s e amount = Ok rc ->
  let w := getWill s (sender e) in
  0 < amount <= flexibleVault w /\
  post rc = <[sender e := setFlexible w (flexibleVault w - amount)]> s /\
  transfers rc = [(sender e, amount)].
Proof.
  unfold withdrawFlexible. intros H. peel. cbn. split; [lia|]. auto.
Qed.

(** C7.  [withdrawFlexible] fails whenever the amount exceeds the flexible
    balance (with "Insufficient flexible vault balance" for a live will);
    when it succeeds it lowers the flexible balance by the amount, pays the
    testator that amount and changes nothing else; no call other than
    [executeWill] lowers any will's locked balance, and a successful
    [executeWill] sets it to 0. *)
Theorem locked_vault_guarantee :
  (forall s e amount,
     let w := getWill s (sender e) in
     flexibleVault w < amount ->
     (exists f, withdrawFlexible s e amount = Fail f) /\
     after s (withdrawFlexible s e amount) = s /\
     (testator w <> 0 -> executed w = false -> 0 <= flexibleVault w ->
      withdrawFlexible s e amount = Fail InsufficientBalance)) /\
  (forall s e amount rc,
     withdrawFlexible s e amount = Ok rc ->
     let w := getWill s (sender e) in
     getWill (post rc) (sender e) = setFlexible w (flexibleVault w - amount) /\
     lockedVault (getWill (post rc) (sender e)) = lockedVault w /\
     (forall a, a <> sender e -> getWill (post rc) a = getWill s a) /\
     transfers rc = [(sender e, amount)]) /\
  (forall s e c a,
     (forall t, c <> ExecuteWill t) ->
     lockedVault (getWill s a) <= lockedVault (getWill (after s (exec s e c)) a)) /\
  (forall s e t rc,
     executeWill s e t = Ok rc -> lockedVault (getWill (post rc) t) = 0).
Proof.
  split; [|split; [|split]].
  - intros s e amount w Hover.
    assert (Hfail : exists f, withdrawFlexible s e amount = Fail f).
    { destruct (withdrawFlexible s e amount) as [rc|f] eqn:Hx; [|eauto].
      apply withdrawFlexible_Ok in Hx. fold w in Hx. cbn zeta in Hx. lia. }
    split; [exact Hfail|]. split.
    { destruct Hfail as [f ->]. reflexivity. }
    intros Ht Hx Hpos. unfold withdrawFlexible.
    rewrite willExists_pass by exact Ht. rewrite bind_Ok_l; cbn beta.
    rewrite willNotExecuted_pass by exact Hx. rewrite bind_Ok_l; cbn beta.
    fold w. rewrite (require_true (0 <? amount)) by lia.
    rewrite bind_Ok_l; cbn beta.
    rewrite (require_false (amount <=? flexibleVault w)) by lia. reflexivity.
  - intros s e amount rc H w. apply withdrawFlexible_Ok in H. fold w in H.
    cbn zeta in H. destruct H as (_ & -> & ->).
    rewrite getWill_insert_eq. repeat split; try reflexivity.
    intros a Ha. apply getWill_insert_ne. congruence.
  - intros s e c a Hc.
    destruct (exec s e c) as [rc|f] eqn:Hrun; cbn [after]; [|lia].
    destruct (exec_frame s e c rc Hrun) as (k & w' & -> & _ & Hlock).
    rewrite getWill_insert. destruct (decide (k = a)) as [<-|]; [|lia].
    destruct Hlock as [Hle | [t ->]]; [exact Hle|]. exfalso. eapply Hc. reflexivity.
  - intros s e t rc H. apply executeWill_Ok in H. cbn zeta in H.
    destruct H as (_ & _ & -> & _). rewrite getWill_insert_eq. reflexivity.
Qed.

(** alice cannot take 6 from her flexible 5; taking 2 leaves 3 and the
    locked 10; no deposit of hers lowers the locked 10. *)
Lemma locked_vault_guarantee_witness :
  withdrawFlexible funded (envOf alice 2000) 6 = Fail InsufficientBalance /\
  (exists rc, withdrawFlexible funded (envOf alice 2000) 2 = Ok rc /\
     flexibleVault (getWill (post rc) alice) = 3 /\
     lockedVault (getWill (post rc) alice) = 10) /\
  10 <= lockedVault (getWill (transact funded (envOf alice 2000)
                                (DoDepositFlexible 4)) alice) /\
  lockedVault (getWill distributed alice) = 0.
Proof.
  destruct locked_vault_guarantee as (Hover & Hdraw & Hmono & Hexec).
  split; [|split; [|split]].
  - apply (Hover funded (envOf alice 2000) 6); cbn [sender envOf];
      rewrite funded_alice; cbn; unfold alice; (lia || reflexivity).
  - destruct (withdrawFlexible funded (envOf alice 2000) 2) as [rc|f] eqn:Hrun;
      [|vm_compute in Hrun; discriminate].
    exists rc. split; [reflexivity|].
    destruct (Hdraw funded (envOf alice 2000) 2 rc Hrun) as (Hw & Hl & _).
    cbn [sender envOf] in Hw, Hl. rewrite funded_alice in Hw, Hl.
    rewrite Hw. split; reflexivity.
  - assert (Hten : lockedVault (getWill funded alice) = 10)
      by (rewrite funded_alice; reflexivity).
    rewrite <- Hten at 1.
    apply (Hmono funded (envOf alice 2000) (DoDepositFlexible 4) alice).
    intros t. discriminate.
  - assert (Hrun : exists rc,
               executeWill funded (envOf bob (scenarioDisputeEnd + 1)) alice = Ok rc
               /\ post rc = distributed).
    { eexists. split; [vm_compute; reflexivity|]. vm_compute. reflexivity. }
    destruct Hrun as (rc & Hrun & <-). apply (Hexec _ _ _ _ Hrun).
Defined.

End ContractFacts.

Module ReentrancyFacts.
Import Contract Reentrancy.

(** *** Wallets that do not call back

    With such wallets, and a balance that covers the payments, a call runs
    as [Contract] has it. *)

Lemma distribute_positive e total bs paid :
  distribute e total bs = Ok paid -> Forall (fun p => 0 < p.2) paid.
Proof.
  revert paid. induction bs as [|b bs IH]; intros paid H; cbn [distribute] in H.
  - injection H as <-. constructor.
  - peel. destruct (Z.ltb_spec 0 (total * share b / 100)) as [Hpos|Hle].
    + peel. constructor; [exact Hpos | apply IH; assumption].
    + apply IH. assumption.
Qed.

Lemma totalPaid_nonneg paid : Forall (fun p => 0 < p.2) paid -> 0 <= totalPaid paid.
Proof.
  induction 1 as [|p paid Hp _ IH]; cbn; [lia|].
  unfold totalPaid in IH. lia.
Qed.

Lemma payLoop_quiet nested reaction e t totalFunds :
  (forall w v, callbacks (reaction w v) = []) ->
  (forall w v, accepts e w v = accepted (reaction w v)) ->
  forall gas i c paid,
    distribute e totalFunds (drop i (beneficiaries (getWill (wills c) t))) = Ok paid ->
    totalPaid paid <= balance c ->
    (length (beneficiaries (getWill (wills c) t)) - i < gas)%nat ->
    payLoop nested reaction t totalFunds gas i c =
    Ok {| final := {| wills := wills c; balance := balance c - totalPaid paid |};
          sent := paid; emitted := [] |}.
Proof.
  intros Hq Ha. induction gas as [|gas IH]; intros i c paid Hd Hb Hg; [lia|].
  cbn [payLoop].
  destruct (beneficiaries (getWill (wills c) t) !! i) as [b|] eqn:Hi.
  - rewrite (drop_S _ _ _ Hi) in Hd. cbn [distribute] in Hd.
    destruct (checked_mul totalFunds (share b)) as [p|] eqn:Hp; [|discriminate].
    cbn [mbind Result_bind] in Hd |- *.
    assert (Hlen : (i < length (beneficiaries (getWill (wills c) t)))%nat)
      by (eapply lookup_lt_Some; eassumption).
    destruct (0 <? p / 100) eqn:Hpos.
    + destruct (accepts e (wallet b) (p / 100)) eqn:Hacc; [|discriminate].
      cbn [require mbind Result_bind] in Hd.
      destruct (distribute e totalFunds
                  (drop (S i) (beneficiaries (getWill (wills c) t))))
        as [rest|] eqn:Hrest; [|discriminate].
      cbn [mbind Result_bind] in Hd. injection Hd as <-.
      pose proof (totalPaid_nonneg _ (distribute_positive _ _ _ _ Hrest)) as Hnn.
      cbn [totalPaid foldr snd] in Hb. fold (totalPaid rest) in Hb.
      unfold send. rewrite Ha in Hacc.
      destruct (Z.leb_spec (p / 100) (balance c)); [|lia].
      rewrite Hacc, Hq. cbn [recall idle final sent emitted].
      rewrite (IH (S i) {| wills := wills c; balance := balance c - p / 100 |} rest);
        cbn [wills balance]; [|assumption|lia|lia].
      cbn [mbind Result_bind final sent emitted app totalPaid foldr snd].
      fold (totalPaid rest). do 3 f_equal. lia.
    + apply (IH (S i) c paid); [assumption|assumption|lia].
  - apply lookup_ge_None in Hi. rewrite drop_ge in Hd by lia.
    cbn in Hd. injection Hd as <-. cbn. unfold idle. destruct c; cbn.
    do 3 f_equal. lia.
Qed.

Lemma send_quiet nested reaction w v c :
  callbacks (reaction w v) = [] -> accepted (reaction w v) = true ->
  v <= balance c ->
  send nested reaction w v c =
  Some {| final := {| wills := wills c; balance := balance c - v |};
          sent := [(w, v)]; emitted := [] |}.
Proof.
  intros Hq Ha Hv. unfold send.
  destruct (Z.leb_spec v (balance c)); [|lia].
  rewrite Ha, Hq. reflexivity.
Qed.

Lemma exec_sends_nothing s e call rc :
  exec s e call = Ok rc ->
  (forall t, call <> ExecuteWill t) ->
  (forall amount, call <> DoWithdrawFlexible amount) ->
  transfers rc = [].
Proof.
  intros H Hx Hw. destruct call; cbn [exec] in H;
    try (exfalso; eapply Hx; reflexivity);
    try (exfalso; eapply Hw; reflexivity).
  - unfold createWill in H. peel. reflexivity.
  - unfold addBeneficiary in H. peel. reflexivity.
  - unfold updateBeneficiary in H. peel.
    destruct (beneficiaries _ !! _); [|discriminate]. peel. reflexivity.
  - unfold removeBeneficiary in H. peel.
    destruct (beneficiaries _ !! _); [|discriminate].
    destruct (decide _); [|discriminate]. peel. reflexivity.
  - unfold depositLocked in H. peel. reflexivity.
  - unfold depositFlexible in H. peel. reflexivity.
  - unfold checkIn in H. peel. reflexivity.
Qed.

(** A successful call of [Contract] whose payments the balance covers is,
    given gas for the loop, the same call among wallets that do not call
    back. *)
Lemma enter_quiet react now gas c who call rc :
  quiet react ->
  exec (wills c)
    {| sender := who; timestamp := now;
       accepts := fun w v => accepted (react gas w v) |} call = Ok rc ->
  totalPaid (transfers rc) <= balance c ->
  (forall t, call = ExecuteWill t ->
     (length (beneficiaries (getWill (wills c) t)) < gas)%nat) ->
  enter react now (S gas) c who call =
  Ok {| final := {| wills := post rc;
                    balance := balance c + msgValue call
                               - totalPaid (transfers rc) |};
        sent := transfers rc; emitted := logs rc |}.
Proof.
  intros Hq H Hb Hg.
  set (e := {| sender := who; timestamp := now;
               accepts := fun w v => accepted (react gas w v) |}) in *.
  destruct call as [cip dp|t|b sh g|b sh g|b|v|v|amount|].
  3-7,9: (assert (Hs : transfers rc = [])
      by (eapply exec_sends_nothing; [exact H | discriminate | discriminate]);
      cbn [enter]; change (exec (wills c) (envOf who now) ?k)
        with (exec (wills c) e k); rewrite H; cbn [mbind Result_bind];
      rewrite Hs; cbn [totalPaid foldr]; do 3 f_equal; lia).
  - assert (Hs : transfers rc = [])
      by (eapply exec_sends_nothing; [exact H | discriminate | discriminate]).
    cbn [enter]. change (exec (wills c) (envOf who now) ?k)
        with (exec (wills c) e k). rewrite H. cbn [mbind Result_bind].
    rewrite Hs. cbn [totalPaid foldr]. do 3 f_equal. lia.
  - specialize (Hg t eq_refl). cbn [exec] in H. cbn [enter msgValue].
    unfold Contract.executeWill in H. unfold executeWill.
    cbn [sender timestamp e] in H.
    repeat match type of H with
    | (?m ≫= _) = Ok _ =>
        lazymatch m with
        | distribute _ _ _ => fail
        | _ => destruct m eqn:?; [cbn [mbind Result_bind] in H |- * | discriminate H]
        end
    end.
    destruct (distribute e _ _) as [paid|] eqn:Hd; [|discriminate].
    cbn [mbind Result_bind] in H. injection H as <-.
    cbn [transfers post logs] in *.
    rewrite (payLoop_quiet _ (react gas) e t _ (Hq gas) (fun _ _ => eq_refl)
               gas 0%nat c paid); [|exact Hd|exact Hb|lia].
    cbn [mbind Result_bind final wills balance sent emitted app].
    unfold settled. do 3 f_equal. lia.
  - cbn [exec] in H. cbn [enter msgValue].
    unfold Contract.withdrawFlexible in H. unfold withdrawFlexible.
    cbn [sender timestamp accepts e] in H.
    repeat match type of H with
    | (?m ≫= _) = Ok _ =>
        lazymatch m with
        | require (accepted _) _ => fail
        | _ => destruct m eqn:?; [cbn [mbind Result_bind] in H |- * | discriminate H]
        end
    end.
    destruct (accepted (react gas who amount)) eqn:Ha; [|discriminate].
    cbn [require mbind Result_bind] in H. injection H as <-.
    cbn [transfers post logs totalPaid foldr snd] in *.
    rewrite send_quiet; [|apply Hq|exact Ha|cbn [balance]; lia].
    cbn [final wills balance sent emitted app]. do 3 f_equal. lia.
Qed.

(** *** A wallet that calls back *)

(** C4.  The payout of [executeWill] with a beneficiary whose wallet calls
    back.  In the scenario (alice's will: 10 locked, 5 flexible, bob 60%,
    guardian gina 40%; the contract also holds mallory's 20) bob calls
    [executeWill(alice)] one second after the dispute period.  With wallets
    that run no code the call sends 9 to bob and 6 to gina.  With a wallet
    of bob's that calls [executeWill(alice)] again on receipt, the same
    call succeeds and sends 9 to bob twice and 6 to gina twice: [executed]
    is still false while the loop runs, so the inner call passes
    [willNotExecuted].  Thirty units leave against a will that held
    fifteen; mallory's vault still reads 20 and the contract holds 5. *)
Theorem reentering_beneficiary_is_paid_twice :
  let now := scenarioDisputeEnd + 1 in
  let will := getWill (wills pooled) alice in
  balance pooled = 35 /\
  lockedVault will = 10 /\ flexibleVault will = 5 /\ executed will = false /\
  payouts 15 (beneficiaries will) = [(bob, 9); (gina, 6)] /\
  (exists tr,
     enter plain now 10 pooled bob (ExecuteWill alice) = Ok tr /\
     sent tr = [(bob, 9); (gina, 6)] /\
     emitted tr = [WillExecuted alice 15] /\
     balance (final tr) = 20) /\
  (exists tr,
     enter greedy now 10 pooled bob (ExecuteWill alice) = Ok tr /\
     sent tr = [(bob, 9); (bob, 9); (gina, 6); (gina, 6)] /\
     emitted tr = [WillExecuted alice 15; WillExecuted alice 15] /\
     totalPaid (sent tr) = 30 /\
     getWill (wills (final tr)) alice = settled will /\
     lockedVault (getWill (wills (final tr)) mallory) = 20 /\
     balance (final tr) = 5).
Proof.
  cbv zeta. repeat split; try (vm_compute; reflexivity).
  - eexists. split; [vm_compute; reflexivity|].
    repeat split; vm_compute; reflexivity.
  - eexists. split; [vm_compute; reflexivity|].
    repeat split; vm_compute; reflexivity.
Qed.

End ReentrancyFacts.

(** * The query API *)

Module ApiFacts.
Import Projection Api.

Lemma omap_all_None {A B} (f : A -> option B) (l : list A) :
  (forall x, x ∈ l -> f x = None) -> omap f l = [].
Proof.
  induction l as [|a l IH]; intros H; cbn; [reflexivity|].
  rewrite (H a) by apply list_elem_of_here.
  apply IH. intros x Hx. apply H. apply list_elem_of_further, Hx.
Qed.

Lemma filter_all_out {A} (P : A -> Prop) `{forall x, Decision (P x)} (l : list A) :
  (forall x, x ∈ l -> ~ P x) -> filter P l = [].
Proof.
  induction l as [|a l IH]; intros Hn; [reflexivity|].
  rewrite filter_cons_False by (apply Hn, list_elem_of_here).
  apply IH. intros x Hx. apply Hn. apply list_elem_of_further, Hx.
Qed.

Section Unknown.
Variables (db : DB) (address : string).
Hypothesis Hunknown : unknownTo db address.

Lemma getWillsByTestator_unknown : getWillsByTestator address db = [].
Proof.
  destruct Hunknown as (_ & Ht & _).
  unfold getWillsByTestator. apply filter_all_out.
  intros [k r] Hin. apply elem_of_map_to_list in Hin. cbn. eapply Ht, Hin.
Qed.

Lemma getWillsByBeneficiary_unknown : getWillsByBeneficiary address db = [].
Proof.
  destruct Hunknown as (_ & _ & Hb & _).
  unfold getWillsByBeneficiary. apply omap_all_None.
  intros [[w b] r] Hin. apply elem_of_map_to_list in Hin. cbn.
  destruct (decide (b = toLowerCase address)) as [->|]; [|reflexivity].
  destruct (Hb _ _ _ Hin) as [_ Hne]. congruence.
Qed.

Lemma getVaults_unknown : getVaults address db = [].
Proof.
  destruct Hunknown as (_ & _ & _ & Hv & _).
  unfold getVaults. apply omap_all_None.
  intros [[w vt] v] Hin. apply elem_of_map_to_list in Hin. cbn.
  destruct (decide (w = toLowerCase address)) as [->|]; [|reflexivity].
  exfalso. eapply Hv; eauto.
Qed.

Lemma getDocuments_unknown : getDocuments address db = [].
Proof.
  destruct Hunknown as (_ & _ & _ & _ & Hd).
  unfold getDocuments. rewrite omap_all_None; [reflexivity|].
  intros [[w h] r] Hin. apply elem_of_map_to_list in Hin. cbn.
  destruct (decide (w = toLowerCase address)) as [->|]; [|reflexivity].
  exfalso. eapply Hd; eauto.
Qed.

Lemma getWillDetails_unknown : getWillDetails address db = None.
Proof.
  destruct Hunknown as (Hw & _). unfold getWillDetails. rewrite Hw. reflexivity.
Qed.

Lemma getDocumentByHash_unknown h : getDocumentByHash address h db = None.
Proof.
  destruct Hunknown as (_ & _ & _ & _ & Hd). unfold getDocumentByHash.
  destruct (Documents db !! (toLowerCase address, h)) as [r|] eqn:Hr;
    [|reflexivity].
  exfalso. eapply Hd; eauto.
Qed.
End Unknown.

Lemma fresh_unknown address : unknownTo fresh address.
Proof.
  unfold unknownTo, fresh. cbn.
  repeat split; intros; try (rewrite lookup_empty in *; discriminate).
Qed.

(** C9 as the routes implement it.  A request with a malformed parameter
    is answered 400 with one message whatever the store and the mode are
    (so before any lookup).  A failing store yields 500 with the route's
    fixed message, the driver's text attached as details only in
    development mode.  On a working store [/will/{id}] and
    [/documents/{willId}/{hash}] answer 404 exactly when the row they look
    up is not there, whatever else the replica holds; every other request
    is answered 200 with data, and the collection routes,
    [/vaults/{willId}] among them, list nothing for an identity that no
    row mentions. *)
Theorem api_error_contract :
  (forall req,
     wellFormed req = false ->
     exists message, forall development store,
       serve development store req = clientError 400 message) /\
  (forall development thrown req,
     wellFormed req = true ->
     serve development (Down thrown) req =
     {| status := 500;
        body := Error (failureMessage req)
                  (if development then Some thrown else None) |}) /\
  (forall development db req,
     wellFormed req = true ->
     if missing db req
     then singleResource req = true /\
          serve development (Up db) req = clientError 404 (notFoundMessage req)
     else status (serve development (Up db) req) = 200 /\
          exists p, body (serve development (Up db) req) = Data p /\
            (singleResource req = false -> unknownTo db (identity req) ->
             emptyPayload p)).
Proof.
  split; [|split].
  - intros [t|b|id|b|w|w|w h]; unfold wellFormed; cbn [identity serve];
      intros Hbad;
      unfold getWills, getWillsOfBeneficiary, getWill, getBeneficiaries,
        getVaultsRoute, getDocumentsRoute, getDocumentRoute;
      try (rewrite andb_true_r in Hbad; rewrite Hbad; cbn [negb];
           eexists; intros; reflexivity).
    destruct (isValidAddress w); cbn [negb andb] in Hbad |- *.
    + rewrite Hbad. cbn [negb]. eexists. intros. reflexivity.
    + eexists. intros. reflexivity.
  - intros development thrown [t|b|id|b|w|w|w h]; unfold wellFormed;
      cbn [identity serve]; intros Hok; apply andb_true_iff in Hok;
      destruct Hok as [Hid Hh];
      unfold getWills, getWillsOfBeneficiary, getWill, getBeneficiaries,
        getVaultsRoute, getDocumentsRoute, getDocumentRoute;
      rewrite Hid; try rewrite Hh; reflexivity.
  - intros development db [t|b|id|b|w|w|w h]; unfold wellFormed;
      cbn [identity serve singleResource missing notFoundMessage]; intros Hok;
      apply andb_true_iff in Hok; destruct Hok as [Hid Hh];
      unfold getWills, getWillsOfBeneficiary, getWill, getBeneficiaries,
        getVaultsRoute, getDocumentsRoute, getDocumentRoute;
      rewrite Hid; try rewrite Hh; cbn [negb query].
    + split; [reflexivity|]. eexists. split; [reflexivity|]. intros _ Hunk.
      rewrite (getWillsByTestator_unknown db t Hunk). cbn. auto.
    + split; [reflexivity|]. eexists. split; [reflexivity|]. intros _ Hunk.
      rewrite (getWillsByBeneficiary_unknown db b Hunk). cbn. auto.
    + unfold getWillDetails.
      destruct (Wills db !! toLowerCase id) as [r|]; [|split; reflexivity].
      split; [reflexivity|]. eexists. split; [reflexivity|]. discriminate.
    + split; [reflexivity|]. eexists. split; [reflexivity|]. intros _ Hunk.
      unfold getBeneficiaryWills.
      rewrite (getWillsByBeneficiary_unknown db b Hunk). cbn. auto.
    + split; [reflexivity|]. eexists. split; [reflexivity|]. intros _ Hunk.
      rewrite (getVaults_unknown db w Hunk). reflexivity.
    + split; [reflexivity|]. eexists. split; [reflexivity|]. intros _ Hunk.
      rewrite (getDocuments_unknown db w Hunk). cbn. auto.
    + unfold getDocumentByHash.
      destruct (Documents db !! (toLowerCase w, h)) as [r|]; [|split; reflexivity].
      split; [reflexivity|]. eexists. split; [reflexivity|]. discriminate.
Qed.

(** On the replica of the sample will (testator [addrA], beneficiary
    [addrB], one document): a malformed hash is rejected alike by a dead
    store and a live one; a dead store gives the route's message, with the
    driver's text only in development mode; [/will] of the beneficiary,
    who has no will, and [/documents] of the testator with a hash not
    stored are answered 404; [/will] of the testator is answered 200. *)
Lemma api_error_contract_witness :
  let db := written (run (backfilled (deliveredAt 1000 fullEvents)) fresh) in
  let stored := "QmYwAPJzv5CZsnA625s3Xf2nemtYgPpHdWEz79ojWnPbdG" in
  let other := "QmYwAPJzv5CZsnA625s3Xf2nemtYgPpHdWEz79ojWnPbdH" in
  serve false (Down "SQLITE_BUSY") (GetDocument addrA "Qm12") =
    serve true (Up db) (GetDocument addrA "Qm12") /\
  serve false (Down "SQLITE_BUSY") (GetWill addrA) =
    {| status := 500; body := Error "Failed to fetch will details" None |} /\
  serve true (Down "SQLITE_BUSY") (GetVaults addrA) =
    {| status := 500;
       body := Error "Failed to fetch vault balances" (Some "SQLITE_BUSY") |} /\
  serve false (Up db) (GetWill addrB) = clientError 404 "Will not found" /\
  serve false (Up db) (GetDocument addrA other) =
    clientError 404 "Document not found" /\
  status (serve false (Up db) (GetWill addrA)) = 200 /\
  status (serve false (Up db) (GetDocument addrA stored)) = 200.
Proof.
  intros db stored other.
  destruct api_error_contract as (Hbad & Hdown & Hup).
  split; [|split; [|split; [|split; [|split; [|split]]]]].
  - destruct (Hbad (GetDocument addrA "Qm12")) as [message Hm];
      [vm_compute; reflexivity|].
    rewrite (Hm false), (Hm true). reflexivity.
  - apply (Hdown false "SQLITE_BUSY" (GetWill addrA)). vm_compute. reflexivity.
  - apply (Hdown true "SQLITE_BUSY" (GetVaults addrA)). vm_compute. reflexivity.
  - pose proof (Hup false db (GetWill addrB) eq_refl) as H.
    assert (Hm : missing db (GetWill addrB) = true) by (vm_compute; reflexivity).
    rewrite Hm in H. apply H.
  - assert (Hw : wellFormed (GetDocument addrA other) = true)
      by (vm_compute; reflexivity).
    pose proof (Hup false db (GetDocument addrA other) Hw) as H.
    assert (Hm : missing db (GetDocument addrA other) = true)
      by (vm_compute; reflexivity).
    rewrite Hm in H. apply H.
  - pose proof (Hup false db (GetWill addrA) eq_refl) as H.
    assert (Hm : missing db (GetWill addrA) = false) by (vm_compute; reflexivity).
    rewrite Hm in H. apply H.
  - assert (Hw : wellFormed (GetDocument addrA stored) = true)
      by (vm_compute; reflexivity).
    pose proof (Hup false db (GetDocument addrA stored) Hw) as H.
    assert (Hm : missing db (GetDocument addrA stored) = false)
      by (vm_compute; reflexivity).
    rewrite Hm in H. apply H.
Defined.

(** C9 as stated fails on [/vaults/{willId}]: a well-formed address that
    names no will is answered 200, not 404. *)
Lemma api_vaults_unknown_is_not_404 :
  isValidAddress addrA = true /\
  Wills fresh !! toLowerCase addrA = None /\
  status (serve false (Up fresh) (GetVaults addrA)) = 200 /\
  status (serve false (Up fresh) (GetVaults addrA)) <> 404.
Proof.
  split; [vm_compute; reflexivity|]. split; [reflexivity|].
  split; [vm_compute; reflexivity|]. vm_compute. discriminate.
Qed.

End ApiFacts.

(** * The projection *)

Module ProjectionFacts.
Import Projection.

(** *** The handlers, table by table *)

Lemma Number_small x : Z.abs x < 2 ^ 53 -> Number x = x.
Proof. intros H. unfold Number. rewrite (proj2 (Z.ltb_lt _ _) H). reflexivity. Qed.

Lemma onEvent_tables now ev db :
  isDocumentAdded ev = false -> onEvent now ev db = applied now ev db.
Proof.
  intros Hdoc. unfold applied.
  destruct db as [W B bs V D ds].
  destruct ev as [t cip dp|t ts|t tot|t b sh g|t b|t b sh g|t a|t a|t a|t dl
                 |t h name type ts|t h|name]; try discriminate Hdoc;
    unfold known; cbn [willOf onEvent]; cbn;
    unfold caught, addBeneficiary, updateBeneficiary, updateVaultBalance,
      addDocument, updateGuardian, setBeneficiaries, setWills, setVaults,
      setDocuments, clampBalance; cbn;
    try reflexivity.
  - destruct (W !! toLowerCase t) as [r|] eqn:Hr; cbn; destruct g;
      try reflexivity.
    rewrite alter_id' by exact Hr. reflexivity.
  - destruct g; reflexivity.
  - destruct (W !! toLowerCase t) as [r|] eqn:Hr; reflexivity.
  - destruct (W !! toLowerCase t) as [r|] eqn:Hr; reflexivity.
  - destruct (W !! toLowerCase t) as [r|] eqn:Hr; reflexivity.
Qed.

Lemma addDocument_applied now t h name type (ts : option Z) db :
  known db (DocumentAdded t h name type ts) = true ->
  addDocument t h name type (default now ts) db
  = Some (applied now (DocumentAdded t h name type ts) db).
Proof.
  unfold known. cbn [willOf]. intros Hk.
  apply bool_decide_eq_true_1 in Hk. destruct Hk as [r Hr].
  unfold applied, known, addDocument. cbn [willOf].
  rewrite Hr. rewrite bool_decide_eq_true_2 by eauto.
  destruct db; reflexivity.
Qed.

Lemma addDocument_unknown now t h name type (ts : option Z) uploaded db :
  known db (DocumentAdded t h name type ts) = false ->
  addDocument t h name type uploaded db = None /\
  applied now (DocumentAdded t h name type ts) db = db.
Proof.
  unfold known. cbn [willOf]. intros Hk.
  apply bool_decide_eq_false_1 in Hk.
  destruct (Wills db !! toLowerCase t) as [r|] eqn:Hr; [exfalso; eauto|].
  unfold applied, known, addDocument. cbn [willOf]. rewrite Hr.
  split; [reflexivity|].
  rewrite bool_decide_eq_false_2 by (intros [? ?]; discriminate).
  destruct db; reflexivity.
Qed.

(** Every turn either ends the process, the database untouched, or
    applies the update of its [effect]. *)
Lemma onTurn_applied now turn db :
  onTurn now turn db
  = if exits turn db then Exited db
    else Running (from_option (fun ev => applied now ev db) db (effect turn)).
Proof.
  destruct turn as [ev|ev|ev]; cbn [onTurn exits effect].
  - destruct (isDocumentAdded ev) eqn:Hdoc; cbn [from_option].
    + destruct ev; try discriminate Hdoc. reflexivity.
    + rewrite onEvent_tables by exact Hdoc. reflexivity.
  - destruct ev as [t cip dp|t ts|t tot|t b sh g|t b|t b sh g|t a|t a|t a|t dl
                   |t h name type ts|t h|name]; try reflexivity.
    cbn [isDocumentAdded onBlock andb from_option].
    destruct (known db (DocumentAdded t h name type ts)) eqn:Hk; cbn [negb].
    + pose proof (addDocument_applied now t h name type ts db Hk) as Ha.
      destruct ts as [ts|]; cbn [default from_option id] in Ha; rewrite Ha;
        reflexivity.
    + destruct (addDocument_unknown now t h name type ts now db Hk) as [Hn _].
      destruct ts as [ts|]; [|rewrite Hn; reflexivity].
      destruct (addDocument_unknown now t h name type (Some ts) ts db Hk) as [Hn' _].
      rewrite Hn', Hn. reflexivity.
  - destruct ev as [t cip dp|t ts|t tot|t b sh g|t b|t b sh g|t a|t a|t a|t dl
                   |t h name type [ts|]|t h|name];
      cbn [from_option]; try reflexivity;
      try (change (processHistoricalEvent now ?e db) with (onEvent now e db);
           rewrite onEvent_tables by reflexivity; reflexivity).
    cbn [processHistoricalEvent].
    destruct (known db (DocumentAdded t h name type (Some ts))) eqn:Hk.
    + pose proof (addDocument_applied now t h name type (Some ts) db Hk) as Ha.
      cbn [default from_option id] in Ha. rewrite Ha. reflexivity.
    + destruct (addDocument_unknown now t h name type (Some ts) ts db Hk)
        as [Hn Hid].
      rewrite Hn, Hid. reflexivity.
Qed.

Lemma applied_unknown_document now t h name type ts db :
  known db (DocumentAdded t h name type ts) = false ->
  applied now (DocumentAdded t h name type ts) db = db.
Proof. intros Hk. apply (addDocument_unknown now t h name type ts 0 db Hk). Qed.

(** What a turn leaves in the database is the update of its effect,
    whether or not the process survives the turn. *)
Lemma written_onTurn now turn db :
  written (onTurn now turn db)
  = from_option (fun ev => applied now ev db) db (effect turn).
Proof.
  rewrite onTurn_applied. destruct (exits turn db) eqn:Hx; [|reflexivity].
  destruct turn as [ev|ev|ev]; try discriminate Hx. cbn in Hx |- *.
  destruct (isDocumentAdded ev) eqn:Hdoc; [|discriminate Hx]. cbn.
  destruct ev; try discriminate Hdoc.
  symmetry. apply applied_unknown_document.
  destruct (known db _); [discriminate Hx | reflexivity].
Qed.

Lemma onEvent_applied now ev db :
  onEvent now ev db
  = from_option (fun e => applied now e db) db (effect (Emitted ev)).
Proof. exact (written_onTurn now (Emitted ev) db). Qed.

Lemma processHistoricalEvent_applied now ev db :
  processHistoricalEvent now ev db
  = from_option (fun e => applied now e db) db (effect (Backfilled ev)).
Proof. exact (written_onTurn now (Backfilled ev) db). Qed.

(** An invariant of [applied] is an invariant of the three handlers, and
    of every run. *)
Lemma written_invariant (P : DB -> Prop) now turn db :
  (forall n ev d, P d -> P (applied n ev d)) ->
  P db -> P (written (onTurn now turn db)).
Proof.
  intros Hstep H. rewrite written_onTurn.
  destruct (effect turn); cbn; [apply Hstep, H | exact H].
Qed.

Lemma run_invariant (P : DB -> Prop) turns db :
  (forall n ev d, P d -> P (applied n ev d)) ->
  P db -> P (written (run turns db)).
Proof.
  intros Hstep. revert db.
  induction turns as [|d turns IH]; intros db H; [exact H|].
  cbn [run]. pose proof (written_invariant P d.1 d.2 db Hstep H) as Hd.
  destruct (onTurn d.1 d.2 db) as [db'|db']; cbn in Hd.
  - apply IH, Hd.
  - exact Hd.
Qed.

Lemma replay_invariant (P : DB -> Prop) (handler : Z -> Event -> DB -> DB)
    (ds : list (Z * Event)) (db : DB) :
  (forall n ev d, P d -> P (handler n ev d)) ->
  P db -> P (replay handler ds db).
Proof.
  intros Hstep. revert db.
  induction ds as [|d ds IH]; intros db H; [exact H|].
  cbn. apply IH, Hstep, H.
Qed.

Lemma onEvent_invariant (P : DB -> Prop) now ev db :
  (forall n e d, P d -> P (applied n e d)) -> P db -> P (onEvent now ev db).
Proof. intros Hstep H. exact (written_invariant P now (Emitted ev) db Hstep H). Qed.

(** *** Rows of [Wills] are never deleted *)

Lemma willsAfter_keeps now ev (W : gmap string WillRow) w :
  is_Some (W !! w) -> is_Some (willsAfter now ev W !! w).
Proof.
  intros Hw.
  destruct ev as [t cip dp|t ts|t tot|t b sh g|t b|t b sh g|t a|t a|t a|t dl
                 |t h name type ts|t h|name]; cbn; try assumption.
  - rewrite lookup_insert. destruct (decide (toLowerCase t = w)); eauto.
  - rewrite lookup_fmap. destruct Hw as [r ->]. cbn. eauto.
  - rewrite lookup_fmap. destruct Hw as [r ->]. cbn. eauto.
  - destruct g; [|assumption]. apply lookup_alter_is_Some. assumption.
  - apply lookup_alter_is_Some. assumption.
  - destruct g; [|assumption]. apply lookup_alter_is_Some. assumption.
Qed.

Lemma willsAfter_created now t cip dp (W : gmap string WillRow) :
  is_Some (willsAfter now (WillCreated t cip dp) W !! toLowerCase t).
Proof. cbn. rewrite lookup_insert_eq. eauto. Qed.

Lemma known_true db ev w :
  willOf ev = Some w -> known db ev = true -> is_Some (Wills db !! w).
Proof.
  unfold known. intros ->. apply bool_decide_eq_true_1.
Qed.

Lemma known_of db ev w :
  willOf ev = Some w -> is_Some (Wills db !! w) -> known db ev = true.
Proof. unfold known. intros -> H. apply bool_decide_eq_true_2, H. Qed.

Lemma foreignKeysHold_fresh : foreignKeysHold fresh.
Proof.
  unfold foreignKeysHold, fresh. cbn.
  repeat split; intros; rewrite lookup_empty in *; discriminate.
Qed.

Lemma insertVaultOrIgnore_lookup (w : string) (vt : VaultType)
    (V : gmap (string * VaultType) Z) (k : string * VaultType) (v : Z) :
  insertVaultOrIgnore w vt V !! k = Some v -> V !! k = Some v \/ k = (w, vt).
Proof.
  unfold insertVaultOrIgnore. destruct (V !! (w, vt)) eqn:Hv; [auto|].
  rewrite lookup_insert. destruct (decide ((w, vt) = k)); auto.
Qed.

Lemma applied_foreignKeysHold now ev db :
  foreignKeysHold db -> foreignKeysHold (applied now ev db).
Proof.
  intros (HB & HV & HD). unfold applied.
  unfold foreignKeysHold. cbn [Wills Beneficiaries Vaults Documents].
  remember (known db ev) as k eqn:Hk. symmetry in Hk.
  split; [|split].
  - intros w b r Hr. apply willsAfter_keeps.
    destruct ev as [t cip dp|t ts|t tot|t b' sh g|t b'|t b' sh g|t a|t a|t a|t dl
                   |t h name type ts|t h|name]; cbn in Hr; eauto.
    + destruct k; cbn in Hr; [|eauto].
      rewrite lookup_insert in Hr.
      destruct (decide ((toLowerCase t, toLowerCase b') = (w, b))) as [[= <- <-]|];
        [|eauto].
      eapply known_true; [|exact Hk]. reflexivity.
    + rewrite lookup_delete in Hr.
      destruct (decide ((toLowerCase t, toLowerCase b') = (w, b))); [discriminate|].
      eauto.
    + rewrite lookup_alter in Hr.
      destruct (decide ((toLowerCase t, toLowerCase b') = (w, b))) as [[= <- <-]|];
        [|eauto].
      destruct (Beneficiaries db !! (toLowerCase t, toLowerCase b')) eqn:Hb;
        [eauto | discriminate].
  - intros w vt v Hv.
    destruct ev as [t cip dp|t ts|t tot|t b' sh g|t b'|t b' sh g|t a|t a|t a|t dl
                   |t h name type ts|t h|name]; cbn in Hv;
      try (apply willsAfter_keeps; eauto; fail).
    + apply insertVaultOrIgnore_lookup in Hv. destruct Hv as [Hv|[= -> ->]];
        [|apply willsAfter_created].
      apply insertVaultOrIgnore_lookup in Hv. destruct Hv as [Hv|[= -> ->]];
        [|apply willsAfter_created].
      apply willsAfter_keeps. eauto.
    + apply willsAfter_keeps. destruct k; [|eauto].
      rewrite lookup_insert in Hv.
      destruct (decide ((toLowerCase t, locked) = (w, vt))) as [[= <- <-]|];
        [|eauto].
      eapply known_true; [|exact Hk]. reflexivity.
    + apply willsAfter_keeps. destruct k; [|eauto].
      rewrite lookup_insert in Hv.
      destruct (decide ((toLowerCase t, flexible) = (w, vt))) as [[= <- <-]|];
        [|eauto].
      eapply known_true; [|exact Hk]. reflexivity.
    + apply willsAfter_keeps. destruct k; [|eauto].
      rewrite lookup_insert in Hv.
      destruct (decide ((toLowerCase t, flexible) = (w, vt))) as [[= <- <-]|];
        [|eauto].
      eapply known_true; [|exact Hk]. reflexivity.
  - intros w h r Hr. apply willsAfter_keeps.
    destruct ev as [t cip dp|t ts|t tot|t b' sh g|t b'|t b' sh g|t a|t a|t a|t dl
                   |t h' name type ts|t h'|name]; cbn in Hr; eauto.
    + destruct k; cbn in Hr; [|eauto].
      rewrite lookup_insert in Hr.
      destruct (decide ((toLowerCase t, h') = (w, h))) as [[= <- <-]|]; [|eauto].
      eapply known_true; [|exact Hk]. reflexivity.
    + rewrite lookup_delete in Hr.
      destruct (decide ((toLowerCase t, h') = (w, h))); [discriminate|]. eauto.
Qed.

Lemma replay_foreignKeysHold deliveries db :
  foreignKeysHold db -> foreignKeysHold (replay onEvent deliveries db).
Proof.
  apply replay_invariant. intros n ev d.
  apply onEvent_invariant, applied_foreignKeysHold.
Qed.

Lemma run_foreignKeysHold turns db :
  foreignKeysHold db -> foreignKeysHold (written (run turns db)).
Proof. apply run_invariant, applied_foreignKeysHold. Qed.

Lemma clampBalance_max x : clampBalance x = Z.max 0 x.
Proof. unfold clampBalance. destruct (Z.ltb_spec x 0); lia. Qed.

(** C10.  A [WithdrawFlexible] event leaves the stored flexible balance at
    the previous balance minus the amount, or at 0 when that would be
    negative; the stored value is never negative.  For a will the replica
    knows, [updateVaultBalance] does not throw and writes exactly that
    value; no other vault row changes; the backfill path does the same. *)
Theorem withdrawal_is_clamped now t amount db :
  0 <= amount -> foreignKeysHold db ->
  let w := toLowerCase t in
  let before := vaultBalance db w flexible in
  let db' := onEvent now (WithdrawFlexible t amount) db in
  vaultBalance db' w flexible = Z.max 0 (before - amount) /\
  0 <= vaultBalance db' w flexible /\
  processHistoricalEvent now (WithdrawFlexible t amount) db = db' /\
  (is_Some (Wills db !! w) ->
   updateVaultBalance t flexible amount false db = Some db' /\
   Vaults db' !! (w, flexible) = Some (Z.max 0 (before - amount))) /\
  (forall k, k <> (w, flexible) -> Vaults db' !! k = Vaults db !! k).
Proof.
  intros Hamount (_ & HV & _) w before db'.
  assert (Hvalue : vaultBalance db' w flexible = Z.max 0 (before - amount)).
  { subst db'. unfold vaultBalance. rewrite onEvent_tables by reflexivity.
    unfold applied. cbn [Vaults vaultsAfter].
    fold w. destruct (known db _) eqn:Hk.
    - rewrite lookup_insert_eq. cbn. apply clampBalance_max.
    - subst before. unfold vaultBalance.
      destruct (Vaults db !! (w, flexible)) as [v|] eqn:Hv; cbn; [|lia].
      exfalso. apply HV in Hv.
      rewrite (known_of db (WithdrawFlexible t amount) w eq_refl Hv) in Hk.
      discriminate. }
  split; [exact Hvalue|]. split; [rewrite Hvalue; lia|].
  split; [reflexivity|]. split.
  - intros [r Hr]. subst db'. cbn [onEvent]. unfold updateVaultBalance, caught.
    fold w. rewrite Hr. cbn. split; [reflexivity|].
    rewrite lookup_insert_eq. f_equal. subst before. unfold vaultBalance.
    destruct (_ <? 0) eqn:Hlt; lia.
  - intros k Hk. subst db'. rewrite onEvent_tables by reflexivity.
    unfold applied. cbn [Vaults vaultsAfter].
    fold w. destruct (known db _); [|reflexivity].
    rewrite lookup_insert_ne by congruence. reflexivity.
Qed.

(** On a replica holding 5 flexible units, withdrawing 8 leaves 0 and
    withdrawing 3 leaves 2. *)
Lemma withdrawal_is_clamped_witness :
  vaultBalance flexibleReplica (toLowerCase addrA) flexible = 5 /\
  vaultBalance (onEvent 1100 (WithdrawFlexible addrA 8) flexibleReplica)
    (toLowerCase addrA) flexible = 0 /\
  vaultBalance (onEvent 1100 (WithdrawFlexible addrA 3) flexibleReplica)
    (toLowerCase addrA) flexible = 2.
Proof.
  assert (Hfk : foreignKeysHold flexibleReplica)
    by apply replay_foreignKeysHold, foreignKeysHold_fresh.
  split; [vm_compute; reflexivity|]. split.
  - destruct (withdrawal_is_clamped 1100 addrA 8 flexibleReplica) as (H & _);
      [lia | exact Hfk |].
    rewrite H. vm_compute. reflexivity.
  - destruct (withdrawal_is_clamped 1100 addrA 3 flexibleReplica) as (H & _);
      [lia | exact Hfk |].
    rewrite H. vm_compute. reflexivity.
Defined.

(** *** Cell by cell *)

Lemma willsAfter_cell now ev (W : gmap string WillRow) w :
  unstamped <$> willsAfter now ev W !! w = coreAfter ev w (unstamped <$> W !! w).
Proof.
  destruct ev as [t cip dp|t ts|t tot|t b sh g|t b|t b sh g|t a|t a|t a|t dl
                 |t h name type ts|t h|name]; cbn [willsAfter coreAfter];
    try reflexivity.
  - rewrite lookup_insert. destruct (decide (toLowerCase t = w)); reflexivity.
  - rewrite lookup_fmap. destruct (W !! w) as [r|]; [|reflexivity]. cbn.
    destruct (decide _); reflexivity.
  - rewrite lookup_fmap. destruct (W !! w) as [r|]; [|reflexivity]. cbn.
    destruct (decide _); reflexivity.
  - destruct g; [|reflexivity]. rewrite lookup_alter.
    destruct (decide (toLowerCase t = w)) as [->|]; [|reflexivity].
    destruct (W !! w); reflexivity.
  - rewrite lookup_alter.
    destruct (decide (toLowerCase t = w)) as [->|]; [|reflexivity].
    destruct (W !! w) as [r|]; [|reflexivity]. cbn.
    destruct (decide _); reflexivity.
  - destruct g; [|reflexivity]. rewrite lookup_alter.
    destruct (decide (toLowerCase t = w)) as [->|]; [|reflexivity].
    destruct (W !! w); reflexivity.
Qed.

Lemma willCore_applied now ev db w :
  willCore (applied now ev db) w = coreAfter ev w (willCore db w).
Proof. unfold willCore. unfold applied. apply willsAfter_cell. Qed.

Lemma shareOf_applied now ev db key :
  shareOf (applied now ev db) key = shareAfter ev (known db ev) key (shareOf db key).
Proof.
  unfold shareOf, applied. cbn [Beneficiaries].
  destruct ev as [t cip dp|t ts|t tot|t b sh g|t b|t b sh g|t a|t a|t a|t dl
                 |t h name type ts|t h|name];
    cbn [beneficiariesAfter shareAfter fst]; try reflexivity.
  - destruct (known db _); [|reflexivity]. cbn [fst]. rewrite lookup_insert.
    destruct (decide _); reflexivity.
  - rewrite lookup_delete. destruct (decide _); reflexivity.
  - rewrite lookup_alter. destruct (decide _) as [<-|]; [|reflexivity].
    destruct (Beneficiaries db !! _); reflexivity.
Qed.

Lemma documentOf_applied now ev db key :
  documentOf (applied now ev db) key
  = documentAfter now ev (known db ev) key (documentOf db key).
Proof.
  unfold documentOf, applied. cbn [Documents].
  destruct ev as [t cip dp|t ts|t tot|t b sh g|t b|t b sh g|t a|t a|t a|t dl
                 |t h name type ts|t h|name];
    cbn [documentsAfter documentAfter fst]; try reflexivity.
  - destruct (known db _); [|reflexivity]. cbn [fst]. rewrite lookup_insert.
    destruct (decide _); reflexivity.
  - rewrite lookup_delete. destruct (decide _); reflexivity.
Qed.

(** *** The replica without its clock stamps *)

Lemma timeless_eq db1 db2 :
  timeless db1 = timeless db2 <->
  (forall w, willCore db1 w = willCore db2 w) /\
  Beneficiaries db1 = Beneficiaries db2 /\
  beneficiarySeq db1 = beneficiarySeq db2 /\
  Vaults db1 = Vaults db2 /\
  Documents db1 = Documents db2 /\
  documentSeq db1 = documentSeq db2.
Proof.
  destruct db1 as [W1 B1 s1 V1 D1 t1], db2 as [W2 B2 s2 V2 D2 t2].
  unfold timeless, setWills, willCore. cbn. split.
  - intros [= HW -> -> -> -> ->]. repeat split; try reflexivity.
    intros w. rewrite <- !lookup_fmap, HW. reflexivity.
  - intros (HW & -> & -> & -> & -> & ->). f_equal.
    apply map_eq. intros w. rewrite !lookup_fmap. apply HW.
Qed.

Lemma willCore_is_Some db w : is_Some (willCore db w) <-> is_Some (Wills db !! w).
Proof. unfold willCore. rewrite fmap_is_Some. reflexivity. Qed.

Lemma known_agree db1 db2 ev :
  (forall w, willCore db1 w = willCore db2 w) -> known db1 ev = known db2 ev.
Proof.
  intros H. unfold known. destruct (willOf ev) as [w|]; [|reflexivity].
  apply bool_decide_ext. rewrite <- !willCore_is_Some, H. reflexivity.
Qed.

Lemma documentsAfter_clock (n1 n2 : Z) (ev : Event) (k : bool)
    (D : gmap (string * string) DocumentRow) (seq : Z) :
  blockKnown ev -> documentsAfter n1 ev k D seq = documentsAfter n2 ev k D seq.
Proof.
  destruct ev as [t cip dp|t ts|t tot|t b sh g|t b|t b sh g|t a|t a|t a|t dl
                 |t h name type [ts|]|t h|name]; cbn; intros Hb;
    try reflexivity; contradiction.
Qed.

Lemma applied_timeless n1 n2 ev db1 db2 :
  blockKnown ev -> timeless db1 = timeless db2 ->
  timeless (applied n1 ev db1) = timeless (applied n2 ev db2).
Proof.
  intros Hb Heq. apply timeless_eq in Heq.
  destruct Heq as (HW & HB & Hs & HV & HD & Ht).
  pose proof (known_agree db1 db2 ev HW) as Hk.
  apply timeless_eq. split.
  { intros w. rewrite !willCore_applied, HW. reflexivity. }
  unfold applied. cbn [Beneficiaries beneficiarySeq Vaults Documents
                                 documentSeq].
  rewrite Hk, HB, Hs, HV, HD, Ht.
  rewrite (documentsAfter_clock n1 n2 ev _ _ _ Hb). repeat split.
Qed.


Lemma work_cons d turns :
  work (d :: turns)
  = from_option (fun ev => [(d.1, ev)]) [] (effect d.2) ++ work turns.
Proof. unfold work. cbn [omap list_omap]. destruct (effect d.2); reflexivity. Qed.

Lemma work_app ts1 ts2 : work (ts1 ++ ts2) = work ts1 ++ work ts2.
Proof.
  induction ts1 as [|d ts1 IH]; [reflexivity|].
  cbn [app]. rewrite !work_cons, IH, app_assoc. reflexivity.
Qed.

Lemma replay_cons {A} (handler : Z -> A -> DB -> DB) d ds db :
  replay handler (d :: ds) db = replay handler ds (handler d.1 d.2 db).
Proof. reflexivity. Qed.

Lemma replay_app {A} (handler : Z -> A -> DB -> DB) ds1 ds2 db :
  replay handler (ds1 ++ ds2) db = replay handler ds2 (replay handler ds1 db).
Proof. unfold replay. apply fold_left_app. Qed.

(** A run that has not ended has applied the updates of its turns. *)
Lemma run_Running turns : forall db db',
  run turns db = Running db' -> db' = replay applied (work turns) db.
Proof.
  induction turns as [|d turns IH]; intros db db' H.
  - injection H as <-. reflexivity.
  - cbn [run] in H. rewrite onTurn_applied in H. rewrite work_cons.
    destruct (exits d.2 db); [discriminate|].
    apply IH in H. rewrite H, replay_app.
    destruct (effect d.2); reflexivity.
Qed.

Lemma run_app ts1 ts2 db db1 :
  run ts1 db = Running db1 -> run (ts1 ++ ts2) db = run ts2 db1.
Proof.
  revert db. induction ts1 as [|d ts1 IH]; intros db H.
  - injection H as <-. reflexivity.
  - cbn [app run] in *. destruct (onTurn d.1 d.2 db); [apply IH, H | discriminate].
Qed.

(** *** Rows carry their key *)

Lemma willsAfter_keyed (now : Z) (ev : Event) (W : gmap string WillRow) :
  (forall k r, W !! k = Some r -> testator r = k) ->
  forall k r, willsAfter now ev W !! k = Some r -> testator r = k.
Proof.
  intros HW k r.
  destruct ev as [t cip dp|t ts|t tot|t b sh g|t b|t b sh g|t a|t a|t a|t dl
                 |t h name type ts|t h|name]; cbn; try apply HW.
  - rewrite lookup_insert. destruct (decide (toLowerCase t = k)) as [<-|];
      [intros [= <-]; reflexivity | apply HW].
  - rewrite lookup_fmap. destruct (W !! k) as [r0|] eqn:Hr0; [|discriminate].
    cbn. intros [= <-]. specialize (HW _ _ Hr0).
    destruct (decide (testator r0 = toLowerCase t)); exact HW.
  - rewrite lookup_fmap. destruct (W !! k) as [r0|] eqn:Hr0; [|discriminate].
    cbn. intros [= <-]. specialize (HW _ _ Hr0).
    destruct (decide (testator r0 = toLowerCase t)); exact HW.
  - destruct g; [|apply HW]. rewrite lookup_alter.
    destruct (decide (toLowerCase t = k)) as [<-|]; [|apply HW].
    destruct (W !! toLowerCase t) as [r0|] eqn:Hr0; [|discriminate].
    cbn. intros [= <-]. exact (HW _ _ Hr0).
  - rewrite lookup_alter.
    destruct (decide (toLowerCase t = k)) as [<-|]; [|apply HW].
    destruct (W !! toLowerCase t) as [r0|] eqn:Hr0; [|discriminate].
    cbn. intros [= <-]. specialize (HW _ _ Hr0).
    destruct (decide (guardian r0 = Some (toLowerCase b))); exact HW.
  - destruct g; [|apply HW]. rewrite lookup_alter.
    destruct (decide (toLowerCase t = k)) as [<-|]; [|apply HW].
    destruct (W !! toLowerCase t) as [r0|] eqn:Hr0; [|discriminate].
    cbn. intros [= <-]. exact (HW _ _ Hr0).
Qed.

Lemma keyed_fresh : keyed fresh.
Proof. intros k r. unfold fresh. cbn. rewrite lookup_empty. discriminate. Qed.

Lemma applied_keyed now ev db : keyed db -> keyed (applied now ev db).
Proof. intros H k r. apply willsAfter_keyed. exact H. Qed.


Lemma run_keyed turns : keyed (written (run turns fresh)).
Proof. apply run_invariant; [apply applied_keyed | apply keyed_fresh]. Qed.

Lemma replay_applied_keyed ds db : keyed db -> keyed (replay applied ds db).
Proof. apply replay_invariant, applied_keyed. Qed.

Lemma willsAfter_row now ev (W : gmap string WillRow) w :
  willsAfter now ev W !! w = rowAfter now ev w (W !! w).
Proof.
  destruct ev as [t cip dp|t ts|t tot|t b sh g|t b|t b sh g|t a|t a|t a|t dl
                 |t h name type ts|t h|name]; cbn [willsAfter rowAfter];
    try reflexivity.
  - rewrite lookup_insert. destruct (decide (toLowerCase t = w)); reflexivity.
  - apply lookup_fmap.
  - apply lookup_fmap.
  - destruct g; [|reflexivity]. rewrite lookup_alter.
    destruct (decide (toLowerCase t = w)) as [->|]; reflexivity.
  - rewrite lookup_alter.
    destruct (decide (toLowerCase t = w)) as [->|]; reflexivity.
  - destruct g; [|reflexivity]. rewrite lookup_alter.
    destruct (decide (toLowerCase t = w)) as [->|]; reflexivity.
Qed.

(** *** What the clock decides, and what it does not *)

Lemma rowAfter_sameCheckIn n1 n2 ev w (x1 x2 : option WillRow) :
  unstamped <$> x1 = unstamped <$> x2 ->
  (forall r1 r2, x1 = Some r1 -> x2 = Some r2 -> sameCheckIn r1 r2) ->
  forall r1 r2,
    rowAfter n1 ev w x1 = Some r1 -> rowAfter n2 ev w x2 = Some r2 ->
    sameCheckIn r1 r2.
Proof.
  intros Hcore Hsame.
  assert (Hkeep : forall (f1 f2 : WillRow -> WillRow),
             (forall r, lastCheckIn (f1 r) = lastCheckIn r
                        /\ createdAt (f1 r) = createdAt r) ->
             (forall r, lastCheckIn (f2 r) = lastCheckIn r
                        /\ createdAt (f2 r) = createdAt r) ->
             forall r1 r2, f1 <$> x1 = Some r1 -> f2 <$> x2 = Some r2 ->
                           sameCheckIn r1 r2).
  { intros f1 f2 H1 H2 r1 r2.
    destruct x1 as [y1|], x2 as [y2|]; try discriminate. cbn.
    intros [= <-] [= <-]. specialize (Hsame y1 y2 eq_refl eq_refl).
    unfold sameCheckIn in *.
    destruct (H1 y1) as [-> ->], (H2 y2) as [-> ->]. exact Hsame. }
  destruct ev as [t cip dp|t ts|t tot|t b sh g|t b|t b sh g|t a|t a|t a|t dl
                 |t h name type ts|t h|name]; cbn [rowAfter]; try exact Hsame.
  - destruct (decide (toLowerCase t = w)); [|exact Hsame].
    intros r1 r2 [= <-] [= <-]. right. split; reflexivity.
  - intros r1 r2.
    destruct x1 as [y1|], x2 as [y2|]; try discriminate. cbn.
    assert (Ht : testator y1 = testator y2)
      by (apply (f_equal (fmap testator)) in Hcore; cbn in Hcore; congruence).
    specialize (Hsame y1 y2 eq_refl eq_refl). rewrite Ht.
    destruct (decide (testator y2 = toLowerCase t));
      intros [= <-] [= <-]; [left; reflexivity | exact Hsame].
  - apply Hkeep; intros r; destruct (decide _); split; reflexivity.
  - destruct g; [|exact Hsame]. destruct (decide (toLowerCase t = w)); [|exact Hsame].
    apply Hkeep; intros r; split; reflexivity.
  - destruct (decide (toLowerCase t = w)); [|exact Hsame].
    apply Hkeep; intros r; destruct (decide _); split; reflexivity.
  - destruct g; [|exact Hsame]. destruct (decide (toLowerCase t = w)); [|exact Hsame].
    apply Hkeep; intros r; split; reflexivity.
Qed.

(** Two replicas that differ by clock readings only. *)
Lemma applied_clockless n1 n2 ev db1 db2 :
  blockKnown ev ->
  timeless db1 = timeless db2 ->
  (forall w r1 r2, Wills db1 !! w = Some r1 -> Wills db2 !! w = Some r2 ->
                   sameCheckIn r1 r2) ->
  timeless (applied n1 ev db1) = timeless (applied n2 ev db2) /\
  (forall w r1 r2,
     Wills (applied n1 ev db1) !! w = Some r1 ->
     Wills (applied n2 ev db2) !! w = Some r2 -> sameCheckIn r1 r2).
Proof.
  intros Hb Heq Hsame. split; [apply applied_timeless; assumption|].
  intros w r1 r2. unfold applied. cbn [Wills]. rewrite !willsAfter_row.
  apply rowAfter_sameCheckIn; [|apply Hsame].
  apply timeless_eq in Heq. destruct Heq as (HW & _). apply HW.
Qed.

Lemma replay_clockless ds1 : forall ds2 db1 db2,
  map snd ds1 = map snd ds2 -> Forall blockKnown (map snd ds1) ->
  timeless db1 = timeless db2 ->
  (forall w r1 r2, Wills db1 !! w = Some r1 -> Wills db2 !! w = Some r2 ->
                   sameCheckIn r1 r2) ->
  timeless (replay applied ds1 db1) = timeless (replay applied ds2 db2) /\
  (forall w r1 r2,
     Wills (replay applied ds1 db1) !! w = Some r1 ->
     Wills (replay applied ds2 db2) !! w = Some r2 -> sameCheckIn r1 r2).
Proof.
  induction ds1 as [|[n1 ev] ds1 IH]; intros [|[n2 ev2] ds2] db1 db2 Hev Hb Heq Hs;
    try discriminate; [split; assumption|].
  cbn [map snd] in Hev, Hb. injection Hev as <- Hev.
  apply Forall_cons in Hb. destruct Hb as [Hb1 Hb].
  rewrite !replay_cons. cbn [fst snd].
  destruct (applied_clockless n1 n2 ev db1 db2 Hb1 Heq Hs) as [Heq' Hs'].
  apply IH; assumption.
Qed.

Lemma exits_agree turn db1 db2 :
  timeless db1 = timeless db2 -> exits turn db1 = exits turn db2.
Proof.
  intros Heq. apply timeless_eq in Heq. destruct Heq as (HW & _).
  destruct turn as [ev|ev|ev]; cbn; try reflexivity.
  rewrite (known_agree db1 db2 ev HW). reflexivity.
Qed.

Lemma run_clockless ts1 : forall ts2 db1 db2,
  map snd ts1 = map snd ts2 -> Forall blockKnown (map snd (work ts1)) ->
  timeless db1 = timeless db2 ->
  (forall w r1 r2, Wills db1 !! w = Some r1 -> Wills db2 !! w = Some r2 ->
                   sameCheckIn r1 r2) ->
  exited (run ts1 db1) = exited (run ts2 db2) /\
  timeless (written (run ts1 db1)) = timeless (written (run ts2 db2)) /\
  (forall w r1 r2,
     Wills (written (run ts1 db1)) !! w = Some r1 ->
     Wills (written (run ts2 db2)) !! w = Some r2 -> sameCheckIn r1 r2).
Proof.
  induction ts1 as [|[n1 turn] ts1 IH];
    intros [|[n2 turn2] ts2] db1 db2 Hev Hb Heq Hs; try discriminate.
  - cbn. auto.
  - cbn [map snd] in Hev. injection Hev as <- Hev.
    rewrite work_cons in Hb. cbn [fst snd] in Hb.
    cbn [run fst snd]. rewrite !onTurn_applied.
    rewrite <- (exits_agree turn db1 db2 Heq).
    destruct (exits turn db1); [cbn; auto|].
    destruct (effect turn) as [ev|]; cbn [from_option app] in *.
    + cbn [map snd] in Hb. apply Forall_cons in Hb. destruct Hb as [Hb1 Hb].
      destruct (applied_clockless n1 n2 ev db1 db2 Hb1 Heq Hs) as [Heq' Hs'].
      apply IH; assumption.
    + apply IH; assumption.
Qed.

(** [lastCheckIn] is the time of the last check-in, where there was one
    since the row was created. *)
Lemma applied_checkedIn now ev db w (acc : option Z) :
  keyed db ->
  (forall r ts, Wills db !! w = Some r -> acc = Some ts -> lastCheckIn r = ts) ->
  forall r ts,
    Wills (applied now ev db) !! w = Some r ->
    settlesCheckIn w acc ev = Some ts -> lastCheckIn r = ts.
Proof.
  intros Hk Hacc r ts. unfold applied. cbn [Wills]. rewrite willsAfter_row.
  assert (Hkeep : forall (f : WillRow -> WillRow),
             (forall y, lastCheckIn (f y) = lastCheckIn y) ->
             f <$> Wills db !! w = Some r -> acc = Some ts -> lastCheckIn r = ts).
  { intros f Hf. destruct (Wills db !! w) as [y|] eqn:Hy; [|discriminate].
    cbn. intros [= <-] Ha. rewrite Hf. eapply Hacc; eauto. }
  destruct ev as [t cip dp|t ts'|t tot|t b sh g|t b|t b sh g|t a|t a|t a|t dl
                 |t h name type ts'|t h|name]; cbn [rowAfter settlesCheckIn];
    try apply Hacc.
  - destruct (decide (toLowerCase t = w)); [discriminate | apply Hacc].
  - destruct (Wills db !! w) as [y|] eqn:Hy; [|discriminate]. cbn.
    pose proof (Hk _ _ Hy) as Hkey. rewrite Hkey.
    destruct (decide (w = toLowerCase t)) as [->|Hne].
    + rewrite decide_True by reflexivity. intros [= <-] [= <-]. reflexivity.
    + rewrite decide_False by congruence. intros [= <-] Ha. eapply Hacc; eauto.
  - apply Hkeep. intros y. destruct (decide _); reflexivity.
  - destruct g; [|apply Hacc]. destruct (decide (toLowerCase t = w)); [|apply Hacc].
    apply Hkeep. reflexivity.
  - destruct (decide (toLowerCase t = w)); [|apply Hacc].
    apply Hkeep. intros y. destruct (decide _); reflexivity.
  - destruct g; [|apply Hacc]. destruct (decide (toLowerCase t = w)); [|apply Hacc].
    apply Hkeep. reflexivity.
Qed.

Lemma replay_checkedIn w ds : forall db (acc : option Z),
  keyed db ->
  (forall r ts, Wills db !! w = Some r -> acc = Some ts -> lastCheckIn r = ts) ->
  forall r ts,
    Wills (replay applied ds db) !! w = Some r ->
    fold_left (settlesCheckIn w) (map snd ds) acc = Some ts -> lastCheckIn r = ts.
Proof.
  induction ds as [|[n ev] ds IH]; intros db acc Hk Hacc r ts; [apply Hacc|].
  rewrite replay_cons. cbn [map snd fold_left fst].
  apply IH; [apply applied_keyed, Hk|].
  apply applied_checkedIn; assumption.
Qed.

Lemma checkedIn_fresh w r ts (acc : option Z) :
  Wills fresh !! w = Some r -> acc = Some ts -> lastCheckIn r = ts.
Proof. unfold fresh. cbn. rewrite lookup_empty. discriminate. Qed.


(** C3 as the indexer implements it.  The replica is decided by the turns
    the process handles (events, settlings of block lookups, backfilled
    events, in their order) up to the indexer's clock.  Two runs over the
    same turns end alike (both running or both ended at the same turn)
    and agree on every column but [createdAt], [updatedAt] and a
    [lastCheckIn] that is still the creation stamp; so do two runs that
    both survive and apply the same updates in the same order, one live
    and one backfill say.  [lastCheckIn] of a will checked in since its
    creation is the time of its last [CheckIn], whatever the clock.  All
    this provided no lookup of a [DocumentAdded] that is stored failed. *)
Theorem replica_determined_up_to_clock (ts1 ts2 : list (Z * Turn)) :
  Forall blockKnown (map snd (work ts1)) ->
  let o1 := run ts1 fresh in
  let o2 := run ts2 fresh in
  (map snd ts1 = map snd ts2 ->
   exited o1 = exited o2 /\
   timeless (written o1) = timeless (written o2) /\
   (forall w r1 r2,
      Wills (written o1) !! w = Some r1 -> Wills (written o2) !! w = Some r2 ->
      sameCheckIn r1 r2)) /\
  (map snd (work ts1) = map snd (work ts2) ->
   exited o1 = false -> exited o2 = false ->
   timeless (written o1) = timeless (written o2) /\
   (forall w r1 r2,
      Wills (written o1) !! w = Some r1 -> Wills (written o2) !! w = Some r2 ->
      sameCheckIn r1 r2)) /\
  (exited o1 = false ->
   forall w ts r,
     checkedInAt w (map snd (work ts1)) = Some ts ->
     Wills (written o1) !! w = Some r -> lastCheckIn r = ts).
Proof.
  intros Hb o1 o2.
  assert (Hfresh : forall w r1 r2,
             Wills fresh !! w = Some r1 -> Wills fresh !! w = Some r2 ->
             sameCheckIn r1 r2).
  { intros w r1 r2 H. unfold fresh in H. cbn in H.
    rewrite lookup_empty in H. discriminate. }
  split; [|split].
  - intros Hev. exact (run_clockless ts1 ts2 fresh fresh Hev Hb eq_refl Hfresh).
  - intros Hev H1 H2. subst o1 o2.
    destruct (run ts1 fresh) as [db1|] eqn:Hr1; [|discriminate].
    destruct (run ts2 fresh) as [db2|] eqn:Hr2; [|discriminate].
    apply run_Running in Hr1, Hr2. subst db1 db2. cbn [written].
    exact (replay_clockless (work ts1) (work ts2) fresh fresh Hev Hb eq_refl Hfresh).
  - intros H1 w ts r. subst o1.
    destruct (run ts1 fresh) as [db1|] eqn:Hr1; [|discriminate].
    apply run_Running in Hr1. subst db1. cbn [written]. intros Hc Hr.
    exact (replay_checkedIn w (work ts1) fresh None keyed_fresh
             (fun r0 ts0 => checkedIn_fresh w r0 ts0 None) r ts Hr Hc).
Qed.

(** The full sample, backfilled at clock 2000 and live at clock 1000 with
    every lookup settling at once: the same replica up to the clock, and
    [lastCheckIn] is 1500 in both, the time of the [CheckIn]. *)
Lemma replica_determined_up_to_clock_witness :
  timeless (written (run (backfilled (deliveredAt 2000 fullEvents)) fresh))
  = timeless (written (run (promptly (deliveredAt 1000 fullEvents)) fresh)) /\
  (forall r,
     Wills (written (run (backfilled (deliveredAt 2000 fullEvents)) fresh))
       !! toLowerCase addrA = Some r -> lastCheckIn r = 1500).
Proof.
  assert (Hb : Forall blockKnown
                 (map snd (work (backfilled (deliveredAt 2000 fullEvents))))).
  { cbn. repeat constructor. }
  destruct (replica_determined_up_to_clock
              (backfilled (deliveredAt 2000 fullEvents))
              (promptly (deliveredAt 1000 fullEvents)) Hb)
    as (_ & Hmixed & Hexact).
  split.
  - destruct Hmixed as [Heq _]; [reflexivity | reflexivity | reflexivity |].
    exact Heq.
  - intros r Hr.
    exact (Hexact eq_refl (toLowerCase addrA) 1500 r eq_refl Hr).
Defined.

(** C3 as stated fails.  The same [WillCreated] handled at clock 1000 and
    at clock 2000 leaves different [lastCheckIn], [createdAt] and
    [updatedAt].  The same events emitted in the same order leave a
    document in the replica or not, according to whether the block lookup
    of its [DocumentAdded] settles before or after the listener of its
    [DocumentRemoved] has run.  And a document whose block lookup failed
    is stored under the clock reading. *)
Lemma replica_depends_on_clock :
  (let created := WillCreated addrA 2592000 604800 in
   (fun r => (lastCheckIn r, createdAt r, updatedAt r)) <$>
     Wills (written (run [(1000, Emitted created)] fresh)) !! toLowerCase addrA
   = Some (1000, 1000, 1000) /\
   (fun r => (lastCheckIn r, createdAt r, updatedAt r)) <$>
     Wills (written (run [(2000, Emitted created)] fresh)) !! toLowerCase addrA
   = Some (2000, 2000, 2000) /\
   run [(1000, Emitted created)] fresh <> run [(2000, Emitted created)] fresh /\
   run [(1000, Backfilled created)] fresh
   <> run [(2000, Backfilled created)] fresh) /\
  (let created := WillCreated addrA 2592000 604800 in
   let added := DocumentAdded addrA "QmYwAPJzv5CZsnA625s3Xf2nemtYgPpHdWEz79ojWnPbdG"
                  "will.pdf" "testament" (Some 1600) in
   let removed := DocumentRemoved addrA
                    "QmYwAPJzv5CZsnA625s3Xf2nemtYgPpHdWEz79ojWnPbdG" in
   Documents (written (run [(1000, Emitted created); (1000, Emitted added);
                            (1000, Settled added); (1000, Emitted removed)] fresh))
   = ∅ /\
   is_Some (Documents
              (written (run [(1000, Emitted created); (1000, Emitted added);
                             (1000, Emitted removed); (1000, Settled added)]
                          fresh))
            !! (toLowerCase addrA,
                "QmYwAPJzv5CZsnA625s3Xf2nemtYgPpHdWEz79ojWnPbdG"))) /\
  (let created := WillCreated addrA 2592000 604800 in
   let added := DocumentAdded addrA "QmYwAPJzv5CZsnA625s3Xf2nemtYgPpHdWEz79ojWnPbdG"
                  "will.pdf" "testament" None in
   uploadedAt <$>
     Documents (written (run [(1000, Emitted created); (1000, Settled added)] fresh))
       !! (toLowerCase addrA, "QmYwAPJzv5CZsnA625s3Xf2nemtYgPpHdWEz79ojWnPbdG")
   = Some 1000 /\
   uploadedAt <$>
     Documents (written (run [(1000, Emitted created); (2000, Settled added)] fresh))
       !! (toLowerCase addrA, "QmYwAPJzv5CZsnA625s3Xf2nemtYgPpHdWEz79ojWnPbdG")
   = Some 2000).
Proof.
  split; [|split]; cbn zeta.
  - split; [vm_compute; reflexivity|]. split; [vm_compute; reflexivity|].
    split; intros H;
      apply (f_equal (fun o => lastCheckIn <$> Wills (written o) !! toLowerCase addrA))
        in H; vm_compute in H; discriminate.
  - split; [vm_compute; reflexivity|]. vm_compute. eauto.
  - split; vm_compute; reflexivity.
Qed.

(** *** Both vault rows from creation on *)

Lemma willsAfter_origin (now : Z) (ev : Event) (W : gmap string WillRow) (w : string) :
  is_Some (willsAfter now ev W !! w) ->
  is_Some (W !! w) \/ createsWill w ev = true.
Proof.
  destruct ev as [t cip dp|t ts|t tot|t b sh g|t b|t b sh g|t a|t a|t a|t dl
                 |t h name type ts|t h|name]; cbn; auto.
  - rewrite lookup_insert.
    destruct (decide (toLowerCase t = w)) as [Heq|Hne]; [|auto].
    intros _. right. apply bool_decide_eq_true_2, Heq.
  - rewrite lookup_fmap, fmap_is_Some. auto.
  - rewrite lookup_fmap, fmap_is_Some. auto.
  - destruct g; [|auto]. intros H. left. revert H.
    rewrite lookup_alter. destruct (decide (toLowerCase t = w)) as [<-|];
      [rewrite fmap_is_Some|]; auto.
  - intros H. left. revert H.
    rewrite lookup_alter. destruct (decide (toLowerCase t = w)) as [<-|];
      [rewrite fmap_is_Some|]; auto.
  - destruct g; [|auto]. intros H. left. revert H.
    rewrite lookup_alter. destruct (decide (toLowerCase t = w)) as [<-|];
      [rewrite fmap_is_Some|]; auto.
Qed.

Lemma insertVaultOrIgnore_keeps (w : string) (vt : VaultType)
    (V : gmap (string * VaultType) Z) (k : string * VaultType) :
  is_Some (V !! k) -> is_Some (insertVaultOrIgnore w vt V !! k).
Proof.
  unfold insertVaultOrIgnore. destruct (V !! (w, vt)) eqn:Hv; [auto|].
  intros H. rewrite lookup_insert. destruct (decide ((w, vt) = k)); eauto.
Qed.

Lemma insertVaultOrIgnore_there (w : string) (vt : VaultType)
    (V : gmap (string * VaultType) Z) :
  is_Some (insertVaultOrIgnore w vt V !! (w, vt)).
Proof.
  unfold insertVaultOrIgnore. destruct (V !! (w, vt)) eqn:Hv; [eauto|].
  rewrite lookup_insert_eq. eauto.
Qed.

Lemma insertVaultOrIgnore_id (w : string) (vt : VaultType)
    (V : gmap (string * VaultType) Z) :
  is_Some (V !! (w, vt)) -> insertVaultOrIgnore w vt V = V.
Proof. unfold insertVaultOrIgnore. intros [v ->]. reflexivity. Qed.

Lemma vaultsAfter_keeps (ev : Event) (b : bool) (V : gmap (string * VaultType) Z)
    (k : string * VaultType) :
  is_Some (V !! k) -> is_Some (vaultsAfter ev b V !! k).
Proof.
  intros H.
  destruct ev as [t cip dp|t ts|t tot|t b' sh g|t b'|t b' sh g|t a|t a|t a|t dl
                 |t h name type ts|t h|name]; cbn; try exact H.
  - apply insertVaultOrIgnore_keeps, insertVaultOrIgnore_keeps, H.
  - destruct b; [|exact H]. rewrite lookup_insert.
    destruct (decide ((toLowerCase t, locked) = k)); eauto.
  - destruct b; [|exact H]. rewrite lookup_insert.
    destruct (decide ((toLowerCase t, flexible) = k)); eauto.
  - destruct b; [|exact H]. rewrite lookup_insert.
    destruct (decide ((toLowerCase t, flexible) = k)); eauto.
Qed.

Lemma insertVaultOrIgnore_value (w : string) (vt : VaultType)
    (V : gmap (string * VaultType) Z) (k : string * VaultType) (v : Z) :
  insertVaultOrIgnore w vt V !! k = Some v -> V !! k = Some v \/ v = 0.
Proof.
  unfold insertVaultOrIgnore. destruct (V !! (w, vt)) eqn:Hv; [auto|].
  rewrite lookup_insert. destruct (decide ((w, vt) = k));
    [intros [= <-]; right; reflexivity | auto].
Qed.

Lemma clampBalance_nonneg x : 0 <= clampBalance x.
Proof. rewrite clampBalance_max. lia. Qed.

Lemma vaultsAfter_nonneg (ev : Event) (b : bool) (V : gmap (string * VaultType) Z) :
  (forall k v, V !! k = Some v -> 0 <= v) ->
  forall k v, vaultsAfter ev b V !! k = Some v -> 0 <= v.
Proof.
  intros HV k v.
  destruct ev as [t cip dp|t ts|t tot|t b' sh g|t b'|t b' sh g|t a|t a|t a|t dl
                 |t h name type ts|t h|name]; cbn; try apply HV.
  - intros H. apply insertVaultOrIgnore_value in H. destruct H as [H| ->]; [|lia].
    apply insertVaultOrIgnore_value in H. destruct H as [H| ->]; [eauto|lia].
  - destruct b; [|apply HV]. rewrite lookup_insert.
    destruct (decide ((toLowerCase t, locked) = k));
      [intros [= <-]; apply clampBalance_nonneg | apply HV].
  - destruct b; [|apply HV]. rewrite lookup_insert.
    destruct (decide ((toLowerCase t, flexible) = k));
      [intros [= <-]; apply clampBalance_nonneg | apply HV].
  - destruct b; [|apply HV]. rewrite lookup_insert.
    destruct (decide ((toLowerCase t, flexible) = k));
      [intros [= <-]; apply clampBalance_nonneg | apply HV].
Qed.


Lemma vaultsInitialised_fresh : vaultsInitialised fresh.
Proof.
  split; unfold fresh; cbn.
  - intros w [r Hr]. rewrite lookup_empty in Hr. discriminate.
  - intros k v Hv. rewrite lookup_empty in Hv. discriminate.
Qed.

Lemma applied_vaultsInitialised now ev db :
  vaultsInitialised db -> vaultsInitialised (applied now ev db).
Proof.
  intros [Hrows Hpos]. split.
  - intros w. unfold applied. cbn [Wills Vaults]. intros Hw.
    apply willsAfter_origin in Hw. destruct Hw as [Hw|Hc].
    + destruct (Hrows w Hw) as [Hl Hf].
      split; apply vaultsAfter_keeps; assumption.
    + destruct ev as [t cip dp|t ts|t tot|t b sh g|t b|t b sh g|t a|t a|t a|t dl
                     |t h name type ts|t h|name]; try discriminate.
      cbn in Hc. apply bool_decide_eq_true_1 in Hc. subst w. cbn [vaultsAfter].
      split.
      * apply insertVaultOrIgnore_keeps, insertVaultOrIgnore_there.
      * apply insertVaultOrIgnore_there.
  - unfold applied. cbn [Vaults]. apply vaultsAfter_nonneg, Hpos.
Qed.

Lemma run_vaultsInitialised turns : vaultsInitialised (written (run turns fresh)).
Proof.
  apply run_invariant; [apply applied_vaultsInitialised | apply vaultsInitialised_fresh].
Qed.

Lemma replay_applied_vaultsInitialised ds db :
  vaultsInitialised db -> vaultsInitialised (replay applied ds db).
Proof. apply replay_invariant, applied_vaultsInitialised. Qed.

(** *** Replaying over the replica a first pass produced *)

(** In emission order no lookup settles for a will without a row, so the
    process survives. *)
Lemma run_in_order turns : forall created db,
  inEmissionOrder created (map snd (work turns)) ->
  (forall w, w ∈ created -> is_Some (Wills db !! w)) ->
  exists db', run turns db = Running db'.
Proof.
  induction turns as [|[n turn] turns IH]; intros created db Hord Hseen;
    [eexists; reflexivity|].
  rewrite work_cons in Hord. cbn [fst snd] in Hord.
  cbn [run fst snd]. rewrite onTurn_applied.
  destruct (effect turn) as [ev|] eqn:He; cbn [from_option app map snd] in *.
  - assert (Hx : exits turn db = false).
    { destruct turn as [e|e|e]; try reflexivity. cbn in He |- *.
      destruct (isDocumentAdded e) eqn:Hdoc; [|discriminate He].
      injection He as <-. cbn. cbn [inEmissionOrder] in Hord.
      destruct e; try discriminate Hdoc. cbn [willOf isWillCreated] in Hord.
      destruct Hord as [[Hc|Hin] _]; [discriminate Hc|].
      erewrite known_of; [reflexivity | reflexivity | apply Hseen, Hin]. }
    rewrite Hx. cbn [inEmissionOrder] in Hord.
    destruct (willOf ev) as [w|] eqn:Hw.
    + destruct Hord as [_ Hord]. eapply IH; [exact Hord|].
      intros w' Hw'. unfold applied. cbn [Wills].
      destruct (isWillCreated ev) eqn:Hc.
      * apply elem_of_union in Hw'. destruct Hw' as [Hw'|Hw'].
        -- apply elem_of_singleton in Hw'. subst w'.
           destruct ev; try discriminate. cbn in Hw. injection Hw as <-.
           apply willsAfter_created.
        -- apply willsAfter_keeps, Hseen, Hw'.
      * apply willsAfter_keeps, Hseen, Hw'.
    + eapply IH; [exact Hord|].
      intros w' Hw'. unfold applied. cbn [Wills]. apply willsAfter_keeps, Hseen, Hw'.
  - assert (Hx : exits turn db = false).
    { destruct turn as [e|e|e]; try reflexivity. cbn in He |- *.
      destruct (isDocumentAdded e); [discriminate He | reflexivity]. }
    rewrite Hx. eapply IH; eauto.
Qed.

Lemma inEmissionOrder_events created (ds1 ds2 : list (Z * Event)) :
  map snd ds1 = map snd ds2 ->
  inEmissionOrder created (map snd ds1) -> inEmissionOrder created (map snd ds2).
Proof. intros ->. auto. Qed.

(** A cell that every event rewrites from its own content and [known]:
    two passes over the same events, alike in what they do to the cell,
    end with the same cell, as soon as they agree on it or an event that
    fixes it is still to come. *)
Section Lockstep.
Context {V : Type}.
Variable cell : DB -> option V.
Variable after : Z -> Event -> bool -> option V -> option V.
Variable fixes : Event -> bool.

Hypothesis cell_applied : forall now ev db,
  cell (applied now ev db) = after now ev (known db ev) (cell db).
Hypothesis after_created : forall now ev k1 k2 x,
  isWillCreated ev = true -> after now ev k1 x = after now ev k2 x.
Hypothesis after_unknown : forall now ev k1 k2 x,
  willOf ev = None -> after now ev k1 x = after now ev k2 x.
Hypothesis fixes_const : forall now ev x y,
  fixes ev = true -> after now ev true x = after now ev true y.
Hypothesis fixes_addressed : forall ev, fixes ev = true -> willOf ev <> None.
Hypothesis after_None : forall now ev k,
  fixes ev = false -> after now ev k None = None.

Lemma replay_stays_None ds : forall db,
  Forall (fun d => fixes d.2 = false) ds ->
  cell db = None -> cell (replay applied ds db) = None.
Proof.
  induction ds as [|d ds IH]; intros db Hf Hn; [exact Hn|].
  apply Forall_cons in Hf. destruct Hf as [Hd Hf].
  rewrite replay_cons. apply IH; [exact Hf|].
  rewrite cell_applied, Hn. apply after_None, Hd.
Qed.

Lemma lockstep ds1 : forall ds2 created P Q,
  Forall2 (fun d1 d2 : Z * Event =>
             d1.2 = d2.2 /\
             forall k x, after d2.1 d2.2 k x = after d1.1 d1.2 k x) ds1 ds2 ->
  inEmissionOrder created (map snd ds1) ->
  (forall w, w ∈ created -> is_Some (Wills P !! w) /\ is_Some (Wills Q !! w)) ->
  (cell Q = cell P \/ Exists (fun d => fixes d.2 = true) ds1) ->
  cell (replay applied ds2 Q) = cell (replay applied ds1 P).
Proof.
  induction ds1 as [|[n1 ev] ds1 IH];
    intros ds2 created P Q Hal Hord Hseen Hcell.
  - inversion Hal; subst.
    destruct Hcell as [Hcell|Hex]; [exact Hcell|]. inversion Hex.
  - inversion Hal as [|d1 [n2 ev2] l1 ds2' [Hev Hag] Hal']; subst.
    cbn [fst snd] in Hev, Hag. subst ev2.
    cbn [map snd] in Hord.
    rewrite !replay_cons. cbn [fst snd].
    (* the two passes take the same branch on [known] *)
    assert (Hstep : forall x,
               after n2 ev (known Q ev) x = after n1 ev (known P ev) x).
    { intros x. rewrite Hag.
      cbn [inEmissionOrder] in Hord.
      destruct (willOf ev) as [w|] eqn:Hw.
      - destruct Hord as [[Hc|Hin] _]; [apply after_created, Hc|].
        destruct (Hseen w Hin) as [HP HQ].
        rewrite (known_of P ev w Hw HP), (known_of Q ev w Hw HQ). reflexivity.
      - apply after_unknown, Hw. }
    assert (Hfix : fixes ev = true ->
                   forall x y, after n1 ev (known P ev) x
                               = after n1 ev (known P ev) y).
    { intros Hf x y. cbn [inEmissionOrder] in Hord.
      destruct (willOf ev) as [w|] eqn:Hw;
        [|exfalso; eapply fixes_addressed; eauto].
      destruct Hord as [[Hc|Hin] _].
      - rewrite (after_created n1 ev _ true x Hc),
          (after_created n1 ev _ true y Hc). apply fixes_const, Hf.
      - destruct (Hseen w Hin) as [HP _].
        rewrite (known_of P ev w Hw HP). apply fixes_const, Hf. }
    cbn [inEmissionOrder] in Hord.
    destruct (willOf ev) as [w|] eqn:Hw.
    + destruct Hord as [_ Hord].
      eapply IH; [exact Hal' | exact Hord | |].
      * intros w' Hw'. unfold applied. cbn [Wills].
        destruct (isWillCreated ev) eqn:Hc.
        -- apply elem_of_union in Hw'. destruct Hw' as [Hw'|Hw'].
           ++ apply elem_of_singleton in Hw'. subst w'.
              destruct ev; try discriminate. cbn in Hw. injection Hw as <-.
              split; apply willsAfter_created.
           ++ destruct (Hseen w' Hw'). split; apply willsAfter_keeps; assumption.
        -- destruct (Hseen w' Hw'). split; apply willsAfter_keeps; assumption.
      * rewrite !cell_applied.
        destruct Hcell as [Hcell|Hex].
        -- left. rewrite Hcell. apply Hstep.
        -- apply Exists_cons in Hex. destruct Hex as [Hf|Hex]; [|right; exact Hex].
           left. cbn in Hf. rewrite Hstep. apply Hfix, Hf.
    + eapply IH; [exact Hal' | exact Hord | |].
      * intros w' Hw'. unfold applied. cbn [Wills].
        destruct (Hseen w' Hw'). split; apply willsAfter_keeps; assumption.
      * rewrite !cell_applied.
        destruct Hcell as [Hcell|Hex].
        -- left. rewrite Hcell. apply Hstep.
        -- apply Exists_cons in Hex. destruct Hex as [Hf|Hex]; [|right; exact Hex].
           left. cbn in Hf. rewrite Hstep. apply Hfix, Hf.
Qed.

Lemma second_pass ds1 ds2 :
  Forall2 (fun d1 d2 : Z * Event =>
             d1.2 = d2.2 /\
             forall k x, after d2.1 d2.2 k x = after d1.1 d1.2 k x) ds1 ds2 ->
  inEmissionOrder ∅ (map snd ds1) ->
  cell fresh = None ->
  cell (replay applied ds2 (replay applied ds1 fresh))
  = cell (replay applied ds1 fresh).
Proof.
  intros Hal Hord Hnone.
  apply (lockstep ds1 ds2 ∅ fresh (replay applied ds1 fresh) Hal Hord).
  - intros w Hw. apply elem_of_empty in Hw. contradiction.
  - destruct (decide (Exists (fun d => fixes d.2 = true) ds1)) as [Hex|Hno];
      [right; exact Hex|].
    left. rewrite Hnone. apply replay_stays_None; [|exact Hnone].
    apply Forall_forall. intros d Hd.
    destruct (fixes d.2) eqn:Hf; [|reflexivity].
    exfalso. apply Hno. apply Exists_exists. eauto.
Qed.

(** Deliveries of the same events are alike where the clock does not
    reach the cell; a delivery is alike to itself. *)
Lemma alike_clockless ds1 : forall ds2,
  (forall n1 n2 ev k x, blockKnown ev -> after n1 ev k x = after n2 ev k x) ->
  map snd ds1 = map snd ds2 -> Forall blockKnown (map snd ds1) ->
  Forall2 (fun d1 d2 : Z * Event =>
             d1.2 = d2.2 /\
             forall k x, after d2.1 d2.2 k x = after d1.1 d1.2 k x) ds1 ds2.
Proof.
  intros ds2 Hclock. revert ds2.
  induction ds1 as [|[n1 ev] ds1 IH]; intros [|[n2 ev2] ds2] Hev Hb;
    try discriminate; constructor.
  - cbn in Hev |- *. injection Hev as <- _. split; [reflexivity|].
    intros k x. apply Hclock. apply Forall_cons in Hb. apply Hb.
  - cbn in Hev, Hb. injection Hev as _ Hev. apply Forall_cons in Hb.
    apply IH; [exact Hev | apply Hb].
Qed.

Lemma alike_refl ds :
  Forall2 (fun d1 d2 : Z * Event =>
             d1.2 = d2.2 /\
             forall k x, after d2.1 d2.2 k x = after d1.1 d1.2 k x) ds ds.
Proof. induction ds; constructor; auto. Qed.
End Lockstep.

Lemma willCore_second_pass ds1 ds2 w :
  map snd ds1 = map snd ds2 ->
  inEmissionOrder ∅ (map snd ds1) -> Forall blockKnown (map snd ds1) ->
  willCore (replay applied ds2 (replay applied ds1 fresh)) w
  = willCore (replay applied ds1 fresh) w.
Proof.
  intros Hev Hord Hb.
  apply (second_pass (fun db => willCore db w)
           (fun _ ev _ x => coreAfter ev w x) (createsWill w));
    try assumption; try reflexivity.
  - intros now ev db. apply willCore_applied.
  - intros now [t cip dp| | | | | | | | | | | |] x y Hf; try discriminate.
    cbn in *. apply bool_decide_eq_true_1 in Hf.
    destruct (decide (toLowerCase t = w)); [reflexivity | contradiction].
  - intros [t cip dp| | | | | | | | | | | |] Hf; discriminate.
  - intros now [t cip dp|t ts|t tot|t b sh [|]|t b|t b sh [|]|t a|t a|t a|t dl
               |t h name type ts|t h|name] k Hf; cbn in *; try reflexivity;
      try (destruct (decide _); reflexivity).
    apply bool_decide_eq_false_1 in Hf.
    destruct (decide (toLowerCase t = w)); [contradiction | reflexivity].
  - apply (alike_clockless (fun (_ : Z) ev (_ : bool) x => coreAfter ev w x));
      [reflexivity | exact Hev | exact Hb].
Qed.

Lemma row_second_pass ds w :
  inEmissionOrder ∅ (map snd ds) ->
  Wills (replay applied ds (replay applied ds fresh)) !! w
  = Wills (replay applied ds fresh) !! w.
Proof.
  intros Hord.
  apply (second_pass (fun db => Wills db !! w)
           (fun now ev _ x => rowAfter now ev w x) (createsWill w));
    try assumption; try reflexivity.
  - intros now ev db. unfold applied. cbn [Wills]. apply willsAfter_row.
  - intros now [t cip dp| | | | | | | | | | | |] x y Hf; try discriminate.
    cbn in *. apply bool_decide_eq_true_1 in Hf.
    destruct (decide (toLowerCase t = w)); [reflexivity | contradiction].
  - intros [t cip dp| | | | | | | | | | | |] Hf; discriminate.
  - intros now [t cip dp|t ts|t tot|t b sh [|]|t b|t b sh [|]|t a|t a|t a|t dl
               |t h name type ts|t h|name] k Hf; cbn in *; try reflexivity;
      try (destruct (decide _); reflexivity).
    apply bool_decide_eq_false_1 in Hf.
    destruct (decide (toLowerCase t = w)); [contradiction | reflexivity].
  - apply (alike_refl (fun now ev (_ : bool) x => rowAfter now ev w x)).
Qed.

Lemma shareOf_second_pass ds1 ds2 key :
  map snd ds1 = map snd ds2 ->
  inEmissionOrder ∅ (map snd ds1) -> Forall blockKnown (map snd ds1) ->
  shareOf (replay applied ds2 (replay applied ds1 fresh)) key
  = shareOf (replay applied ds1 fresh) key.
Proof.
  intros Hev Hord Hb.
  apply (second_pass (fun db => shareOf db key)
           (fun _ ev k x => shareAfter ev k key x) (fixesShare key));
    try assumption; try reflexivity.
  - intros now ev db. apply shareOf_applied.
  - intros now [ | | | | | | | | | | | |] k1 k2 x Hc; try discriminate. reflexivity.
  - intros now [ | | | | | | | | | | | |] k1 k2 x Hw; try discriminate; reflexivity.
  - intros now [ | | |t b sh g|t b| | | | | | | |] x y Hf; try discriminate;
      cbn in *; apply bool_decide_eq_true_1 in Hf;
      destruct (decide _); try reflexivity; contradiction.
  - intros [ | | |t b sh g|t b| | | | | | | |] Hf; try discriminate;
      cbn; discriminate.
  - intros now [t cip dp|t ts|t tot|t b sh g|t b|t b sh g|t a|t a|t a|t dl
               |t h name type ts|t h|name] k Hf; cbn in *; try reflexivity.
    + apply bool_decide_eq_false_1 in Hf. destruct k; [|reflexivity].
      destruct (decide _); [contradiction | reflexivity].
    + apply bool_decide_eq_false_1 in Hf.
      destruct (decide _); [contradiction | reflexivity].
    + destruct (decide _); reflexivity.
  - apply (alike_clockless (fun (_ : Z) ev k x => shareAfter ev k key x));
      [reflexivity | exact Hev | exact Hb].
Qed.

Lemma documentOf_second_pass ds1 ds2 key :
  map snd ds1 = map snd ds2 ->
  inEmissionOrder ∅ (map snd ds1) -> Forall blockKnown (map snd ds1) ->
  documentOf (replay applied ds2 (replay applied ds1 fresh)) key
  = documentOf (replay applied ds1 fresh) key.
Proof.
  intros Hev Hord Hb.
  apply (second_pass (fun db => documentOf db key)
           (fun now ev k x => documentAfter now ev k key x) (fixesDocument key));
    try assumption; try reflexivity.
  - intros now ev db. apply documentOf_applied.
  - intros now [ | | | | | | | | | | | |] k1 k2 x Hc; try discriminate. reflexivity.
  - intros now [ | | | | | | | | | | | |] k1 k2 x Hw; try discriminate; reflexivity.
  - intros now [ | | | | | | | | | |t h name type ts|t h|] x y Hf; try discriminate;
      cbn in *; apply bool_decide_eq_true_1 in Hf;
      destruct (decide _); try reflexivity; contradiction.
  - intros [ | | | | | | | | | |t h name type ts|t h|] Hf; try discriminate;
      cbn; discriminate.
  - intros now [t cip dp|t ts|t tot|t b sh g|t b|t b sh g|t a|t a|t a|t dl
               |t h name type ts|t h|name] k Hf; cbn in *; try reflexivity.
    + apply bool_decide_eq_false_1 in Hf. destruct k; [|reflexivity].
      destruct (decide _); [contradiction | reflexivity].
    + apply bool_decide_eq_false_1 in Hf.
      destruct (decide _); [contradiction | reflexivity].
  - apply (alike_clockless (fun now ev k x => documentAfter now ev k key x));
      [|exact Hev | exact Hb].
    intros n1 n2 [ | | | | | | | | | |t h name type [ts|]| |] k x Hk;
      try reflexivity. contradiction.
Qed.

(** The last check-in survives everything but a later [WillCreated] of
    the same will. *)
Lemma settles_cases w evs : forall acc acc' : option Z,
  fold_left (settlesCheckIn w) evs acc = fold_left (settlesCheckIn w) evs acc' \/
  (fold_left (settlesCheckIn w) evs acc = acc /\
   fold_left (settlesCheckIn w) evs acc' = acc').
Proof.
  induction evs as [|ev evs IH]; intros acc acc'; [right; split; reflexivity|].
  cbn [fold_left].
  assert (Hev : settlesCheckIn w acc ev = settlesCheckIn w acc' ev \/
                (settlesCheckIn w acc ev = acc /\ settlesCheckIn w acc' ev = acc')).
  { destruct ev; cbn; auto; destruct (decide _); auto. }
  destruct Hev as [Heq|[-> ->]]; [left; rewrite Heq; reflexivity | apply IH].
Qed.

Lemma checkedInAt_again w evs ts :
  checkedInAt w evs = Some ts ->
  fold_left (settlesCheckIn w) evs (Some ts) = Some ts.
Proof.
  unfold checkedInAt. intros H.
  destruct (settles_cases w evs None (Some ts)) as [Heq|[_ Hid]];
    [rewrite <- Heq; exact H | exact Hid].
Qed.

(** A vault that no event of the pass moves keeps its row. *)
Lemma insertVaultOrIgnore_same (w : string) (vt : VaultType)
    (V : gmap (string * VaultType) Z) (k : string * VaultType) :
  is_Some (V !! k) \/ k <> (w, vt) -> insertVaultOrIgnore w vt V !! k = V !! k.
Proof.
  unfold insertVaultOrIgnore. destruct (V !! (w, vt)) eqn:Hv; [reflexivity|].
  intros [[v Hk]|Hne].
  - apply lookup_insert_ne. intros <-. congruence.
  - apply lookup_insert_ne. congruence.
Qed.

Lemma replay_vault_untouched (k : string * VaultType) ds : forall db,
  Forall (fun d : Z * Event => movesVault k d.2 = false) ds ->
  (Exists (fun d : Z * Event => createsWill k.1 d.2 = true) ds ->
   is_Some (Vaults db !! k)) ->
  Vaults (replay applied ds db) !! k = Vaults db !! k.
Proof.
  induction ds as [|[n ev] ds IH]; intros db Hmv Hcr; [reflexivity|].
  apply Forall_cons in Hmv. destruct Hmv as [Hev Hmv]. cbn [snd] in Hev.
  rewrite replay_cons. cbn [fst snd].
  assert (Hstep : Vaults (applied n ev db) !! k = Vaults db !! k).
  { unfold applied. cbn [Vaults].
    destruct ev as [t cip dp|t ts|t tot|t b sh g|t b|t b sh g|t a|t a|t a|t dl
                   |t h name type ts|t h|name]; cbn [vaultsAfter movesVault] in *;
      try reflexivity.
    - destruct (decide (toLowerCase t = k.1)) as [Heq|Hne].
      + assert (Hk : is_Some (Vaults db !! k)).
        { apply Hcr. apply Exists_cons_hd. cbn.
          apply bool_decide_eq_true_2, Heq. }
        rewrite insertVaultOrIgnore_same;
          [apply insertVaultOrIgnore_same; left; exact Hk|].
        left. rewrite insertVaultOrIgnore_same; [exact Hk | left; exact Hk].
      + rewrite !insertVaultOrIgnore_same; [reflexivity| |];
          right; intros ->; apply Hne; reflexivity.
    - apply bool_decide_eq_false_1 in Hev. destruct (known db _); [|reflexivity].
      apply lookup_insert_ne. exact Hev.
    - apply bool_decide_eq_false_1 in Hev. destruct (known db _); [|reflexivity].
      apply lookup_insert_ne. exact Hev.
    - apply bool_decide_eq_false_1 in Hev. destruct (known db _); [|reflexivity].
      apply lookup_insert_ne. exact Hev. }
  rewrite IH; [exact Hstep | exact Hmv |].
  intros Hex. rewrite Hstep. apply Hcr. apply Exists_cons_tl, Hex.
Qed.

Lemma replay_created w ds : forall db,
  Exists (fun d : Z * Event => createsWill w d.2 = true) ds ->
  is_Some (Wills (replay applied ds db) !! w).
Proof.
  induction ds as [|[n ev] ds IH]; intros db Hex; [inversion Hex|].
  rewrite replay_cons. cbn [fst snd].
  apply Exists_cons in Hex. destruct Hex as [Hc|Hex]; [|apply IH, Hex].
  cbn [snd] in Hc. destruct ev; try discriminate Hc.
  cbn in Hc. apply bool_decide_eq_true_1 in Hc. subst w.
  apply (replay_invariant (fun d => is_Some (Wills d !! toLowerCase t))).
  - intros n' ev' d. unfold applied. cbn [Wills]. apply willsAfter_keeps.
  - unfold applied. cbn [Wills]. apply willsAfter_created.
Qed.

Lemma deposit_adds (t : string) (vt : VaultType) (amount : Z) (db : DB) :
  is_Some (Wills db !! toLowerCase t) ->
  0 <= amount -> 0 <= vaultBalance db (toLowerCase t) vt ->
  updateVaultBalance t vt amount true db
  = Some (setVaults db (<[(toLowerCase t, vt) :=
                            vaultBalance db (toLowerCase t) vt + amount]>
                          (Vaults db))).
Proof.
  intros [r Hr] Ha Hv. unfold updateVaultBalance, vaultBalance in *. rewrite Hr.
  destruct (_ <? 0) eqn:Hlt; [lia | reflexivity].
Qed.

(** C1 as the indexer implements it.  When the turns of a second pass
    apply the same updates in the same order as those of the first (every
    will's events after its [WillCreated], no stored document's lookup
    failed, any clock readings, live or backfill), neither pass ends the
    process and the second leaves will rows, beneficiary shares and
    document metadata as the first left them, clock stamps and surrogate
    row ids apart.  [lastCheckIn] stays the time of the last [CheckIn]
    where a will was checked in; with the clock readings of the first
    pass the will rows are the same column by column; a vault that no
    event of the pass moves keeps its balance.  Vault balances are
    accumulated, not set: on a will the replica knows, a deposit event
    delivered twice adds its amount twice. *)
Theorem second_pass_keeps_ledger (ts1 ts2 : list (Z * Turn)) :
  map snd (work ts1) = map snd (work ts2) ->
  inEmissionOrder ∅ (map snd (work ts1)) ->
  Forall blockKnown (map snd (work ts1)) ->
  exists once twice,
    run ts1 fresh = Running once /\ run (ts1 ++ ts2) fresh = Running twice /\
    ledger twice = ledger once /\
    (forall w ts r,
       checkedInAt w (map snd (work ts1)) = Some ts ->
       Wills once !! w = Some r \/ Wills twice !! w = Some r ->
       lastCheckIn r = ts) /\
    (work ts2 = work ts1 -> Wills twice = Wills once) /\
    (forall k,
       Forall (fun ev => movesVault k ev = false) (map snd (work ts1)) ->
       Vaults twice !! k = Vaults once !! k) /\
    (forall n1 n2 t amount db,
       is_Some (Wills db !! toLowerCase t) -> 0 <= amount ->
       (0 <= vaultBalance db (toLowerCase t) locked ->
        vaultBalance (onEvent n2 (DepositLocked t amount)
                        (onEvent n1 (DepositLocked t amount) db))
          (toLowerCase t) locked
        = vaultBalance db (toLowerCase t) locked + 2 * amount) /\
       (0 <= vaultBalance db (toLowerCase t) flexible ->
        vaultBalance (onEvent n2 (DepositFlexible t amount)
                        (onEvent n1 (DepositFlexible t amount) db))
          (toLowerCase t) flexible
        = vaultBalance db (toLowerCase t) flexible + 2 * amount)).
Proof.
  intros Hev Hord Hb.
  destruct (run_in_order ts1 ∅ fresh Hord) as [once Hr1];
    [intros w Hw; apply elem_of_empty in Hw; contradiction|].
  destruct (run_in_order ts2 ∅ once) as [twice Hr2];
    [rewrite <- Hev; exact Hord
    |intros w Hw; apply elem_of_empty in Hw; contradiction|].
  exists once, twice.
  pose proof (run_Running _ _ _ Hr1) as H1.
  pose proof (run_Running _ _ _ Hr2) as H2. rewrite H1 in H2.
  split; [exact Hr1|]. split; [rewrite (run_app ts1 ts2 fresh once Hr1); exact Hr2|].
  split; [|split; [|split; [|split]]].
  - rewrite H2, H1. unfold ledger. f_equal; apply map_eq; intros k;
      rewrite !lookup_fmap.
    + apply (willCore_second_pass (work ts1) (work ts2) k Hev Hord Hb).
    + apply (shareOf_second_pass (work ts1) (work ts2) k Hev Hord Hb).
    + apply (documentOf_second_pass (work ts1) (work ts2) k Hev Hord Hb).
  - intros w ts r Hc Hrow.
    assert (Honce : forall r' ts',
               Wills once !! w = Some r' ->
               checkedInAt w (map snd (work ts1)) = Some ts' ->
               lastCheckIn r' = ts').
    { intros r' ts' Hr' Hc'. rewrite H1 in Hr'.
      exact (replay_checkedIn w (work ts1) fresh None keyed_fresh
               (fun r0 ts0 => checkedIn_fresh w r0 ts0 None) r' ts' Hr' Hc'). }
    destruct Hrow as [Hrow|Hrow]; [exact (Honce r ts Hrow Hc)|].
    rewrite H2, <- H1 in Hrow.
    refine (replay_checkedIn w (work ts2) once
              (checkedInAt w (map snd (work ts1))) _ Honce r ts Hrow _).
    + rewrite H1. apply replay_applied_keyed, keyed_fresh.
    + rewrite <- Hev, Hc. apply checkedInAt_again, Hc.
  - intros Hsame. rewrite H2, H1, Hsame. apply map_eq. intros w.
    apply row_second_pass, Hord.
  - intros k Hmv. rewrite H2, <- H1.
    apply replay_vault_untouched.
    + apply Forall_forall. intros d Hd. rewrite Forall_forall in Hmv.
      apply Hmv. rewrite Hev. apply list_elem_of_fmap. eauto.
    + intros Hex. destruct k as [w vt].
      assert (Hw : is_Some (Wills once !! w)).
      { rewrite H1. apply replay_created.
        apply Exists_exists in Hex. destruct Hex as (d & Hd & Hc).
        assert (Hin : d.2 ∈ map snd (work ts1))
          by (rewrite Hev; apply list_elem_of_fmap; eauto).
        apply list_elem_of_fmap in Hin. destruct Hin as (d1 & Hd1 & Hin).
        apply Exists_exists. exists d1. split; [exact Hin|].
        cbn [fst] in Hc. rewrite <- Hd1. exact Hc. }
      assert (Hinit : vaultsInitialised once)
        by (rewrite H1; apply replay_applied_vaultsInitialised,
              vaultsInitialised_fresh).
      destruct Hinit as [Hrows _]. destruct (Hrows w Hw) as [Hl Hf].
      destruct vt; assumption.
  - intros n1 n2 t amount db Hw Ha.
    assert (Hdouble : forall vt,
      0 <= vaultBalance db (toLowerCase t) vt ->
      vaultBalance
        (caught (caught db (updateVaultBalance t vt amount true db))
           (updateVaultBalance t vt amount true
              (caught db (updateVaultBalance t vt amount true db))))
        (toLowerCase t) vt
      = vaultBalance db (toLowerCase t) vt + 2 * amount).
    { intros vt Hv. rewrite (deposit_adds t vt amount db Hw Ha Hv).
      cbn [caught default from_option id].
      set (db1 := setVaults db _).
      assert (Hv1 : vaultBalance db1 (toLowerCase t) vt
                    = vaultBalance db (toLowerCase t) vt + amount).
      { unfold vaultBalance at 1. subst db1. cbn [setVaults Vaults].
        rewrite lookup_insert_eq. reflexivity. }
      rewrite (deposit_adds t vt amount db1); [| exact Hw | exact Ha | lia].
      cbn [caught default from_option id]. unfold vaultBalance at 1. cbn [setVaults Vaults].
      rewrite lookup_insert_eq. cbn [default from_option id]. rewrite Hv1. lia. }
    split; intros Hv; apply Hdouble, Hv.
Qed.

(** The full sample handled live at clock 1000, every lookup settling at
    once, and backfilled at clock 2000 over the result; and a deposit of 5
    delivered twice to a new will. *)
Lemma second_pass_keeps_ledger_witness :
  exists once twice,
    run (promptly (deliveredAt 1000 fullEvents)) fresh = Running once /\
    run (promptly (deliveredAt 1000 fullEvents)
         ++ backfilled (deliveredAt 2000 fullEvents)) fresh = Running twice /\
    ledger twice = ledger once /\
    (forall r, Wills twice !! toLowerCase addrA = Some r -> lastCheckIn r = 1500) /\
    vaultBalance
      (onEvent 2000 (DepositLocked addrA 5)
         (onEvent 1000 (DepositLocked addrA 5)
            (onEvent 900 (WillCreated addrA 2592000 604800) fresh)))
      (toLowerCase addrA) locked = 10.
Proof.
  assert (Hw : map snd (work (promptly (deliveredAt 1000 fullEvents))) = fullEvents)
    by reflexivity.
  assert (Hev : map snd (work (promptly (deliveredAt 1000 fullEvents)))
                = map snd (work (backfilled (deliveredAt 2000 fullEvents))))
    by reflexivity.
  assert (Hord : inEmissionOrder ∅
                   (map snd (work (promptly (deliveredAt 1000 fullEvents))))).
  { rewrite Hw. cbn. repeat split; (left; reflexivity) || (right; set_solver). }
  assert (Hb : Forall blockKnown
                 (map snd (work (promptly (deliveredAt 1000 fullEvents))))).
  { rewrite Hw. cbn. repeat constructor. }
  destruct (second_pass_keeps_ledger (promptly (deliveredAt 1000 fullEvents))
              (backfilled (deliveredAt 2000 fullEvents)) Hev Hord Hb)
    as (once & twice & Hr1 & Hr2 & Hledger & Hcheck & _ & _ & Hvault).
  exists once, twice.
  split; [exact Hr1|]. split; [exact Hr2|]. split; [exact Hledger|]. split.
  - intros r Hr. apply (Hcheck (toLowerCase addrA) 1500 r); [|right; exact Hr].
    rewrite Hw. reflexivity.
  - destruct (Hvault 1000 2000 addrA 5
                (onEvent 900 (WillCreated addrA 2592000 604800) fresh))
      as [Hlocked _].
    + vm_compute. eauto.
    + lia.
    + rewrite Hlocked; vm_compute; [reflexivity | discriminate].
Defined.

(** C1 as stated fails, on five counts.  [WillCreated; DepositLocked 5]
    applied twice to a new replica, every turn at the same clock reading,
    leaves a locked balance of 10, applied once a balance of 5.  A
    beneficiary added twice is stored under a new row id.  A second pass
    at a later clock stamps the will row anew.  Events that the first
    pass dropped because they came before their [WillCreated] are stored
    by the second.  And a document whose block lookup failed is stored
    under the clock reading of each pass. *)
Lemma replay_twice_doubles_deposit :
  (vaultBalance (written (run (backfilled (deliveredAt 1000 sampleEvents)) fresh))
     (toLowerCase addrA) locked = 5 /\
   vaultBalance
     (written (run (backfilled (deliveredAt 1000 (sampleEvents ++ sampleEvents)))
                 fresh))
     (toLowerCase addrA) locked = 10 /\
   run (backfilled (deliveredAt 1000 (sampleEvents ++ sampleEvents))) fresh
   <> run (backfilled (deliveredAt 1000 sampleEvents)) fresh /\
   run (promptly (deliveredAt 1000 (sampleEvents ++ sampleEvents))) fresh
   <> run (promptly (deliveredAt 1000 sampleEvents)) fresh) /\
  (let evs := [WillCreated addrA 2592000 604800;
               BeneficiaryAdded addrA addrB 60 false] in
   beneficiaryId <$>
     Beneficiaries (written (run (backfilled (deliveredAt 1000 evs)) fresh))
       !! (toLowerCase addrA, toLowerCase addrB) = Some 1 /\
   beneficiaryId <$>
     Beneficiaries (written (run (backfilled (deliveredAt 1000 (evs ++ evs))) fresh))
       !! (toLowerCase addrA, toLowerCase addrB) = Some 2) /\
  (let evs := [WillCreated addrA 2592000 604800] in
   (fun r => (lastCheckIn r, createdAt r, updatedAt r)) <$>
     Wills (written (run (backfilled (deliveredAt 1000 evs)) fresh))
       !! toLowerCase addrA = Some (1000, 1000, 1000) /\
   (fun r => (lastCheckIn r, createdAt r, updatedAt r)) <$>
     Wills (written (run (backfilled (deliveredAt 1000 evs)
                          ++ backfilled (deliveredAt 2000 evs)) fresh))
       !! toLowerCase addrA = Some (2000, 2000, 2000)) /\
  (let evs := [BeneficiaryAdded addrA addrB 60 false;
               WillCreated addrA 2592000 604800] in
   shareOf (written (run (backfilled (deliveredAt 1000 evs)) fresh))
     (toLowerCase addrA, toLowerCase addrB) = None /\
   shareOf (written (run (backfilled (deliveredAt 1000 (evs ++ evs))) fresh))
     (toLowerCase addrA, toLowerCase addrB) = Some 60) /\
  (let created := WillCreated addrA 2592000 604800 in
   let added := DocumentAdded addrA "QmYwAPJzv5CZsnA625s3Xf2nemtYgPpHdWEz79ojWnPbdG"
                  "will.pdf" "testament" None in
   let pass now := [(now, Emitted created); (now, Emitted added);
                    (now, Settled added)] in
   documentOf (written (run (pass 1000) fresh))
     (toLowerCase addrA, "QmYwAPJzv5CZsnA625s3Xf2nemtYgPpHdWEz79ojWnPbdG")
   = Some ("will.pdf", "testament", 1000) /\
   documentOf (written (run (pass 1000 ++ pass 2000) fresh))
     (toLowerCase addrA, "QmYwAPJzv5CZsnA625s3Xf2nemtYgPpHdWEz79ojWnPbdG")
   = Some ("will.pdf", "testament", 2000)).
Proof.
  split; [|split; [|split; [|split]]]; cbn zeta.
  - split; [vm_compute; reflexivity|]. split; [vm_compute; reflexivity|].
    split; intros H;
      apply (f_equal (fun o => vaultBalance (written o) (toLowerCase addrA) locked))
        in H; vm_compute in H; discriminate.
  - split; vm_compute; reflexivity.
  - split; vm_compute; reflexivity.
  - split; vm_compute; reflexivity.
  - split; vm_compute; reflexivity.
Qed.

End ProjectionFacts.

(** * More of the contract *)

Module ContractExtras.
Import Contract ContractFacts.

Lemma beneficiaryIndexFrom_spec k user bs i :
  beneficiaryIndexFrom k user bs = Ok i ->
  (k <= i)%nat /\
  (exists b, bs !! (i - k)%nat = Some b /\ wallet b = user) /\
  (forall j b, (j < i - k)%nat -> bs !! j = Some b -> wallet b <> user).
Proof.
  revert k. induction bs as [|b bs IH]; intros k H; cbn in *; [discriminate|].
  destruct (Z.eqb_spec (wallet b) user) as [Hw|Hw].
  - injection H as <-. rewrite Nat.sub_diag. split; [lia|]. split; [eauto|].
    intros j c Hj. lia.
  - apply IH in H. destruct H as (Hk & (c & Hc & Hu) & Hfirst).
    split; [lia|]. replace (i - k)%nat with (S (i - S k)) by lia. split.
    + exists c. cbn. auto.
    + intros [|j] c' Hj Hc'; cbn in Hc'.
      * injection Hc' as <-. exact Hw.
      * eapply Hfirst; [|exact Hc']. lia.
Qed.

Lemma beneficiaryIndexFrom_missing k user bs :
  isBeneficiaryIn user bs = false ->
  beneficiaryIndexFrom k user bs = Fail (Revert "Beneficiary not found").
Proof.
  revert k. induction bs as [|b bs IH]; intros k H; cbn in *; [reflexivity|].
  destruct (wallet b =? user); [discriminate | eauto].
Qed.

Lemma isBeneficiaryIn_elem user bs :
  isBeneficiaryIn user bs = true <-> user ∈ wallet <$> bs.
Proof.
  induction bs as [|b bs IH]; cbn [isBeneficiaryIn].
  - split; [discriminate | intros H; inversion H].
  - rewrite fmap_cons, elem_of_cons.
    destruct (Z.eqb_spec (wallet b) user) as [->|Hne].
    + split; auto.
    + rewrite IH. split; [auto|]. intros [H|H]; congruence.
Qed.

(** Every successful call is one write. *)
Lemma exec_writes s e c rc :
  exec s e c = Ok rc ->
  exists k w', post rc = <[k := w']> s /\ writes e c k (getWill s k) w'.
Proof.
  destruct c; cbn [exec]; intros H.
  - unfold createWill in H. peel. eexists _, _. split; [reflexivity|].
    apply writes_create; lia.
  - pose proof (executeWill_Ok _ _ _ _ H) as (Ht & Hx & Hpost & _).
    unfold executeWill in H. peel.
    match goal with
    | Hd : distribute _ _ _ = Ok _ |- _ =>
        pose proof (distribute_Ok _ _ _ _ Hd) as ->
    end.
    match goal with
    | Hs : _getTotalShares _ _ = Ok _ |- _ =>
        pose proof (totalSharesFrom_Ok _ _ _ Hs) as Hsum
    end.
    eexists _, _. split; [exact Hpost|].
    apply writes_execute; try assumption; lia.
  - pose proof (addBeneficiary_Ok _ _ _ _ _ _ H) as (Hpost & Hsum & Hg & _).
    unfold addBeneficiary in H. peel.
    eexists _, _. split; [exact Hpost|].
    apply writes_add; try assumption; try lia.
    + destruct (executed _); [discriminate | reflexivity].
    + unfold _isBeneficiaryOfWill in *.
      destruct (isBeneficiaryIn _ _); [discriminate | reflexivity].
  - pose proof (updateBeneficiary_Ok _ _ _ _ _ _ H)
      as (i & tg & Hi & Htg & Hpost & Hsum & Hg & _).
    unfold updateBeneficiary in H. peel.
    eexists _, _. split; [exact Hpost|].
    eapply writes_update; try eassumption; try lia.
    destruct (executed _); [discriminate | reflexivity].
  - pose proof (removeBeneficiary_Ok _ _ _ _ H) as (i & l & Hi & Hl & Hpost & _).
    unfold removeBeneficiary in H. peel.
    match goal with
    | Hidx : _getBeneficiaryIndex _ _ _ = Ok ?j |- _ => rename j into idx
    end.
    replace (Z.to_nat (Z.of_nat (length (beneficiaries (getWill s (sender e)))) - 1))
      with (length (beneficiaries (getWill s (sender e))) - 1)%nat in H by lia.
    rewrite Hl in H. destruct (decide _); [|discriminate]. injection H as <-.
    eexists _, _. split; [reflexivity|].
    eapply writes_remove; try eassumption; try lia.
    destruct (executed _); [discriminate | reflexivity].
  - unfold depositLocked in H. peel. eexists _, _. split; [reflexivity|].
    apply writes_depositLocked; try lia.
    destruct (executed _); [discriminate | reflexivity].
  - unfold depositFlexible in H. peel. eexists _, _. split; [reflexivity|].
    apply writes_depositFlexible; try lia.
    destruct (executed _); [discriminate | reflexivity].
  - unfold withdrawFlexible in H. peel. eexists _, _. split; [reflexivity|].
    apply writes_withdraw; try lia; try assumption.
    destruct (executed _); [discriminate | reflexivity].
  - unfold checkIn in H. peel. eexists _, _. split; [reflexivity|].
    apply writes_checkIn; try lia.
    destruct (executed _); [discriminate | reflexivity].
Qed.

(** A property of the will under each key that every write keeps holds
    in every reachable state. *)
Lemma reachable_will_invariant (P : Z -> Will -> Prop) :
  (forall a, P a emptyWill) ->
  (forall e c k w w', P k w -> writes e c k w w' -> P k w') ->
  forall s, reachable s -> forall a, P a (getWill s a).
Proof.
  intros Hinit Hstep s Hr. induction Hr as [|s s' Hr IH (e & c & ->)]; intros a.
  - rewrite getWill_empty. apply Hinit.
  - destruct (exec s e c) as [rc|f] eqn:Hx; cbn [after]; [|apply IH].
    destruct (exec_writes s e c rc Hx) as (k & w' & -> & Hw).
    rewrite getWill_insert. destruct (decide (k = a)) as [<-|]; [|apply IH].
    eapply Hstep; [apply IH | exact Hw].
Qed.

Lemma reachable_funded : reachable funded.
Proof. repeat apply reachable_transact. apply reachable_init. Qed.

(** *** Swap-and-pop as a permutation *)

Lemma swap_pop_snoc_perm (front : list Beneficiary) lastEntry i old :
  (front ++ [lastEntry]) !! i = Some old ->
  old :: take (length front) (<[i := lastEntry]> (front ++ [lastEntry]))
  ≡ₚ front ++ [lastEntry].
Proof.
  intros Hi. destruct (decide (i < length front)%nat) as [Hlt|Hge].
  - rewrite lookup_app_l in Hi by exact Hlt.
    rewrite insert_app_l by exact Hlt.
    rewrite take_app_length' by (rewrite length_insert; reflexivity).
    rewrite insert_take_drop by exact Hlt.
    rewrite <- (take_drop_middle front i old Hi) at 3.
    rewrite <- app_assoc. cbn [app].
    etransitivity; [|apply Permutation_middle].
    apply Permutation_skip, Permutation_app_head, Permutation_cons_append.
  - assert (i = length front) as ->.
    { apply lookup_lt_Some in Hi. rewrite length_app in Hi. cbn in Hi. lia. }
    pose proof Hi as Hi'.
    rewrite lookup_app_r, Nat.sub_diag in Hi' by lia. cbn in Hi'.
    injection Hi' as ->.
    rewrite list_insert_id by exact Hi. rewrite take_app_length.
    apply Permutation_cons_append.
Qed.

Lemma swap_pop_perm (bs : list Beneficiary) i old lastEntry :
  bs !! i = Some old ->
  bs !! (length bs - 1)%nat = Some lastEntry ->
  old :: take (length bs - 1) (<[i := lastEntry]> bs) ≡ₚ bs.
Proof.
  intros Hi Hl. pose proof (snoc_of_last bs lastEntry Hl) as Hs.
  generalize dependent (take (length bs - 1) bs). intros front ->.
  replace (length (front ++ [lastEntry]) - 1)%nat with (length front)
    by (rewrite length_app; cbn; lia).
  apply swap_pop_snoc_perm. exact Hi.
Qed.

(** *** The shape of stored wills *)

Lemma ownKey_writes e c k w w' : ownKey k w -> writes e c k w w' -> ownKey k w'.
Proof.
  intros (Hid & Hblank & Hper) Hw.
  destruct Hw; unfold ownKey; cbn; repeat split; intros; try tauto; try lia; auto.
Qed.

Lemma walletsDistinct_writes e c k w w' :
  walletsDistinct k w -> writes e c k w w' -> walletsDistinct k w'.
Proof.
  intros (Hnd & Hok) Hw.
  destruct Hw as [cip dp w Ht _ _ | t w | b sh g w _ _ _ Hb0 Hbs Hnew _ _
                 | b sh g i target w _ _ _ Hi Htg _ _
                 | b i lastEntry w _ _ Hi Hl | v w | v w | a w | w];
    unfold walletsDistinct; cbn; try (split; assumption).
  - (* push *)
    split.
    + rewrite fmap_app. apply NoDup_app. split; [exact Hnd|]. split.
      * intros x Hx Hin. cbn in Hin. apply list_elem_of_singleton in Hin. subst x.
        apply isBeneficiaryIn_elem in Hx. congruence.
      * cbn. apply NoDup_singleton.
    + apply Forall_app. split; [exact Hok|]. constructor; [|constructor].
      cbn. auto.
  - (* set *)
    split.
    + rewrite list_fmap_insert. cbn.
      rewrite list_insert_id; [exact Hnd|].
      rewrite list_lookup_fmap, Htg. reflexivity.
    + apply Forall_insert; [exact Hok|]. cbn.
      eapply Forall_lookup_1 in Hok; [exact Hok | exact Htg].
  - (* swap and pop *)
    apply beneficiaryIndexFrom_spec in Hi.
    destruct Hi as (_ & (old & Hold & _) & _). rewrite Nat.sub_0_r in Hold.
    pose proof (swap_pop_perm _ _ _ _ Hold Hl) as Hp.
    split.
    + assert (Hp' : wallet old :: (wallet <$> take (length (beneficiaries w) - 1)
                                     (<[i := lastEntry]> (beneficiaries w)))
                    ≡ₚ wallet <$> beneficiaries w).
      { rewrite <- fmap_cons. apply fmap_Permutation. exact Hp. }
      apply (NoDup_Permutation_proper _ _ Hp') in Hnd.
      apply NoDup_cons in Hnd. apply Hnd.
    + assert (Hok' : Forall (fun b => wallet b <> 0 /\ wallet b <> sender e)
                       (old :: take (length (beneficiaries w) - 1)
                                 (<[i := lastEntry]> (beneficiaries w)))).
      { apply Forall_forall. intros x Hx.
        eapply Forall_forall in Hok; [exact Hok|]. rewrite <- Hp. exact Hx. }
      apply Forall_cons in Hok'. apply Hok'.
Qed.

Lemma vaultsSound_writes e c k w w' :
  vaultsSound w -> writes e c k w w' -> vaultsSound w'.
Proof.
  intros (Hl & Hf & Hx) Hw. pose proof MAX_UINT256_large.
  destruct Hw; unfold vaultsSound; cbn; repeat split; intros;
    try lia; try discriminate; try congruence; try (apply Hx; assumption).
Qed.

Lemma ownKey_empty a : ownKey a emptyWill.
Proof. unfold ownKey. cbn. repeat split; auto; intros; congruence. Qed.

Lemma walletsDistinct_empty a : walletsDistinct a emptyWill.
Proof. split; cbn; constructor. Qed.

Lemma vaultsSound_empty : vaultsSound emptyWill.
Proof.
  pose proof MAX_UINT256_large.
  unfold vaultsSound. cbn. repeat split; intros; try lia; discriminate.
Qed.

Lemma reachable_walletsDistinct s a :
  reachable s -> walletsDistinct a (getWill s a).
Proof.
  intros Hr. revert a.
  apply (reachable_will_invariant walletsDistinct);
    [exact walletsDistinct_empty | exact walletsDistinct_writes | exact Hr].
Qed.

Lemma reachable_vaultsSound s a : reachable s -> vaultsSound (getWill s a).
Proof.
  intros Hr. revert a.
  apply (reachable_will_invariant (fun _ => vaultsSound));
    [intros; exact vaultsSound_empty | exact vaultsSound_writes | exact Hr].
Qed.

Lemma reachable_ownKey s a : reachable s -> ownKey a (getWill s a).
Proof.
  intros Hr. revert a.
  apply (reachable_will_invariant ownKey);
    [exact ownKey_empty | exact ownKey_writes | exact Hr].
Qed.

Lemma writes_key e c k w w' : writes e c k w w' -> k = sender e \/ c = ExecuteWill k.
Proof. intros []; auto. Qed.

Lemma writes_keeps_identity e c k w w' :
  testator w <> 0 -> writes e c k w w' ->
  testator w' = testator w /\ checkInPeriod w' = checkInPeriod w
  /\ disputePeriod w' = disputePeriod w.
Proof. intros Ht Hw. destruct Hw; cbn; auto; congruence. Qed.

Lemma reachable_blank s a :
  reachable s -> a <> 0 -> testator (getWill s a) = 0 -> getWill s a = emptyWill.
Proof.
  intros Hr. revert a.
  apply (reachable_will_invariant
           (fun a w => a <> 0 -> testator w = 0 -> w = emptyWill));
    [reflexivity | | exact Hr].
  intros e c k w w' HP Hw Hk Ht.
  pose proof (writes_key _ _ _ _ _ Hw) as Hkey.
  destruct Hw; cbn in *; congruence.
Qed.

(** The slot of address 0 is the one exception: [createWill] sent from
    address 0 stores its periods and the block time under a testator of 0,
    which reads as no will. *)
Lemma zero_address_slot_is_not_blank :
  let s := transact ∅ (envOf 0 1000) (CreateWill 2592000 604800) in
  reachable s /\ testator (getWill s 0) = 0 /\
  lastCheckIn (getWill s 0) = 1000 /\ checkInPeriod (getWill s 0) = 2592000 /\
  getWill s 0 <> emptyWill.
Proof.
  split; [apply reachable_transact, reachable_init|].
  repeat split; try (vm_compute; reflexivity).
  vm_compute. discriminate.
Qed.

(** X1.  In every reachable state the will stored under an address is
    either absent ([testator = 0]) or owned by that address.  An absent
    will has no beneficiaries, empty vaults and is not executed, and under
    every address but 0 it is the blank will, all eight fields at their
    defaults.  An existing will has positive check-in and dispute
    periods. *)
Theorem wills_keep_their_key s a :
  reachable s ->
  (testator (getWill s a) = 0 \/ testator (getWill s a) = a) /\
  (testator (getWill s a) = 0 ->
   beneficiaries (getWill s a) = [] /\ lockedVault (getWill s a) = 0 /\
   flexibleVault (getWill s a) = 0 /\ executed (getWill s a) = false) /\
  (a <> 0 -> testator (getWill s a) = 0 -> getWill s a = emptyWill) /\
  (testator (getWill s a) <> 0 ->
   0 < checkInPeriod (getWill s a) /\ 0 < disputePeriod (getWill s a)).
Proof.
  intros Hr. destruct (reachable_ownKey s a Hr) as (H1 & H2 & H3).
  split; [exact H1|]. split; [exact H2|]. split; [|exact H3].
  exact (reachable_blank s a Hr).
Qed.

Lemma wills_keep_their_key_witness :
  testator (getWill funded alice) = alice /\
  0 < checkInPeriod (getWill funded alice) /\
  getWill funded mallory = emptyWill.
Proof.
  destruct (wills_keep_their_key funded alice reachable_funded)
    as (Hkey & _ & _ & Hlive).
  destruct (wills_keep_their_key funded mallory reachable_funded)
    as (_ & _ & Hblank & _).
  split; [|split].
  - destruct Hkey as [Hk|Hk]; [vm_compute in Hk; discriminate | exact Hk].
  - apply Hlive. vm_compute. discriminate.
  - apply Hblank; [vm_compute; discriminate | vm_compute; reflexivity].
Defined.

(** X2.  A will, once created, is never deleted or created again: in every
    later state its testator and its two periods are what they were, and
    [createWill] by its owner fails with "Will already exists". *)
Theorem will_is_permanent s s2 a :
  testator (getWill s a) <> 0 -> successor s s2 ->
  testator (getWill s2 a) = testator (getWill s a) /\
  checkInPeriod (getWill s2 a) = checkInPeriod (getWill s a) /\
  disputePeriod (getWill s2 a) = disputePeriod (getWill s a) /\
  forall e cip dp, sender e = a ->
    createWill s2 e cip dp = Fail (Revert "Will already exists").
Proof.
  intros Ht Hs.
  assert (Hkeep : testator (getWill s2 a) = testator (getWill s a) /\
                  checkInPeriod (getWill s2 a) = checkInPeriod (getWill s a) /\
                  disputePeriod (getWill s2 a) = disputePeriod (getWill s a)).
  { induction Hs as [|s1 s2 Hs IH (e & c & ->)]; [auto|].
    destruct IH as (I1 & I2 & I3).
    destruct (exec s1 e c) as [rc|f] eqn:Hx; cbn [after]; [|auto].
    destruct (exec_writes s1 e c rc Hx) as (k & w' & -> & Hw).
    rewrite getWill_insert. destruct (decide (k = a)) as [->|]; [|auto].
    assert (Ht1 : testator (getWill s1 a) <> 0) by congruence.
    destruct (writes_keeps_identity e c a _ w' Ht1 Hw) as (J1 & J2 & J3).
    rewrite J1, J2, J3. auto. }
  destruct Hkeep as (K1 & K2 & K3). repeat split; try assumption.
  intros e cip dp <-. unfold createWill.
  rewrite (require_false (testator (getWill s2 (sender e)) =? 0)) by lia.
  reflexivity.
Qed.

Lemma will_is_permanent_witness :
  checkInPeriod (getWill funded alice) = checkInPeriod (getWill created alice) /\
  createWill funded (envOf alice 5000) 1 1 = Fail (Revert "Will already exists").
Proof.
  assert (Hs : successor created funded).
  { unfold funded, lockedIn, withGuardian, withBob.
    do 4 (eapply successor_step; [|eexists _, _; reflexivity]).
    apply successor_refl. }
  assert (Ht : testator (getWill created alice) <> 0) by (vm_compute; discriminate).
  destruct (will_is_permanent created funded alice Ht Hs) as (_ & Hc & _ & Hnew).
  split; [exact Hc|]. apply Hnew. reflexivity.
Defined.

(** X3.  In every reachable state the beneficiaries of a will have
    pairwise different wallets, none of them the zero address or the
    testator's own. *)
Theorem beneficiary_wallets_distinct s a :
  reachable s ->
  NoDup (wallet <$> beneficiaries (getWill s a)) /\
  Forall (fun b => wallet b <> 0 /\ wallet b <> a) (beneficiaries (getWill s a)).
Proof. intros Hr. exact (reachable_walletsDistinct s a Hr). Qed.

Lemma beneficiary_wallets_distinct_witness :
  NoDup (wallet <$> beneficiaries (getWill funded alice)).
Proof.
  apply (beneficiary_wallets_distinct funded alice reachable_funded).
Defined.

(** X4.  In every reachable state both vault balances of every will lie in
    the uint256 range, and an executed will holds nothing. *)
Theorem vaults_within_bounds s a :
  reachable s ->
  0 <= lockedVault (getWill s a) <= MAX_UINT256 /\
  0 <= flexibleVault (getWill s a) <= MAX_UINT256 /\
  (executed (getWill s a) = true ->
   lockedVault (getWill s a) = 0 /\ flexibleVault (getWill s a) = 0).
Proof. intros Hr. exact (reachable_vaultsSound s a Hr). Qed.

Lemma reachable_distributed : reachable distributed.
Proof. apply reachable_transact, reachable_funded. Qed.

Lemma vaults_within_bounds_witness :
  0 <= lockedVault (getWill funded alice) <= MAX_UINT256 /\
  (executed (getWill distributed alice) = true ->
   lockedVault (getWill distributed alice) = 0
   /\ flexibleVault (getWill distributed alice) = 0).
Proof.
  split.
  - apply (vaults_within_bounds funded alice reachable_funded).
  - apply (vaults_within_bounds distributed alice reachable_distributed).
Defined.



Lemma exec_on_missing s e c :
  match c with
  | CreateWill _ _ => True
  | ExecuteWill t =>
      testator (getWill s t) = 0 ->
      exec s e c = Fail (Revert "Will does not exist")
  | _ =>
      testator (getWill s (sender e)) = 0 ->
      exec s e c = Fail (Revert "Will does not exist")
  end.
Proof.
  destruct c; cbn [exec]; try exact I; intros Ht;
    unfold executeWill, addBeneficiary, updateBeneficiary, removeBeneficiary,
      depositLocked, depositFlexible, withdrawFlexible, checkIn, willExists;
    rewrite Ht; reflexivity.
Qed.

(** X6.  While an address has no will, every operation on it other than
    [createWill] fails with "Will does not exist": [executeWill] of it by
    anyone, and the seven testator operations called by that address. *)
Theorem missing_will_rejects s t :
  testator (getWill s t) = 0 ->
  (forall e, executeWill s e t = Fail (Revert "Will does not exist")) /\
  (forall e c, sender e = t ->
     (forall cip dp, c <> CreateWill cip dp) -> (forall x, c <> ExecuteWill x) ->
     exec s e c = Fail (Revert "Will does not exist")).
Proof.
  intros Ht. split.
  - intros e. exact (exec_on_missing s e (ExecuteWill t) Ht).
  - intros e c <- Hc Hx. pose proof (exec_on_missing s e c) as H.
    destruct c; auto; [exfalso; eapply Hc; reflexivity
                      | exfalso; eapply Hx; reflexivity].
Qed.

Lemma missing_will_rejects_witness :
  executeWill funded (envOf bob 9000000) mallory
    = Fail (Revert "Will does not exist") /\
  depositLocked funded (envOf mallory 2000) 5 = Fail (Revert "Will does not exist").
Proof.
  assert (Ht : testator (getWill funded mallory) = 0) by (vm_compute; reflexivity).
  destruct (missing_will_rejects funded mallory Ht) as [Hx Hop].
  split; [apply Hx|].
  apply (Hop (envOf mallory 2000) (DoDepositLocked 5)); [reflexivity | |];
    intros; discriminate.
Defined.

(** X7.  [lastCheckIn] of an existing will changes only through [checkIn]
    called by its testator: every other transaction leaves it as it was. *)
Theorem only_checkIn_moves_timer s e c a :
  testator (getWill s a) <> 0 ->
  (c = DoCheckIn -> sender e <> a) ->
  lastCheckIn (getWill (after s (exec s e c)) a) = lastCheckIn (getWill s a).
Proof.
  intros Ht Hc.
  destruct (exec s e c) as [rc|f] eqn:Hx; cbn [after]; [|reflexivity].
  destruct (exec_writes s e c rc Hx) as (k & w' & -> & Hw).
  rewrite getWill_insert.
  destruct (decide (k = a)) as [->|]; [|reflexivity].
  destruct Hw; cbn; try reflexivity; [congruence|].
  exfalso. apply Hc; reflexivity.
Qed.

Lemma only_checkIn_moves_timer_witness :
  lastCheckIn (getWill (after funded (exec funded (envOf alice 7777)
                                        (DoDepositLocked 3))) alice)
  = lastCheckIn (getWill funded alice).
Proof.
  apply only_checkIn_moves_timer; [vm_compute; discriminate | discriminate].
Defined.

(** *** Beneficiary edits *)

Lemma writes_of_remove s e b rc :
  removeBeneficiary s e b = Ok rc ->
  exists w', post rc = <[sender e := w']> s
             /\ writes e (RemoveBeneficiary b) (sender e) (getWill s (sender e)) w'.
Proof.
  intros H. destruct (exec_writes s e (RemoveBeneficiary b) rc H)
    as (k & w' & Hpost & Hw).
  destruct (writes_key _ _ _ _ _ Hw) as [->|Hk]; [eauto | discriminate].
Qed.

(** X8.  A successful [removeBeneficiary] in a reachable state removes
    exactly the entry of that wallet: the wallet is no longer a
    beneficiary, the array is one shorter, the remaining entries are the
    other entries (in some order), and the share total drops by the
    removed share. *)
Theorem removeBeneficiary_removes s e b rc :
  reachable s -> removeBeneficiary s e b = Ok rc ->
  let bs := beneficiaries (getWill s (sender e)) in
  let bs' := beneficiaries (getWill (post rc) (sender e)) in
  isBeneficiaryIn b bs' = false /\
  length bs = S (length bs') /\
  exists removed,
    wallet removed = b /\ removed :: bs' ≡ₚ bs /\
    sumShares bs' = sumShares bs - share removed.
Proof.
  intros Hr H bs bs'.
  destruct (writes_of_remove s e b rc H) as (w' & Hpost & Hw).
  subst bs'. rewrite Hpost, getWill_insert_eq.
  inversion Hw as [| | | |b0 i lastEntry w0 Ht Hx Hi Hl| | | |]; subst. cbn.
  fold bs in Hi, Hl |- *.
  destruct (beneficiaryIndexFrom_spec _ _ _ _ Hi) as (_ & (old & Hold & Hwal) & _).
  rewrite Nat.sub_0_r in Hold.
  pose proof (swap_pop_perm bs i old lastEntry Hold Hl) as Hp.
  destruct (reachable_walletsDistinct s (sender e) Hr) as [Hnd _]. fold bs in Hnd.
  split; [|split].
  - destruct (isBeneficiaryIn b _) eqn:Hin; [|reflexivity]. exfalso.
    apply isBeneficiaryIn_elem in Hin.
    assert (Hp' : wallet old :: (wallet <$> take (length bs - 1) (<[i := lastEntry]> bs))
                  ≡ₚ wallet <$> bs).
    { rewrite <- fmap_cons. apply fmap_Permutation. exact Hp. }
    apply (NoDup_Permutation_proper _ _ Hp') in Hnd.
    apply NoDup_cons in Hnd. destruct Hnd as [Hnot _]. congruence.
  - symmetry. exact (Permutation_length Hp).
  - exists old. split; [exact Hwal|]. split; [exact Hp|].
    apply (weigh_swap_pop share bs i old lastEntry Hold Hl).
Qed.

Lemma removeBeneficiary_removes_witness :
  exists rc,
    removeBeneficiary funded (envOf alice 3000) bob = Ok rc /\
    isBeneficiaryIn bob (beneficiaries (getWill (post rc) alice)) = false /\
    length (beneficiaries (getWill funded alice))
    = S (length (beneficiaries (getWill (post rc) alice))).
Proof.
  destruct (removeBeneficiary funded (envOf alice 3000) bob) as [rc|f] eqn:Hrun;
    [|vm_compute in Hrun; discriminate].
  exists rc. split; [reflexivity|].
  destruct (removeBeneficiary_removes funded (envOf alice 3000) bob rc
              reachable_funded Hrun) as (H1 & H2 & _).
  split; [exact H1 | exact H2].
Defined.

Lemma isBeneficiaryIn_snoc b bs x :
  wallet x = b -> isBeneficiaryIn b (bs ++ [x]) = true.
Proof.
  intros Hx. induction bs as [|c bs IH]; cbn.
  - rewrite Hx, Z.eqb_refl. reflexivity.
  - destruct (wallet c =? b); [reflexivity | exact IH].
Qed.

Lemma beneficiaryIndexFrom_snoc k b bs x :
  isBeneficiaryIn b bs = false -> wallet x = b ->
  beneficiaryIndexFrom k b (bs ++ [x]) = Ok (k + length bs)%nat.
Proof.
  intros Hn Hx. revert k. induction bs as [|c bs IH]; intros k; cbn in *.
  - rewrite Hx, Z.eqb_refl. f_equal. lia.
  - destruct (wallet c =? b); [discriminate|]. rewrite IH by exact Hn.
    f_equal. lia.
Qed.

Lemma getWill_stored (s : gmap Z Will) a :
  testator (getWill s a) <> 0 -> s !! a = Some (getWill s a).
Proof.
  unfold getWill. destruct (s !! a); cbn; [reflexivity | congruence].
Qed.

Lemma insert_getWill (s : gmap Z Will) a :
  testator (getWill s a) <> 0 -> <[a := getWill s a]> s = s.
Proof. intros H. apply insert_id, getWill_stored, H. Qed.

(** X9.  Removing a beneficiary right after adding it undoes the addition:
    storage is exactly what it was before [addBeneficiary]. *)
Theorem add_then_remove_restores s e b sh g rc :
  addBeneficiary s e b sh g = Ok rc ->
  exists rc', removeBeneficiary (post rc) e b = Ok rc' /\ post rc' = s.
Proof.
  intros H.
  destruct (exec_writes s e (AddBeneficiary b sh g) rc H) as (k & w' & Hpost & Hw).
  inversion Hw as [| |b0 sh0 g0 w0 Ht Hx Hsh Hb0 Hbs Hnew Hg Hsum Hc Hk| | | | | |];
    subst.
  set (w := getWill s (sender e)) in *.
  set (x := {| wallet := b; share := sh; isGuardian := g |}) in *.
  set (bs := beneficiaries w) in *.
  unfold removeBeneficiary, willExists, willNotExecuted, _isBeneficiaryOfWill,
    _getBeneficiaryIndex.
  rewrite Hpost, getWill_insert_eq. cbn [beneficiaries setBeneficiaries testator executed].
  rewrite (require_true (negb (testator w =? 0))) by lia. rewrite bind_Ok_l; cbn beta.
  rewrite Hx. cbn [negb require]. rewrite bind_Ok_l; cbn beta.
  rewrite (isBeneficiaryIn_snoc b bs x eq_refl). cbn [require].
  rewrite bind_Ok_l; cbn beta.
  rewrite (beneficiaryIndexFrom_snoc 0 b bs x Hnew eq_refl).
  rewrite bind_Ok_l; cbn beta. cbn [Nat.add].
  rewrite length_app. cbn [length].
  rewrite checked_sub_fits by lia. rewrite bind_Ok_l; cbn beta.
  replace (Z.to_nat (Z.of_nat (length bs + 1) - 1)) with (length bs) by lia.
  assert (Hlast : (bs ++ [x]) !! length bs = Some x).
  { rewrite lookup_app_r, Nat.sub_diag by lia. reflexivity. }
  rewrite Hlast.
  destruct (decide (length bs < length bs + 1)%nat) as [_|]; [|lia].
  eexists. split; [reflexivity|]. cbn [post].
  rewrite list_insert_id by exact Hlast. rewrite take_app_length.
  rewrite insert_insert_eq.
  replace (setBeneficiaries (setBeneficiaries w (bs ++ [x])) bs) with w
    by (subst bs; destruct w; reflexivity).
  apply insert_getWill. exact Ht.
Qed.

Lemma add_then_remove_restores_witness :
  exists rc rc',
    addBeneficiary created (envOf alice 1010) bob 60 false = Ok rc /\
    removeBeneficiary (post rc) (envOf alice 1010) bob = Ok rc' /\
    post rc' = created.
Proof.
  destruct (addBeneficiary created (envOf alice 1010) bob 60 false)
    as [rc|f] eqn:Hrun; [|vm_compute in Hrun; discriminate].
  destruct (add_then_remove_restores _ _ _ _ _ _ Hrun) as (rc' & H1 & H2).
  exists rc, rc'. auto.
Defined.

(** X10.  A successful [updateBeneficiary] rewrites one entry, one that
    carries that wallet: it gets the new share and guardian flag and keeps
    its wallet; every other entry, the length of the array and the rest of
    the will are untouched, and the share total moves by the difference of
    the two shares. *)
Theorem updateBeneficiary_touches_one_entry s e b sh g rc :
  updateBeneficiary s e b sh g = Ok rc ->
  let w := getWill s (sender e) in
  let w' := getWill (post rc) (sender e) in
  exists i target,
    beneficiaries w !! i = Some target /\ wallet target = b /\
    beneficiaries w' !! i
      = Some {| wallet := b; share := sh; isGuardian := g |} /\
    (forall j, j <> i -> beneficiaries w' !! j = beneficiaries w !! j) /\
    length (beneficiaries w') = length (beneficiaries w) /\
    sumShares (beneficiaries w') = sumShares (beneficiaries w) - share target + sh /\
    w' = setBeneficiaries w (beneficiaries w').
Proof.
  intros H w w'.
  destruct (updateBeneficiary_Ok _ _ _ _ _ _ H)
    as (i & target & Hi & Htg & Hpost & _).
  fold w in Hi, Htg, Hpost.
  destruct (beneficiaryIndexFrom_spec _ _ _ _ Hi) as (_ & (t2 & Ht2 & Hwal) & _).
  rewrite Nat.sub_0_r, Htg in Ht2. injection Ht2 as <-.
  subst w'. rewrite Hpost, getWill_insert_eq. cbn [beneficiaries setBeneficiaries].
  exists i, target. split; [exact Htg|]. split; [exact Hwal|].
  assert (Hlen : (i < length (beneficiaries w))%nat)
    by (eapply lookup_lt_Some; eauto).
  split; [rewrite list_lookup_insert_eq by exact Hlen; rewrite Hwal; reflexivity|].
  split; [intros j Hj; apply list_lookup_insert_ne; congruence|].
  split; [apply length_insert|].
  split; [|reflexivity].
  unfold sumShares. rewrite (weigh_insert share _ i target) by exact Htg.
  reflexivity.
Qed.

Lemma updateBeneficiary_touches_one_entry_witness :
  exists rc,
    updateBeneficiary lockedIn (envOf alice 3000) bob 50 false = Ok rc /\
    exists i target,
      beneficiaries (getWill lockedIn alice) !! i = Some target /\
      sumShares (beneficiaries (getWill (post rc) alice))
      = sumShares (beneficiaries (getWill lockedIn alice)) - share target + 50.
Proof.
  destruct (updateBeneficiary lockedIn (envOf alice 3000) bob 50 false)
    as [rc|f] eqn:Hrun; [|vm_compute in Hrun; discriminate].
  exists rc. split; [reflexivity|].
  destruct (updateBeneficiary_touches_one_entry _ _ _ _ _ _ Hrun)
    as (i & target & Htg & _ & _ & _ & _ & Hsum & _).
  exists i, target. split; [exact Htg | exact Hsum].
Defined.

(** *** Vault custody *)



(** *** Execution *)

Lemma totalPaid_payouts total bs :
  0 <= total -> Forall (fun b => 0 <= share b) bs ->
  totalPaid (payouts total bs) = weigh (fun b => total * share b / 100) bs.
Proof.
  intros Ht Hsh. unfold payouts, totalPaid.
  induction Hsh as [|b bs Hb _ IH]; cbn [map weigh]; [reflexivity|].
  assert (0 <= total * share b / 100) by (apply Z.div_pos; nia).
  destruct (Z_lt_le_dec 0 (total * share b / 100)).
  - rewrite filter_cons_True by (cbn; lia). cbn [foldr snd]. rewrite IH. reflexivity.
  - rewrite filter_cons_False by (cbn; lia). rewrite IH. lia.
Qed.

Lemma floor_shares_bounds total bs :
  100 * weigh (fun b => total * share b / 100) bs <= total * sumShares bs
  /\ total * sumShares bs
     <= 100 * weigh (fun b => total * share b / 100) bs
        + 99 * Z.of_nat (length bs).
Proof.
  unfold sumShares. induction bs as [|b bs IH]; cbn [weigh length]; [lia|].
  pose proof (Z.div_mod (total * share b) 100 ltac:(lia)) as Hdm.
  pose proof (Z.mod_pos_bound (total * share b) 100 ltac:(lia)) as Hm.
  lia.
Qed.

Lemma writes_of_execute s e t rc :
  executeWill s e t = Ok rc ->
  writes e (ExecuteWill t) t (getWill s t) (settled (getWill s t)).
Proof.
  intros H. destruct (exec_writes s e (ExecuteWill t) rc H) as (k & w' & _ & Hw).
  inversion Hw; subst. exact Hw.
Qed.

(** X12.  What a successful [executeWill] leaves unpaid is rounding dust:
    the transfers never exceed the two vaults together, and they fall
    short of them by less than one unit per beneficiary (precisely,
    [100 * shortfall <= 99 * number of beneficiaries]).  The vaults are
    zeroed all the same, so the shortfall stays with the contract.
    (Receiving wallets accept or refuse; they do not call back.) *)
Theorem execution_dust_bounded s e t rc :
  reachable s -> executeWill s e t = Ok rc ->
  let w := getWill s t in
  let total := lockedVault w + flexibleVault w in
  let paid := totalPaid (transfers rc) in
  paid <= total /\
  100 * (total - paid) <= 99 * Z.of_nat (length (beneficiaries w)) /\
  lockedVault (getWill (post rc) t) = 0 /\
  flexibleVault (getWill (post rc) t) = 0.
Proof.
  intros Hr H w total paid.
  destruct (executeWill_Ok s e t rc H) as (_ & _ & Hpost & Htr & _).
  fold w in Hpost, Htr. fold total in Htr.
  pose proof (writes_of_execute s e t rc H) as Hw.
  inversion Hw as [|t0 w0 Ht Hx Hdl Hfunds Hsum Hd| | | | | | |]; subst.
  fold w in Hfunds, Hsum. fold total in Hfunds.
  destruct (reachable_sharesBounded s t Hr) as [Hpos _]. fold w in Hpos.
  subst paid. rewrite Htr, totalPaid_payouts;
    [| lia | eapply Forall_impl; [exact Hpos|]; cbn; intros; lia].
  pose proof (floor_shares_bounds total (beneficiaries w)) as [Hlo Hhi].
  rewrite Hsum in Hlo, Hhi.
  rewrite Hpost, getWill_insert_eq. cbn [settled lockedVault flexibleVault].
  repeat split; lia.
Qed.

Lemma execution_dust_bounded_witness :
  exists rc,
    executeWill funded (envOf bob (scenarioDisputeEnd + 1)) alice = Ok rc /\
    totalPaid (transfers rc) <= 15 /\
    100 * (15 - totalPaid (transfers rc)) <= 99 * 2.
Proof.
  destruct (executeWill funded (envOf bob (scenarioDisputeEnd + 1)) alice)
    as [rc|f] eqn:Hrun; [|vm_compute in Hrun; discriminate].
  exists rc. split; [reflexivity|].
  destruct (execution_dust_bounded funded _ alice rc reachable_funded Hrun)
    as (H1 & H2 & _).
  rewrite funded_alice in H1, H2. cbn in H1, H2. split; [exact H1 | exact H2].
Defined.

Lemma isGuardianIn_beneficiary user bs :
  isGuardianIn user bs = true -> isBeneficiaryIn user bs = true.
Proof.
  induction bs as [|b bs IH]; cbn; [discriminate|].
  destruct (wallet b =? user); cbn; [reflexivity|exact IH].
Qed.

(** X13.  Whoever executes a will successfully is one of its
    beneficiaries (in the dispute window: the one flagged guardian) and is
    not the testator; by then the check-in deadline has passed, there are
    funds, and the shares total exactly 100. *)
Theorem executor_is_a_beneficiary s e t rc :
  reachable s -> executeWill s e t = Ok rc ->
  let w := getWill s t in
  isBeneficiaryIn (sender e) (beneficiaries w) = true /\
  (timestamp e <= lastCheckIn w + checkInPeriod w + disputePeriod w ->
   isGuardianIn (sender e) (beneficiaries w) = true) /\
  sender e <> t /\
  lastCheckIn w + checkInPeriod w < timestamp e /\
  0 < lockedVault w + flexibleVault w /\
  sumShares (beneficiaries w) = 100.
Proof.
  intros Hr H w.
  assert (Hwho : isBeneficiaryIn (sender e) (beneficiaries w) = true /\
                 (timestamp e <= lastCheckIn w + checkInPeriod w + disputePeriod w ->
                  isGuardianIn (sender e) (beneficiaries w) = true)).
  { subst w. unfold executeWill in H. peel.
    match goal with
    | Hif : (if _ then _ else _) = Ok _ |- _ =>
        unfold _isGuardianOfWill, _isBeneficiaryOfWill in Hif;
        destruct (Z.leb_spec (timestamp e)
                    (lastCheckIn (getWill s t) + checkInPeriod (getWill s t)
                     + disputePeriod (getWill s t))) as [Hin|Hout];
        apply require_Ok in Hif
    end.
    - split; [apply isGuardianIn_beneficiary; assumption | intros _; assumption].
    - split; [assumption | intros; lia]. }
  pose proof (writes_of_execute s e t rc H) as Hw.
  inversion Hw as [|t0 w0 Ht Hx Hdl Hfunds Hsum Hd| | | | | | |]; subst.
  fold w in Hdl, Hfunds, Hsum.
  destruct Hwho as [Hben Hgua].
  split; [exact Hben|]. split; [exact Hgua|].
  split; [|split; [exact Hdl|split; [lia|exact Hsum]]].
  destruct (reachable_walletsDistinct s t Hr) as [_ Hall]. fold w in Hall.
  apply isBeneficiaryIn_elem, list_elem_of_fmap in Hben.
  destruct Hben as (b & Hb & Hin).
  rewrite Forall_forall in Hall. destruct (Hall b Hin) as [_ Hne]. congruence.
Qed.

Lemma executor_is_a_beneficiary_witness :
  exists rc,
    executeWill funded (envOf gina (scenarioDeadline + 1)) alice = Ok rc /\
    isGuardianIn gina (beneficiaries (getWill funded alice)) = true /\
    gina <> alice.
Proof.
  destruct (executeWill funded (envOf gina (scenarioDeadline + 1)) alice)
    as [rc|f] eqn:Hrun; [|vm_compute in Hrun; discriminate].
  exists rc. split; [reflexivity|].
  destruct (executor_is_a_beneficiary funded _ alice rc reachable_funded Hrun)
    as (_ & H2 & H3 & _).
  split; [|exact H3]. apply H2. vm_compute. discriminate.
Defined.

Lemma distribute_accepted e total bs paid :
  distribute e total bs = Ok paid ->
  Forall (fun b => 0 < total * share b / 100 ->
                   accepts e (wallet b) (total * share b / 100) = true) bs.
Proof.
  revert paid. induction bs as [|b bs IH]; intros paid H; [constructor|].
  cbn [distribute] in H. peel.
  destruct (Z.ltb_spec 0 (total * share b / 100)) as [Hpos|Hle].
  - peel. constructor; [intros _; assumption | eapply IH; eassumption].
  - constructor; [intros; lia | eapply IH; eassumption].
Qed.

(** X14.  Payment is all or nothing: if the wallet of a single
    beneficiary with a positive payout refuses the transfer, [executeWill]
    fails for every caller and storage stays as it was. *)
Theorem rejecting_wallet_blocks_execution s e t b :
  let w := getWill s t in
  let total := lockedVault w + flexibleVault w in
  b ∈ beneficiaries w -> 0 < total * share b / 100 ->
  accepts e (wallet b) (total * share b / 100) = false ->
  isOk (executeWill s e t) = false /\ after s (executeWill s e t) = s.
Proof.
  intros w total Hin Hpos Hrej.
  destruct (executeWill s e t) as [rc|f] eqn:Hrun; [exfalso|split; reflexivity].
  unfold executeWill in Hrun. peel.
  match goal with
  | Hd : distribute _ _ _ = Ok _ |- _ =>
      apply distribute_accepted in Hd; rewrite Forall_forall in Hd;
      specialize (Hd b Hin Hpos); subst w total; congruence
  end.
Qed.

Lemma rejecting_wallet_blocks_execution_witness :
  after funded (executeWill funded
     {| sender := bob; timestamp := scenarioDisputeEnd + 1;
        accepts := fun who _ => negb (who =? gina) |} alice) = funded.
Proof.
  refine (proj2 (rejecting_wallet_blocks_execution funded _ alice
            {| wallet := gina; share := 40; isGuardian := true |} _ _ _)).
  - rewrite funded_alice. cbn. apply list_elem_of_further, list_elem_of_here.
  - rewrite funded_alice. vm_compute. reflexivity.
  - reflexivity.
Defined.

(** X15.  A successful [checkIn] changes nothing of the will but
    [lastCheckIn], which becomes the block time; from then on
    [executeWill] fails for every caller at every time up to and
    including that block time plus the check-in period. *)
Theorem checkIn_restarts_timer s e rc :
  checkIn s e = Ok rc ->
  let w' := getWill (post rc) (sender e) in
  w' = setLastCheckIn (getWill s (sender e)) (timestamp e) /\
  forall e2, timestamp e2 <= timestamp e + checkInPeriod w' ->
    isOk (executeWill (post rc) e2 (sender e)) = false.
Proof.
  intros H w'. unfold checkIn in H. peel. cbn [post] in w'.
  assert (Hw' : w' = setLastCheckIn (getWill s (sender e)) (timestamp e))
    by (subst w'; apply getWill_insert_eq).
  split; [exact Hw'|]. intros e2 Hearly.
  destruct (executeWill _ e2 (sender e)) as [rc2|f] eqn:Hrun; [exfalso|reflexivity].
  pose proof (writes_of_execute _ _ _ _ Hrun) as Hw.
  inversion Hw as [|t0 w0 Ht Hx Hdl _ _ _| | | | | | |]; subst.
  cbn [post] in Hdl. fold w' in Hdl. rewrite Hw' in Hdl, Hearly.
  cbn [setLastCheckIn lastCheckIn checkInPeriod] in Hdl, Hearly. lia.
Qed.

Lemma checkIn_restarts_timer_witness :
  exists rc,
    checkIn funded (envOf alice 5000000) = Ok rc /\
    isOk (executeWill (post rc) (envOf bob (5000000 + 2592000)) alice) = false.
Proof.
  destruct (checkIn funded (envOf alice 5000000)) as [rc|f] eqn:Hrun;
    [|vm_compute in Hrun; discriminate].
  exists rc. split; [reflexivity|].
  destruct (checkIn_restarts_timer funded _ rc Hrun) as [Hw Hlate].
  apply (Hlate (envOf bob (5000000 + 2592000))).
  cbn [sender envOf] in Hw |- *. rewrite Hw, funded_alice. cbn. lia.
Defined.

(** *** Creation and enrolment *)

(** X16.  A will that [createWill] has just created is blank apart from
    its clock: no beneficiaries, both vaults empty, not executed,
    [lastCheckIn] the block time, and both periods positive as given. *)
Theorem created_will_is_blank s e cip dp rc :
  reachable s -> createWill s e cip dp = Ok rc ->
  getWill (post rc) (sender e)
  = {| testator := sender e; beneficiaries := [];
       lockedVault := 0; flexibleVault := 0;
       lastCheckIn := timestamp e; checkInPeriod := cip;
       disputePeriod := dp; executed := false |}
  /\ 0 < cip /\ 0 < dp.
Proof.
  intros Hr H.
  destruct (exec_writes s e (CreateWill cip dp) rc H) as (k & w' & Hpost & Hw).
  inversion Hw as [cip0 dp0 w0 Ht Hc Hd| | | | | | | |]; subst.
  destruct (reachable_ownKey s (sender e) Hr) as (_ & Hblank & _).
  destruct (Hblank Ht) as (Hbs & Hl & Hf & _).
  rewrite Hpost, getWill_insert_eq, Hbs, Hl, Hf. auto.
Qed.

Lemma created_will_is_blank_witness :
  exists rc,
    createWill distributed (envOf mallory 4000000) 86400 3600 = Ok rc /\
    beneficiaries (getWill (post rc) mallory) = [].
Proof.
  destruct (createWill distributed (envOf mallory 4000000) 86400 3600)
    as [rc|f] eqn:Hrun; [|vm_compute in Hrun; discriminate].
  exists rc. split; [reflexivity|].
  destruct (created_will_is_blank distributed _ _ _ rc reachable_distributed Hrun)
    as [Hw _].
  cbn [sender envOf] in Hw. rewrite Hw. reflexivity.
Defined.

(** X17.  In a reachable state [addBeneficiary] succeeds exactly when the
    caller has a live will, the share is in 1..100, the wallet is neither
    zero, the caller, nor already listed, a guardian flag meets no
    existing guardian, and the shares stay within 100. *)
Theorem addBeneficiary_succeeds_iff s e b sh g :
  reachable s ->
  let w := getWill s (sender e) in
  isOk (addBeneficiary s e b sh g) = true <->
  testator w <> 0 /\ executed w = false /\ 0 < sh <= 100 /\
  b <> 0 /\ b <> sender e /\ isBeneficiaryIn b (beneficiaries w) = false /\
  (g = true -> hasGuardianIn (beneficiaries w) = false) /\
  sumShares (beneficiaries w) + sh <= 100.
Proof.
  intros Hr w. split.
  - destruct (addBeneficiary s e b sh g) as [rc|f] eqn:H; [intros _|discriminate].
    destruct (exec_writes s e (AddBeneficiary b sh g) rc H) as (k & w' & _ & Hw).
    subst w. inversion Hw; subst. tauto.
  - intros (Ht & Hx & Hsh & Hb0 & Hbs & Hnew & Hg & Hsum).
    rewrite addBeneficiary_to_guardian_check by assumption.
    unfold _hasGuardian. fold w.
    assert (Hgc : (if g then require (negb (hasGuardianIn (beneficiaries w)))
                               "Guardian already exists" else Ok tt) = Ok tt).
    { destruct g; [rewrite Hg by reflexivity|]; reflexivity. }
    rewrite Hgc, bind_Ok_l. cbn beta.
    rewrite (getTotalShares_reachable s (sender e) Hr), bind_Ok_l. cbn beta.
    fold w. pose proof MAX_UINT256_large.
    destruct (reachable_sharesBounded s (sender e) Hr) as [_ Hle]. fold w in Hle.
    rewrite checked_add_fits by lia. rewrite bind_Ok_l. cbn beta.
    rewrite (require_true (sumShares (beneficiaries w) + sh <=? 100)) by lia.
    reflexivity.
Qed.

Lemma addBeneficiary_succeeds_iff_witness :
  isOk (addBeneficiary withGuardian (envOf alice 2000) mallory 1 false) = false.
Proof.
  destruct (isOk (addBeneficiary withGuardian (envOf alice 2000) mallory 1 false))
    eqn:Hrun; [exfalso|reflexivity].
  apply (proj1 (addBeneficiary_succeeds_iff withGuardian (envOf alice 2000)
                  mallory 1 false reachable_withGuardian)) in Hrun.
  destruct Hrun as (_ & _ & _ & _ & _ & _ & _ & Hsum).
  vm_compute in Hsum. apply Hsum. reflexivity.
Defined.

End ContractExtras.

(** * More on the indexer *)

Module ProjectionExtras.
Import Projection ProjectionFacts.

Lemma lowerAscii_idem c : lowerAscii (lowerAscii c) = lowerAscii c.
Proof. destruct c as [[] [] [] [] [] [] [] []]; reflexivity. Qed.

Lemma toLowerCase_idem s : toLowerCase (toLowerCase s) = toLowerCase s.
Proof.
  induction s as [|c s IH]; cbn; [reflexivity|].
  rewrite lowerAscii_idem, IH. reflexivity.
Qed.

(** X18.  The replica does not depend on the letter case in which an
    event reports its addresses: the live listener, the promise of its
    block lookup and the backfill each do the same with an event and with
    the event with its addresses lower-cased. *)
Theorem replica_ignores_case now ev db :
  onEvent now (lowered ev) db = onEvent now ev db /\
  onBlock now (lowered ev) db = onBlock now ev db /\
  processHistoricalEvent now (lowered ev) db = processHistoricalEvent now ev db.
Proof.
  split; [|split];
    destruct ev as [t cip dp|t ts|t tot|t b sh g|t b|t b sh g|t a|t a|t a|t dl
                   |t h name type ts|t h|name];
    cbn [lowered onEvent onBlock processHistoricalEvent];
    try destruct ts as [ts|];
    unfold createWill, updateLastCheckIn, executeWill, addBeneficiary,
      removeBeneficiary, updateBeneficiary, updateVaultBalance, addDocument,
      removeDocument, updateGuardian;
    cbn zeta; rewrite ?toLowerCase_idem; reflexivity.
Qed.

(** X19.  In a replica built by the indexer from an empty database, a
    will has both of its vault rows from the moment it is created and a
    vault row never exists without its will; no stored balance is ever
    negative. *)
Theorem vault_rows_follow_wills turns w vt :
  let db := written (run turns fresh) in
  (is_Some (Wills db !! w) <-> is_Some (Vaults db !! (w, vt))) /\
  0 <= vaultBalance db w vt.
Proof.
  intros db.
  destruct (run_vaultsInitialised turns) as [Hrows Hpos]. fold db in Hrows, Hpos.
  pose proof (run_foreignKeysHold turns fresh foreignKeysHold_fresh)
    as (_ & HV & _). fold db in HV.
  split; [split|].
  - intros Hw. destruct (Hrows w Hw) as [Hl Hf]. destruct vt; assumption.
  - intros [v Hv]. eapply HV, Hv.
  - unfold vaultBalance. destruct (Vaults db !! (w, vt)) as [v|] eqn:Hv; cbn.
    + eapply Hpos, Hv.
    + lia.
Qed.

Lemma setWills_same db : setWills db (Wills db) = db.
Proof. destruct db. reflexivity. Qed.

Lemma alter_missing {A} (f : A -> A) (m : gmap string A) (k : string) :
  m !! k = None -> alter f k m = m.
Proof. intros H. apply alter_id. intros x Hx. congruence. Qed.

Lemma alter_missing2 {A} (f : A -> A) (m : gmap (string * string) A)
    (k : string * string) :
  m !! k = None -> alter f k m = m.
Proof. intros H. apply alter_id. intros x Hx. congruence. Qed.

Lemma update_by_testator (f : WillRow -> WillRow) (t : string) db :
  keyed db ->
  (fun r => if decide (testator r = t) then f r else r) <$> Wills db
  = alter f t (Wills db).
Proof.
  intros Hk. apply map_eq. intros k. rewrite lookup_fmap, lookup_alter.
  destruct (decide (t = k)) as [->|Hne];
    destruct (Wills db !! k) as [r|] eqn:Hr; cbn; try reflexivity;
    pose proof (Hk _ _ Hr) as Hkey;
    destruct (decide _); first [reflexivity | congruence].
Qed.

(** An event other than [WillCreated] addressed to a will that has no row
    changes nothing when its listener runs. *)
Lemma onEvent_unknown_will now ev db w :
  foreignKeysHold db -> keyed db ->
  willOf ev = Some w -> isWillCreated ev = false -> Wills db !! w = None ->
  onEvent now ev db = db.
Proof.
  intros (HB & HV & HD) Hk Hw Hc Hnone.
  assert (HnoB : forall b, Beneficiaries db !! (w, b) = None).
  { intros b. destruct (Beneficiaries db !! (w, b)) eqn:Hb; [|reflexivity].
    destruct (HB _ _ _ Hb) as [r Hr]. congruence. }
  assert (HnoD : forall h, Documents db !! (w, h) = None).
  { intros h. destruct (Documents db !! (w, h)) eqn:Hd; [|reflexivity].
    destruct (HD _ _ _ Hd) as [r Hr]. congruence. }
  destruct ev as [t cip dp|t ts|t tot|t b sh g|t b|t b sh g|t a|t a|t a|t dl
                 |t h name type ts|t h|name];
    cbn in Hw, Hc; try discriminate; injection Hw as Hw; cbn [onEvent].
  - unfold updateLastCheckIn, caught. cbn.
    rewrite (update_by_testator (withCheckIn (Number ts) now) (toLowerCase t) db Hk).
    rewrite Hw, alter_missing by exact Hnone. apply setWills_same.
  - unfold executeWill, caught. cbn.
    rewrite (update_by_testator (withExecuted now) (toLowerCase t) db Hk).
    rewrite Hw, alter_missing by exact Hnone. apply setWills_same.
  - unfold addBeneficiary. cbn zeta. rewrite Hw, Hnone. reflexivity.
  - unfold removeBeneficiary, caught. cbn. rewrite Hw.
    rewrite delete_id by apply HnoB.
    rewrite alter_missing by exact Hnone. destruct db; reflexivity.
  - unfold updateBeneficiary, caught, updateGuardian. cbn. rewrite Hw.
    rewrite alter_missing2 by apply HnoB.
    destruct g; cbn; rewrite ?alter_missing by exact Hnone; destruct db; reflexivity.
  - unfold updateVaultBalance. cbn zeta. rewrite Hw, Hnone. reflexivity.
  - unfold updateVaultBalance. cbn zeta. rewrite Hw, Hnone. reflexivity.
  - unfold updateVaultBalance. cbn zeta. rewrite Hw, Hnone. reflexivity.
  - reflexivity.
  - unfold removeDocument, caught. cbn. rewrite Hw.
    rewrite delete_id by apply HnoD. destruct db; reflexivity.
Qed.

(** X20.  What arrives before its will, in a replica built by the
    indexer from an empty database: an event other than [WillCreated]
    addressed to a will that has no row leaves every table as it was,
    handled by its listener or by the backfill.  One case is not a silent
    drop: when the block lookup of such a [DocumentAdded] settles, the
    insert inside [.catch] throws with nothing to catch it, and the
    process ends. *)
Theorem early_events_are_dropped_or_fatal turns now ev w :
  let db := written (run turns fresh) in
  willOf ev = Some w -> isWillCreated ev = false -> Wills db !! w = None ->
  onEvent now ev db = db /\
  processHistoricalEvent now ev db = db /\
  onBlock now ev db = (if isDocumentAdded ev then Exited db else Running db).
Proof.
  intros db Hw Hc Hnone.
  assert (Hlive : onEvent now ev db = db).
  { apply (onEvent_unknown_will now ev db w); try assumption.
    - apply run_foreignKeysHold, foreignKeysHold_fresh.
    - apply run_keyed. }
  split; [exact Hlive|].
  destruct ev as [t cip dp|t ts|t tot|t b sh g|t b|t b sh g|t a|t a|t a|t dl
                 |t h name type ts|t h|name];
    try (split; [exact Hlive | reflexivity]).
  cbn in Hw. injection Hw as Hw.
  cbn [processHistoricalEvent onBlock isDocumentAdded].
  unfold addDocument. cbn zeta. rewrite Hw, Hnone.
  destruct ts; split; reflexivity.
Qed.

Lemma early_events_are_dropped_or_fatal_witness :
  onEvent 2000 (BeneficiaryUpdated addrB addrA 10 true)
    (written (run (backfilled (deliveredAt 1000 sampleEvents)) fresh))
  = written (run (backfilled (deliveredAt 1000 sampleEvents)) fresh) /\
  onBlock 2000 (DocumentAdded addrB "QmYwAPJzv5CZsnA625s3Xf2nemtYgPpHdWEz79ojWnPbdG"
                  "will.pdf" "testament" (Some 1600))
    (written (run (backfilled (deliveredAt 1000 sampleEvents)) fresh))
  = Exited (written (run (backfilled (deliveredAt 1000 sampleEvents)) fresh)).
Proof.
  split.
  - apply (proj1 (early_events_are_dropped_or_fatal
                    (backfilled (deliveredAt 1000 sampleEvents)) 2000
                    (BeneficiaryUpdated addrB addrA 10 true) (toLowerCase addrB)
                    eq_refl eq_refl eq_refl)).
  - apply (proj2 (proj2 (early_events_are_dropped_or_fatal
                    (backfilled (deliveredAt 1000 sampleEvents)) 2000
                    (DocumentAdded addrB
                       "QmYwAPJzv5CZsnA625s3Xf2nemtYgPpHdWEz79ojWnPbdG"
                       "will.pdf" "testament" (Some 1600))
                    (toLowerCase addrB) eq_refl eq_refl eq_refl))).
Defined.

(** X21.  [CheckIn] and [WillExecuted] select the row by its [testator]
    column; in a replica built by the indexer that is the row of the
    event's will and no other: the update is the one on that key, the
    timestamp stored as [Number] read it, and the other three tables are
    not written. *)
Theorem timer_and_execution_touch_one_row turns now t ts total :
  let db := written (run turns fresh) in
  onEvent now (CheckIn t ts) db
  = setWills db (alter (withCheckIn (Number ts) now) (toLowerCase t) (Wills db)) /\
  onEvent now (WillExecuted t total) db
  = setWills db (alter (withExecuted now) (toLowerCase t) (Wills db)).
Proof.
  intros db. pose proof (run_keyed turns) as Hk. fold db in Hk.
  split; cbn [onEvent]; unfold updateLastCheckIn, executeWill, caught; cbn;
    rewrite update_by_testator by exact Hk; reflexivity.
Qed.

(** X22.  A [WillCreated] delivered again for a will the replica already
    has resets the will row (guardian NULL, executed 0, clock stamps, the
    periods as [Number] reads them, so rounded to a double from 2^53 on)
    and keeps everything else: vault balances, beneficiaries and
    documents. *)
Theorem recreation_keeps_children turns now t cip dp :
  let db := written (run turns fresh) in
  let db' := onEvent now (WillCreated t cip dp) db in
  is_Some (Wills db !! toLowerCase t) ->
  Vaults db' = Vaults db /\ Beneficiaries db' = Beneficiaries db /\
  Documents db' = Documents db /\
  Wills db' !! toLowerCase t
  = Some {| testator := toLowerCase t; guardian := None;
            checkInPeriod := Number cip; disputePeriod := Number dp;
            lastCheckIn := now;
            executed := 0; createdAt := now; updatedAt := now |} /\
  (forall w, w <> toLowerCase t -> Wills db' !! w = Wills db !! w) /\
  processHistoricalEvent now (WillCreated t cip dp) db = db'.
Proof.
  intros db db' Hw.
  destruct (run_vaultsInitialised turns) as [Hrows _]. fold db in Hrows.
  destruct (Hrows _ Hw) as [Hl Hf].
  subst db'. cbn [onEvent]. unfold createWill, caught, initializeVaults. cbn.
  split; [|split; [reflexivity|split; [reflexivity|split; [|split]]]].
  - rewrite (insertVaultOrIgnore_id _ locked) by exact Hl.
    apply insertVaultOrIgnore_id. exact Hf.
  - apply lookup_insert_eq.
  - intros w Hne. apply lookup_insert_ne. congruence.
  - reflexivity.
Qed.

(** A will re-created with a check-in period of 2^53 + 1 seconds keeps
    its 5 locked units and is stored with a period of 2^53. *)
Lemma recreation_keeps_children_witness :
  vaultBalance
    (onEvent 3000 (WillCreated addrA 9007199254740993 1)
       (written (run (backfilled (deliveredAt 1000 sampleEvents)) fresh)))
    (toLowerCase addrA) locked = 5 /\
  checkInPeriod <$>
    Wills (onEvent 3000 (WillCreated addrA 9007199254740993 1)
             (written (run (backfilled (deliveredAt 1000 sampleEvents)) fresh)))
      !! toLowerCase addrA = Some 9007199254740992.
Proof.
  destruct (recreation_keeps_children (backfilled (deliveredAt 1000 sampleEvents))
              3000 addrA 9007199254740993 1)
    as (Hv & _ & _ & Hrow & _).
  - vm_compute. eauto.
  - split.
    + unfold vaultBalance. rewrite Hv. vm_compute. reflexivity.
    + rewrite Hrow. vm_compute. reflexivity.
Defined.

End ProjectionExtras.

(** * More on the query API *)

Module ApiExtras.
Import Projection Api ProjectionFacts ApiFacts ProjectionExtras.

Lemma getVaults_elem w db (vt : VaultType) (v : Z) :
  (vt, v) ∈ getVaults w db <-> Vaults db !! (toLowerCase w, vt) = Some v.
Proof.
  unfold getVaults. rewrite list_elem_of_omap. split.
  - intros ([[w' vt'] v'] & Hin & Hf). apply elem_of_map_to_list in Hin.
    cbn in Hf. destruct (decide (w' = toLowerCase w)) as [->|]; [|discriminate].
    injection Hf as <- <-. exact Hin.
  - intros H. exists (toLowerCase w, vt, v).
    split; [apply elem_of_map_to_list; exact H|].
    cbn. rewrite decide_True by reflexivity. reflexivity.
Qed.

Lemma getDocuments_elem w db (h : string) (r : DocumentRow) :
  (h, r) ∈ getDocuments w db <-> Documents db !! (toLowerCase w, h) = Some r.
Proof.
  unfold getDocuments. rewrite merge_sort_Permutation, list_elem_of_omap. split.
  - intros ([[w' h'] r'] & Hin & Hf). apply elem_of_map_to_list in Hin.
    cbn in Hf. destruct (decide (w' = toLowerCase w)) as [->|]; [|discriminate].
    injection Hf as <- <-. exact Hin.
  - intros H. exists (toLowerCase w, h, r).
    split; [apply elem_of_map_to_list; exact H|].
    cbn. rewrite decide_True by reflexivity. reflexivity.
Qed.

Lemma newerFirst_total : Total newerFirst.
Proof. intros a b. unfold newerFirst. lia. Qed.

(** X23.  [getDocuments] lists exactly the documents stored for the will
    (looked up by its lower-cased id, so in whatever letter case the id is
    given), newest upload first. *)
Theorem documents_listed_newest_first w db :
  Sorted newerFirst (getDocuments w db) /\
  (forall h r,
     (h, r) ∈ getDocuments w db <-> Documents db !! (toLowerCase w, h) = Some r) /\
  getDocuments (toLowerCase w) db = getDocuments w db.
Proof.
  split; [|split].
  - unfold getDocuments. apply Sorted_merge_sort, newerFirst_total.
  - intros h r. apply getDocuments_elem.
  - unfold getDocuments. rewrite toLowerCase_idem. reflexivity.
Qed.

Lemma isHexDigit_lower c : isHexDigit c = true -> isHexDigit (lowerAscii c) = true.
Proof.
  destruct c as [[] [] [] [] [] [] [] []]; vm_compute; intros H;
    first [reflexivity | discriminate H].
Qed.

Lemma length_toLowerCase s : String.length (toLowerCase s) = String.length s.
Proof. induction s as [|c s IH]; cbn; [reflexivity|]. rewrite IH. reflexivity. Qed.

Lemma hex_toLowerCase s :
  forallb isHexDigit (list_ascii_of_string s) = true ->
  forallb isHexDigit (list_ascii_of_string (toLowerCase s)) = true.
Proof.
  induction s as [|c s IH]; cbn; [reflexivity|].
  intros H. apply andb_true_iff in H. destruct H as [Hc Hs].
  rewrite (isHexDigit_lower c Hc), (IH Hs). reflexivity.
Qed.

Lemma isValidAddress_shape a :
  isValidAddress a = true ->
  exists digits,
    a = String "0" (String "x" digits) /\ String.length digits = 40%nat /\
    forallb isHexDigit (list_ascii_of_string digits) = true.
Proof.
  destruct a as [|c0 [|c1 digits]]; try discriminate.
  - destruct c0 as [[] [] [] [] [] [] [] []]; discriminate.
  - destruct c0 as [[] [] [] [] [] [] [] []]; try discriminate;
      destruct c1 as [[] [] [] [] [] [] [] []]; try discriminate.
    unfold isValidAddress. intros H. apply andb_true_iff in H.
    destruct H as [Hlen Hhex]. apply Nat.eqb_eq in Hlen.
    exists digits. auto.
Qed.

(** X24.  What [isValidAddress] accepts is [0x] followed by exactly 40
    hexadecimal digits, 42 characters in all, and it still accepts the
    address once lower-cased, which is the form the replica stores. *)
Theorem valid_address_survives_lowercasing a :
  isValidAddress a = true ->
  String.length a = 42%nat /\ isValidAddress (toLowerCase a) = true.
Proof.
  intros H. destruct (isValidAddress_shape a H) as (digits & -> & Hlen & Hhex).
  split; [cbn; rewrite Hlen; reflexivity|].
  change (toLowerCase (String "0" (String "x" digits)))
    with (String "0" (String "x" (toLowerCase digits))).
  unfold isValidAddress.
  rewrite length_toLowerCase, Hlen, (hex_toLowerCase digits Hhex). reflexivity.
Qed.

Lemma valid_address_survives_lowercasing_witness :
  isValidAddress (toLowerCase addrA) = true.
Proof.
  apply (proj2 (valid_address_survives_lowercasing addrA eq_refl)).
Defined.

(** X25.  Every answer of the seven routes is one of 200, 400, 404 and
    500.  It is 400 exactly for a malformed parameter, 500 exactly for a
    well-formed request against a store that throws, 404 only on the two
    single-resource routes, and the body carries data exactly when the
    status is 200. *)
Theorem responses_are_classified development store req :
  let r := serve development store req in
  (status r = 200 \/ status r = 400 \/ status r = 404 \/ status r = 500) /\
  (status r = 400 <-> wellFormed req = false) /\
  (status r = 500 <-> wellFormed req = true /\ exists m, store = Down m) /\
  (status r = 404 -> singleResource req = true) /\
  (status r = 200 <-> exists p, body r = Data p).
Proof.
  destruct req as [t|b|id|b|w|w|w h]; unfold wellFormed;
    cbn [identity serve singleResource];
    unfold getWills, getWillsOfBeneficiary, getWill, getBeneficiaries,
      getVaultsRoute, getDocumentsRoute, getDocumentRoute;
    try (destruct (isValidIpfsHash h));
    match goal with
    | |- context [isValidAddress ?a] => destruct (isValidAddress a)
    end;
    destruct store as [db|m]; cbn [negb query andb];
    try (destruct (getWillDetails id db));
    try (destruct (getDocumentByHash w h db));
    cbn;
    (split; [lia|]);
    (split; [split; [intros; (discriminate || lia || reflexivity)
                    | intros; (discriminate || reflexivity)]|]);
    (split; [split; [intros Hs; first [discriminate Hs | lia | eauto]
                    | intros [Hw [m' Hm]]; first [discriminate | reflexivity]]|]);
    (split; [intros Hs; first [reflexivity | discriminate Hs | lia]|]);
    (split; [intros Hs; first [discriminate Hs | eauto] | intros [p Hp];
             first [discriminate Hp | reflexivity]]).
Qed.

Lemma beneficiariesOf_none w db :
  (forall b, Beneficiaries db !! (w, b) = None) -> beneficiariesOf w db = [].
Proof.
  intros Hn. unfold beneficiariesOf. apply omap_all_None.
  intros [[w' b] r] Hin. apply elem_of_map_to_list in Hin. cbn.
  destruct (decide (w' = w)) as [->|]; [|reflexivity].
  rewrite Hn in Hin. discriminate.
Qed.

Lemma getDocuments_none w db :
  (forall h, Documents db !! (toLowerCase w, h) = None) -> getDocuments w db = [].
Proof.
  intros Hn. unfold getDocuments. rewrite omap_all_None; [reflexivity|].
  intros [[w' h] r] Hin. apply elem_of_map_to_list in Hin. cbn.
  destruct (decide (w' = toLowerCase w)) as [->|]; [|reflexivity].
  rewrite Hn in Hin. discriminate.
Qed.

(** X26.  Indexer and API together: once the listener has handled the
    [WillCreated] of a will the replica did not have, [/will/{id}] answers
    200 with the row as created (the periods as [Number] read them, so
    rounded to a double from 2^53 on), no beneficiaries, no documents, and
    the two vaults at 0. *)
Theorem created_will_is_served turns development now t cip dp :
  let db := written (run turns fresh) in
  isValidAddress t = true -> Wills db !! toLowerCase t = None ->
  exists d,
    serve development (Up (onEvent now (WillCreated t cip dp) db)) (GetWill t)
    = ok (WillDetail d) /\
    detailsWill d
    = {| testator := toLowerCase t; guardian := None;
         checkInPeriod := Number cip; disputePeriod := Number dp;
         lastCheckIn := now; executed := 0;
         createdAt := now; updatedAt := now |} /\
    detailsBeneficiaries d = [] /\ detailsDocuments d = [] /\
    forall vt v, (vt, v) ∈ detailsVaults d <-> v = 0.
Proof.
  intros db Hvalid Hnone.
  pose proof (run_foreignKeysHold turns fresh foreignKeysHold_fresh)
    as (HB & HV & HD). fold db in HB, HV, HD.
  assert (HnoB : forall b, Beneficiaries db !! (toLowerCase t, b) = None).
  { intros b. destruct (Beneficiaries db !! (toLowerCase t, b)) eqn:Hb; [|reflexivity].
    destruct (HB _ _ _ Hb) as [r Hr]. congruence. }
  assert (HnoD : forall h, Documents db !! (toLowerCase t, h) = None).
  { intros h. destruct (Documents db !! (toLowerCase t, h)) eqn:Hd; [|reflexivity].
    destruct (HD _ _ _ Hd) as [r Hr]. congruence. }
  assert (HnoV : forall vt, Vaults db !! (toLowerCase t, vt) = None).
  { intros vt. destruct (Vaults db !! (toLowerCase t, vt)) eqn:Hv; [|reflexivity].
    destruct (HV _ _ _ Hv) as [r Hr]. congruence. }
  set (db' := onEvent now (WillCreated t cip dp) db).
  assert (HW : Wills db' !! toLowerCase t
               = Some {| testator := toLowerCase t; guardian := None;
                         checkInPeriod := Number cip; disputePeriod := Number dp;
                         lastCheckIn := now; executed := 0;
                         createdAt := now; updatedAt := now |}).
  { subst db'. cbn. apply lookup_insert_eq. }
  assert (HB' : Beneficiaries db' = Beneficiaries db) by reflexivity.
  assert (HD' : Documents db' = Documents db) by reflexivity.
  assert (HV' : Vaults db'
                = <[(toLowerCase t, flexible) := 0]>
                    (<[(toLowerCase t, locked) := 0]> (Vaults db))).
  { subst db'. cbn [onEvent]. unfold createWill, caught, initializeVaults. cbn.
    unfold insertVaultOrIgnore at 2. rewrite HnoV.
    unfold insertVaultOrIgnore. rewrite lookup_insert_ne by congruence.
    rewrite HnoV. reflexivity. }
  cbn [serve]. unfold getWill. rewrite Hvalid. cbn [negb query].
  unfold getWillDetails. rewrite HW.
  eexists. split; [reflexivity|]. cbn [detailsWill detailsBeneficiaries
                                       detailsDocuments detailsVaults].
  split; [reflexivity|]. split; [|split].
  - apply beneficiariesOf_none. intros b. rewrite HB'. apply HnoB.
  - apply getDocuments_none. intros h. rewrite HD'. apply HnoD.
  - intros vt v. rewrite getVaults_elem, HV'.
    destruct vt.
    + rewrite lookup_insert_ne by congruence. rewrite lookup_insert_eq.
      split; [intros [= <-]; reflexivity | intros ->; reflexivity].
    + rewrite lookup_insert_eq.
      split; [intros [= <-]; reflexivity | intros ->; reflexivity].
Qed.

(** A will created with a check-in period of 2^53 + 1 seconds is served
    with a period of 2^53. *)
Lemma created_will_is_served_witness :
  exists d,
    serve false (Up (onEvent 1000 (WillCreated addrA 9007199254740993 604800) fresh))
      (GetWill addrA) = ok (WillDetail d) /\
    checkInPeriod (detailsWill d) = 9007199254740992.
Proof.
  destruct (created_will_is_served [] false 1000 addrA 9007199254740993 604800
              eq_refl eq_refl) as (d & Hd & Hrow & _).
  exists d. split; [exact Hd|]. rewrite Hrow. vm_compute. reflexivity.
Defined.

(** X27.  A document's life through indexer and API.  The listener of a
    [DocumentAdded] stores nothing itself; when the block lookup settles,
    for a will the replica knows, the document is stored under the block
    time and the process goes on, and the backfill stores the same.  From
    then [/documents/{willId}/{hash}] answers 200 with that file name,
    type and block time; after the matching [DocumentRemoved] it answers
    404.  The two together leave the other documents and the other three
    tables as they were. *)
Theorem document_round_trip development now now' t h name type ts db :
  let added := DocumentAdded t h name type (Some ts) in
  let db1 := written (onBlock now added db) in
  let db2 := onEvent now' (DocumentRemoved t h) db1 in
  is_Some (Wills db !! toLowerCase t) ->
  isValidAddress t = true -> isValidIpfsHash h = true ->
  onEvent now added db = db /\
  onBlock now added db = Running db1 /\
  processHistoricalEvent now added db = db1 /\
  serve development (Up db1) (GetDocument t h)
  = ok (DocumentDetail {| documentId := documentSeq db + 1; fileName := name;
                          documentType := type; uploadedAt := ts |}) /\
  status (serve development (Up db2) (GetDocument t h)) = 404 /\
  Documents db2 = delete (toLowerCase t, h) (Documents db) /\
  Wills db2 = Wills db /\ Beneficiaries db2 = Beneficiaries db /\
  Vaults db2 = Vaults db.
Proof.
  intros added db1 db2 [r Hr] Hvalid Hhash.
  assert (Hrun : onBlock now added db
                 = Running (setDocuments db
                      (<[(toLowerCase t, h) :=
                           {| documentId := documentSeq db + 1; fileName := name;
                              documentType := type; uploadedAt := ts |}]>
                         (Documents db))
                      (documentSeq db + 1))).
  { subst added. cbn [onBlock]. unfold addDocument. cbn zeta. rewrite Hr.
    reflexivity. }
  assert (H1 : db1 = setDocuments db
                 (<[(toLowerCase t, h) :=
                      {| documentId := documentSeq db + 1; fileName := name;
                         documentType := type; uploadedAt := ts |}]> (Documents db))
                 (documentSeq db + 1)).
  { subst db1. rewrite Hrun. reflexivity. }
  assert (H2 : db2 = setDocuments db1 (delete (toLowerCase t, h) (Documents db1))
                       (documentSeq db1)) by reflexivity.
  split; [reflexivity|]. split; [rewrite Hrun, H1; reflexivity|].
  split.
  { subst added. cbn [processHistoricalEvent]. unfold addDocument. cbn zeta.
    rewrite Hr, H1. reflexivity. }
  cbn [serve]. unfold getDocumentRoute. rewrite Hvalid, Hhash. cbn [negb query].
  unfold getDocumentByHash.
  split; [|split; [|split]].
  - rewrite H1. cbn [Documents setDocuments]. rewrite lookup_insert_eq. reflexivity.
  - rewrite H2. cbn [Documents setDocuments]. rewrite lookup_delete_eq. reflexivity.
  - rewrite H2, H1. cbn [Documents setDocuments]. apply delete_insert_eq.
  - rewrite H2, H1. cbn. auto.
Qed.

Lemma document_round_trip_witness :
  status (serve false
            (Up (onEvent 1700 (DocumentRemoved addrA
                                 "QmYwAPJzv5CZsnA625s3Xf2nemtYgPpHdWEz79ojWnPbdG")
                   (written
                      (onBlock 1600
                         (DocumentAdded addrA
                            "QmYwAPJzv5CZsnA625s3Xf2nemtYgPpHdWEz79ojWnPbdG"
                            "will.pdf" "testament" (Some 1600))
                         (written (run (backfilled (deliveredAt 1000 sampleEvents))
                                     fresh))))))
            (GetDocument addrA "QmYwAPJzv5CZsnA625s3Xf2nemtYgPpHdWEz79ojWnPbdG"))
  = 404.
Proof.
  destruct (document_round_trip false 1600 1700 addrA
              "QmYwAPJzv5CZsnA625s3Xf2nemtYgPpHdWEz79ojWnPbdG"
              "will.pdf" "testament" 1600
              (written (run (backfilled (deliveredAt 1000 sampleEvents)) fresh)))
    as (_ & _ & _ & _ & H404 & _).
  - vm_compute. eauto.
  - vm_compute. reflexivity.
  - vm_compute. reflexivity.
  - exact H404.
Defined.

Lemma NoDup_only {A} (l : list A) (a : A) :
  NoDup l -> (forall x, x ∈ l <-> x = a) -> l = [a].
Proof.
  intros Hnd Hall. destruct l as [|x [|y l]].
  - exfalso. eapply not_elem_of_nil. apply Hall. reflexivity.
  - f_equal. apply Hall, list_elem_of_here.
  - exfalso.
    assert (Hx : x = a) by (apply Hall, list_elem_of_here).
    assert (Hy : y = a) by (apply Hall, list_elem_of_further, list_elem_of_here).
    subst. apply NoDup_cons in Hnd. destruct Hnd as [Hnot _].
    apply Hnot, list_elem_of_here.
Qed.

(** X28.  The two listings over a replica built by the indexer.
    [getWillsByTestator] returns the one will stored under the lower-cased
    address, or nothing.  [getWillsByBeneficiary] returns exactly the
    wills in which the lower-cased address has a share, each with that
    share, and the join loses no beneficiary row. *)
Theorem will_listings turns t b :
  let db := written (run turns fresh) in
  getWillsByTestator t db
  = match Wills db !! toLowerCase t with
    | Some r => [(toLowerCase t, r)]
    | None => []
    end /\
  (forall w r sh,
     (w, r, sh) ∈ getWillsByBeneficiary b db <->
     Wills db !! w = Some r /\
     share <$> Beneficiaries db !! (w, toLowerCase b) = Some sh) /\
  (forall w row,
     Beneficiaries db !! (w, toLowerCase b) = Some row ->
     exists r, (w, r, share row) ∈ getWillsByBeneficiary b db).
Proof.
  intros db.
  pose proof (run_keyed turns) as Hk. fold db in Hk.
  pose proof (run_foreignKeysHold turns fresh foreignKeysHold_fresh)
    as (HB & _ & _). fold db in HB.
  assert (Hjoin : forall w r sh,
             (w, r, sh) ∈ getWillsByBeneficiary b db <->
             Wills db !! w = Some r /\
             share <$> Beneficiaries db !! (w, toLowerCase b) = Some sh).
  { intros w r sh. unfold getWillsByBeneficiary. rewrite list_elem_of_omap. split.
    - intros ([[w' b'] row] & Hin & Hf). apply elem_of_map_to_list in Hin.
      cbn in Hf. destruct (decide (b' = toLowerCase b)) as [->|]; [|discriminate].
      destruct (Wills db !! w') as [r'|] eqn:Hr'; [|discriminate].
      cbn in Hf. injection Hf as <- <- <-. rewrite Hin. auto.
    - intros [Hr Hsh].
      destruct (Beneficiaries db !! (w, toLowerCase b)) as [row|] eqn:Hrow;
        [|discriminate].
      cbn in Hsh. injection Hsh as <-.
      exists (w, toLowerCase b, row).
      split; [apply elem_of_map_to_list; exact Hrow|].
      cbn. rewrite decide_True by reflexivity. rewrite Hr. reflexivity. }
  split; [|split; [exact Hjoin|]].
  - unfold getWillsByTestator.
    destruct (Wills db !! toLowerCase t) as [r|] eqn:Hr.
    + apply NoDup_only.
      * apply NoDup_filter, NoDup_map_to_list.
      * intros [k r']. rewrite list_elem_of_filter, elem_of_map_to_list. cbn.
        split.
        -- intros [Ht Hr']. pose proof (Hk _ _ Hr') as Hkey.
           assert (k = toLowerCase t) by congruence. subst k.
           congruence.
        -- intros [= -> ->]. split; [exact (Hk _ _ Hr) | exact Hr].
    + apply filter_all_out. intros [k r'] Hin. apply elem_of_map_to_list in Hin.
      cbn. intros Ht. pose proof (Hk _ _ Hin) as Hkey.
      assert (k = toLowerCase t) by congruence. subst k. congruence.
  - intros w row Hrow. destruct (HB _ _ _ Hrow) as [r Hr].
    exists r. apply Hjoin. rewrite Hrow. auto.
Qed.

End ApiExtras.

(** * The web client against the contract *)

Module FrontendFacts.
Import Frontend.

(** X29.  The badge and the button of the beneficiary panel disagree at
    one instant: whenever the button is offered the badge reads
    executable, but at exactly [lastCheckIn + checkInPeriod] the badge
    already reads executable while the button is still withheld. *)
Theorem badge_leads_button_by_one_second executed details now :
  (canExecuteWill executed details now = true ->
   getExecutionStatus executed details now = statusExecutable) /\
  (forall d,
     getExecutionStatus 0 (Some d) now = statusExecutable /\
     canExecuteWill 0 (Some d) now = false
     <-> now = Projection.lastCheckIn (Api.detailsWill d)
               + Projection.checkInPeriod (Api.detailsWill d)).
Proof.
  split.
  - unfold canExecuteWill, getExecutionStatus.
    destruct (negb (executed =? 0)); [discriminate|].
    destruct details as [d|]; [|discriminate]. cbn zeta. intros H.
    apply Z.ltb_lt in H. rewrite (proj2 (Z.leb_le _ _)) by lia. reflexivity.
  - intros d. unfold canExecuteWill, getExecutionStatus. cbn [Z.eqb negb]. cbn zeta.
    set (l := Projection.lastCheckIn (Api.detailsWill d)).
    set (p := Projection.checkInPeriod (Api.detailsWill d)).
    destruct (Z.leb_spec (p - (now - l)) 0) as [Ha|Ha],
             (Z.ltb_spec p (now - l)) as [Hb|Hb];
      split; intros Hc; try lia;
      try match type of Hc with
          | _ /\ _ => destruct Hc as [Hc1 Hc2];
                      first [discriminate Hc1 | discriminate Hc2]
          end;
      auto.
Qed.



End FrontendFacts.
